(** * Site percolation engine (SitePercolation.cc): model and verified properties

    The engine of [src/SitePercolation.cc] is embedded as pure state-passing
    functions.  C++ [double] is IEEE 754 binary64 and is modelled by Rocq's
    primitive [float] (same format, round-to-nearest-even), so that the
    accumulated sweep threshold [p += step] is computed bit for bit.
    Indices, sizes and counts are C++ [int]s that are never negative on defined
    executions and are modelled by [nat]; an index outside its vector is
    undefined behaviour in C++ and is modelled by [None].  The caller-supplied
    running maximum [int &Smax] is an arbitrary [int] and is modelled by [Z].
    The class [UnionFind] is declared and implemented outside the file at
    hand; it is modelled from its contract in the specification, with parent
    pointers, sizes, union by size and full path compression.  The sweep loop
    is bounded by a number of iterations given to the model, and a sweep that
    uses it up is reported as [OutOfFuel]. *)

From Stdlib Require Import ZArith Floats Lia.
From stdpp Require Import base tactics option numbers list relations strings pretty.

Set Warnings "-inexact-float,-clear-no-such-hyp".
Set Default Proof Using "Type".

(** ** The disjoint-set structure *)

Module UnionFind.

(** Modelled from the spec: the class [UnionFind] (header and implementation)
    is not part of the sources.  Spec section 3: the structure "owns a
    parent-pointer mapping (node -> node, self-loop at roots) and a size mapping
    (root -> count), sized to the number of elements it manages". *)
Record t : Type := mk { parent : list nat; sizes : list nat }.

(** Modelled from the spec: the constructor [UnionFind(n)]; "every element
    [...] is its own trivial singleton component until united with another". *)
Definition new (n : nat) : t := {| parent := seq 0 n; sizes := replicate n 1 |}.

(** [parent[x]]; outside the vector a node is read as its own parent. *)
Definition parent_at (p : list nat) (x : nat) : nat := default x (p !! x).

(** [size[x]]. *)
Definition size_at (s : list nat) (x : nat) : nat := default 0 (s !! x).

(** Modelled from the spec: [find(x)] "returns the representative (root) of
    [x]'s component; while walking from [x] to its root, rewrites every visited
    node's parent to point directly at the root (full path compression)".
    The recursion of [find] is bounded by the number of elements. *)
Fixpoint find_aux (fuel : nat) (p : list nat) (x : nat) : list nat * nat :=
  match fuel with
  | 0 => (p, x)
  | S fuel' =>
      let px := parent_at p x in
      if decide (px = x) then (p, x)
      else let '(p', r) := find_aux fuel' p px in (<[x := r]> p', r)
  end.

Definition find (u : t) (x : nat) : t * nat :=
  let '(p', r) := find_aux (length (parent u)) (parent u) x in
  ({| parent := p'; sizes := sizes u |}, r).

(** Modelled from the spec: [unite(a, b)] "finds roots of [a] and [b]; if
    equal, no-op; otherwise attaches the root with the smaller size as a child
    of the root with the larger size (ties broken arbitrarily but
    consistently), and the surviving root's size becomes the sum of both".
    On a tie the root of [b] is attached under the root of [a]. *)
Definition unite (u : t) (a b : nat) : t :=
  let '(u1, ra) := find u a in
  let '(u2, rb) := find u1 b in
  if decide (ra = rb) then u2
  else
    let sa := size_at (sizes u2) ra in
    let sb := size_at (sizes u2) rb in
    if decide (sa < sb)
    then {| parent := <[ra := rb]> (parent u2); sizes := <[rb := sa + sb]> (sizes u2) |}
    else {| parent := <[rb := ra]> (parent u2); sizes := <[ra := sa + sb]> (sizes u2) |}.

(** Modelled from the spec: [get_size(x)] "returns the current size of the
    component containing [x]", read at the root that [find] returns. *)
Definition get_size (u : t) (x : nat) : t * nat :=
  let '(u1, r) := find u x in (u1, size_at (sizes u1) r).

(** Modelled from the spec: [Ncc(n)] "returns the number of distinct roots
    among the first [n] managed elements"; a read-only count.  The spec does
    not say whether the roots are read off the parent mapping or found through
    [find]; the reading that writes nothing is taken here. *)
Definition Ncc (u : t) (n : nat) : nat :=
  length (filter (λ i, parent_at (parent u) i = i) (seq 0 n)).

(** *** Forests of parent pointers *)

Definition is_root (p : list nat) (x : nat) : Prop := parent_at p x = x.

#[global] Instance is_root_dec p x : Decision (is_root p x).
Proof. unfold is_root. apply _. Defined.

(** [reach p x r]: following parent pointers from [x] ends at the root [r]. *)
Inductive reach (p : list nat) : nat → nat → Prop :=
  | reach_root r : is_root p r → reach p r r
  | reach_step x r : ¬ is_root p x → reach p (parent_at p x) r → reach p x r.

(** The walk of [find] without the writes. *)
Fixpoint find_root (fuel : nat) (p : list nat) (x : nat) : nat :=
  match fuel with
  | 0 => x
  | S fuel' =>
      let px := parent_at p x in
      if decide (px = x) then x else find_root fuel' p px
  end.

(** The representative of [x]. *)
Definition root_of (p : list nat) (x : nat) : nat := find_root (length p) p x.

(** Parent pointers stay inside the structure and admit a height function
    that strictly grows towards the roots: there is no cycle. *)
Definition forest (p : list nat) : Prop :=
  (∀ x, x < length p → parent_at p x < length p) ∧
  ∃ h : nat → nat, ∀ x, ¬ is_root p x → h x < h (parent_at p x).

(** Well-formed structure: both mappings have one entry per element. *)
Definition wf (u : t) : Prop :=
  length (sizes u) = length (parent u) ∧ forest (parent u).

(** The partition a structure represents: the representative of each element. *)
Definition reps (u : t) : list nat :=
  map (root_of (parent u)) (seq 0 (length (parent u))).

(** *** Path compression *)

(** [compressed p p']: [p'] is [p] where some non-root elements point
    directly at their representative. *)
Definition compressed (p p' : list nat) : Prop :=
  length p' = length p ∧
  ∀ y, parent_at p' y = parent_at p y ∨
       (¬ is_root p y ∧ parent_at p' y = root_of p y).

(** *** Linking two roots, and [unite] on the represented partition *)

(** What [unite] does to the representatives [R] and to the size mapping [s]:
    the abstract counterpart of [unite], independent of the parent pointers
    that path compression rewrites. *)
Definition merge (R : nat → nat) (s : list nat) (a b : nat) : (nat → nat) * list nat :=
  let ra := R a in
  let rb := R b in
  if decide (ra = rb) then (R, s)
  else
    let sa := size_at s ra in
    let sb := size_at s rb in
    if decide (sa < sb)
    then (λ z, if decide (R z = ra) then rb else R z, <[rb := sa + sb]> s)
    else (λ z, if decide (R z = rb) then ra else R z, <[ra := sa + sb]> s).

(** *** The represented partition as a list of representatives *)

(** [R[x]], an element outside the list standing for itself. *)
Definition rep_at (R : list nat) (x : nat) : nat := default x (R !! x).

(** Every element whose representative is [child] gets [sur] instead. *)
Definition relabel (child sur : nat) (R : list nat) : list nat :=
  (λ r, if decide (r = child) then sur else r) <$> R.

(** [unite] on representatives and sizes. *)
Definition merge_reps (R s : list nat) (a b : nat) : list nat * list nat :=
  let ra := rep_at R a in
  let rb := rep_at R b in
  if decide (ra = rb) then (R, s)
  else
    let sa := size_at s ra in
    let sb := size_at s rb in
    if decide (sa < sb)
    then (relabel ra rb R, <[rb := sa + sb]> s)
    else (relabel rb ra R, <[ra := sa + sb]> s).

(** [Ncc] on representatives. *)
Definition Ncc_reps (R : list nat) (n : nat) : nat :=
  length (filter (λ i, rep_at R i = i) (seq 0 n)).

End UnionFind.


(** ** The percolation engine *)

(** [typedef pair<int, int> Edge]. *)
Definition Edge : Type := nat * nat.

(** The members of [class SitePercolation].  [p_c] is written by the sweep
    only; the constructor leaves it unset. *)
Record SitePercolation : Type := mkSitePercolation {
  uf : UnionFind.t;
  uf_aux : UnionFind.t;
  numNodos : nat;
  current_p : float;
  nodoActivo : list bool;
  superTop : nat;
  superBottom : nat;
  p_c : option float
}.

Definition set_uf (sp : SitePercolation) (u : UnionFind.t) : SitePercolation :=
  mkSitePercolation u (uf_aux sp) (numNodos sp) (current_p sp) (nodoActivo sp)
    (superTop sp) (superBottom sp) (p_c sp).

Definition set_uf_aux (sp : SitePercolation) (u : UnionFind.t) : SitePercolation :=
  mkSitePercolation (uf sp) u (numNodos sp) (current_p sp) (nodoActivo sp)
    (superTop sp) (superBottom sp) (p_c sp).

Definition set_p_c (sp : SitePercolation) (p : float) : SitePercolation :=
  mkSitePercolation (uf sp) (uf_aux sp) (numNodos sp) (current_p sp) (nodoActivo sp)
    (superTop sp) (superBottom sp) (Some p).

(** [SitePercolation::SitePercolation(int numNodos)]. *)
Definition SitePercolation_new (n : nat) : SitePercolation :=
  {| uf := UnionFind.new n;
     uf_aux := UnionFind.new (n + 2);
     numNodos := n;
     current_p := 0.0%float;
     nodoActivo := replicate n false;
     superTop := n;
     superBottom := n + 1;
     p_c := None |}.

(** [int grid_size = sqrt(numNodos)]: the double square root of an [int],
    truncated; on the range of [int] this is the integer square root. *)
Definition grid_size (n : nat) : nat := Nat.sqrt n.

(** The pairs that the loop of [initialize_supernodes] unites, in order. *)
Definition supernode_links (sp : SitePercolation) : list (nat * nat) :=
  flat_map (λ i, [(superTop sp, i);
                  (superBottom sp, numNodos sp - grid_size (numNodos sp) + i)])
           (seq 0 (grid_size (numNodos sp))).

(** [void SitePercolation::initialize_supernodes()]. *)
Definition initialize_supernodes (sp : SitePercolation) : SitePercolation :=
  set_uf_aux sp
    (foldl (λ ua l, UnionFind.unite ua l.1 l.2) (uf_aux sp) (supernode_links sp)).

(** [bool SitePercolation::has_percolation()]: two calls of [find] on the
    auxiliary structure (left operand first), whose writes are kept. *)
Definition has_percolation (sp : SitePercolation) : SitePercolation * bool :=
  let '(a1, t) := UnionFind.find (uf_aux sp) (superTop sp) in
  let '(a2, b) := UnionFind.find a1 (superBottom sp) in
  (set_uf_aux sp a2, bool_decide (t = b)).

(** Monadic left fold: a [for] loop whose body may hit undefined behaviour. *)
Fixpoint for_each {A S : Type} (body : S → A → option S) (l : list A) (s : S) : option S :=
  match l with
  | [] => Some s
  | x :: l' =>
      match body s x with
      | Some s' => for_each body l' s'
      | None => None
      end
  end.

(** Body of the activation loop:
    [if (!nodoActivo[i] && configuracion[i] <= p) nodoActivo[i] = true]. *)
Definition activate_node (configuracion : list float) (p : float)
    (act : list bool) (i : nat) : option (list bool) :=
  match act !! i with
  | None => None
  | Some true => Some act
  | Some false =>
      match configuracion !! i with
      | None => None
      | Some w => Some (if (w <=? p)%float then <[i := true]> act else act)
      end
  end.

(** State of the connection loop: both structures and the running maximum. *)
Definition conn_state : Type := UnionFind.t * UnionFind.t * Z.

(** Body of the connection loop over [aristas]:
    [if (nodoActivo[u] && nodoActivo[v]) { uf.unite(u, v); ...; uf_aux.unite(u, v); }].
    The second flag is read only when the first holds.  The two [get_size]
    calls inside [max] are taken left to right; both orders compress the same
    paths and return the same sizes. *)
Definition connect_edge (act : list bool) (s : conn_state) (arista : Edge) : option conn_state :=
  let '(u, aux, Smax) := s in
  let '(a, b) := arista in
  match act !! a with
  | None => None
  | Some false => Some s
  | Some true =>
      match act !! b with
      | None => None
      | Some false => Some s
      | Some true =>
          let u1 := UnionFind.unite u a b in
          let '(u2, s1) := UnionFind.get_size u1 a in
          let '(u3, s2) := UnionFind.get_size u2 b in
          let newSmax := Z.of_nat (s1 `max` s2) in
          Some (u3, UnionFind.unite aux a b, Smax `max` newSmax)%Z
      end
  end.

(** What a call of the incremental step leaves behind: the engine, the
    output argument [Smax], the returned count, and the lines sent to [cerr]. *)
Record step_out : Type := mk_step_out {
  so_engine : SitePercolation;
  so_Smax : Z;
  so_ret : nat;
  so_cerr : list string
}.

Definition order_error : string :=
  "Error: No se puede realizar una percolación con un p menor que el actual.".

(** [int SitePercolation::generate_single_percolation(aristas, configuracion, p, Smax)].
    [None] is an out-of-bounds vector access. *)
Definition generate_single_percolation (sp : SitePercolation)
    (aristas : list Edge) (configuracion : list float) (p : float) (Smax : Z)
    : option step_out :=
  if (p <? current_p sp)%float then
    Some (mk_step_out sp Smax (UnionFind.Ncc (uf sp) (numNodos sp)) [order_error])
  else
    match for_each (activate_node configuracion p) (seq 0 (numNodos sp)) (nodoActivo sp) with
    | None => None
    | Some act =>
        match for_each (connect_edge act) aristas (uf sp, uf_aux sp, Smax) with
        | None => None
        | Some (u, aux, Smax') =>
            let sp' := mkSitePercolation u aux (numNodos sp) p act
                         (superTop sp) (superBottom sp) (p_c sp) in
            Some (mk_step_out sp' Smax' (UnionFind.Ncc u (numNodos sp)) [])
        end
    end.

(** [static_cast<double>(n)] for an [int]; exact, an [int] has 32 bits. *)
Definition double_of_int (z : Z) : float :=
  if (z <? 0)%Z then (- PrimFloat.of_uint63 (Uint63.of_Z (- z)))%float
  else PrimFloat.of_uint63 (Uint63.of_Z z).

(** A record of [resultados]: [p], [Ncc], [Smax], [Nmax]. *)
Definition record : Type := float * nat * Z * float.

(** A line sent to one of the two [ofstream]s, as the values handed to
    [operator<<]: the columns of a header, the four values of a report row,
    the threshold and the [int]s [uf.find(i)] of a cluster row.  An [int] is
    written in decimal; a [double] is written at the precision of the stream
    (six significant digits unless changed), and this text is not modelled:
    a row says which double was handed over, not which characters reach the
    file.  The code never reads a stream back nor tests its state, so whether
    a line reaches the disk is outside the engine. *)
Inductive csv_line : Type :=
  | Header (columns : list string)
  | ReportRow (r : record)
  | ClusterRow (p : float) (roots : list nat).

(** The loop [for i < numNodos: cluster_of_each_node << "," << uf.find(i)]:
    each [find] compresses, the roots are collected in order. *)
Definition cluster_roots (u : UnionFind.t) (n : nat) : UnionFind.t * list nat :=
  foldl (λ acc i, let '(u', r) := UnionFind.find acc.1 i in (u', acc.2 ++ [r]))
        (u, []) (seq 0 n).

(** The variables alive across the iterations of the sweep loop. *)
Record sweep_state : Type := mk_sweep_state {
  sw_engine : SitePercolation;
  sw_p : float;
  sw_Smax : Z;
  sw_percolation : bool;
  resultados : list record;
  percolation_report : list csv_line;
  cluster_of_each_node : list csv_line;
  sw_cout : list float;
  sw_cerr : list string
}.

(** The loop bound [1.0 + 1e-10], a double addition. *)
Definition p_max : float := (1.0 + 1e-10)%float.

(** The block [if (visualization) { ... }] of the loop body: one row is
    handed to each stream; the second row holds [uf.find(i)] for every node,
    and these calls compress paths of the primary structure. *)
Definition write_files (visualization : bool) (s : sweep_state)
    (sp : SitePercolation) (r : record) : SitePercolation * list csv_line * list csv_line :=
  if visualization then
    let '(u', roots) := cluster_roots (uf sp) (numNodos sp) in
    (set_uf sp u',
     percolation_report s ++ [ReportRow r],
     cluster_of_each_node s ++ [ClusterRow r.1.1.1 roots])
  else (sp, percolation_report s, cluster_of_each_node s).

(** The block [if (!percolation && has_percolation()) { p_c = p; ... }]:
    [has_percolation] is called only while the flag is down. *)
Definition check_percolation (s : sweep_state) (sp : SitePercolation) (p : float)
    : SitePercolation * bool * list float :=
  if sw_percolation s then (sp, true, sw_cout s)
  else
    let '(sp', b) := has_percolation sp in
    if b then (set_p_c sp' p, true, sw_cout s ++ [p])
    else (sp', false, sw_cout s).

(** One iteration of the loop of [generate_full_percolation], including the
    increment [p += step]. *)
Definition sweep_body (aristas : list Edge) (configuracion : list float)
    (step : float) (visualization : bool) (s : sweep_state) : option sweep_state :=
  let p := sw_p s in
  match generate_single_percolation (sw_engine s) aristas configuracion p (sw_Smax s) with
  | None => None
  | Some o =>
      let sp := so_engine o in
      let Ncc := so_ret o in
      let Smax := so_Smax o in
      let Nmax := (double_of_int Smax / double_of_int (Z.of_nat (numNodos sp)))%float in
      let r : record := (p, Ncc, Smax, Nmax) in
      let '(sp1, report, clusters) := write_files visualization s sp r in
      let '(sp2, percolation, cout) := check_percolation s sp1 p in
      Some {| sw_engine := sp2;
              sw_p := (p + step)%float;
              sw_Smax := Smax;
              sw_percolation := percolation;
              resultados := resultados s ++ [r];
              percolation_report := report;
              cluster_of_each_node := clusters;
              sw_cout := cout;
              sw_cerr := sw_cerr s ++ so_cerr o |}
  end.

(** How a call ends: it returns, it runs into undefined behaviour, or the
    bound on the number of iterations given to the model is used up. *)
Inductive outcome (A : Type) : Type :=
  | Returns (a : A)
  | Undefined
  | OutOfFuel.
Arguments Returns {A} a.
Arguments Undefined {A}.
Arguments OutOfFuel {A}.

(** [for (double p = 0.0; p <= 1.0 + 1e-10; p += step) { ... }]. *)
Fixpoint sweep_loop (fuel : nat) (aristas : list Edge) (configuracion : list float)
    (step : float) (visualization : bool) (s : sweep_state) : outcome sweep_state :=
  match fuel with
  | 0 => OutOfFuel
  | S fuel' =>
      if (sw_p s <=? p_max)%float then
        match sweep_body aristas configuracion step visualization s with
        | None => Undefined
        | Some s' => sweep_loop fuel' aristas configuracion step visualization s'
        end
      else Returns s
  end.

(** The state in which the loop is entered: [Smax = 1], the headers written
    when [visualization] holds, the supernodes initialised, [percolation = false]. *)
Definition sweep_init (sp : SitePercolation) (visualization : bool) : sweep_state :=
  {| sw_engine := initialize_supernodes sp;
     sw_p := 0.0%float;
     sw_Smax := 1;
     sw_percolation := false;
     resultados := [];
     percolation_report :=
       if visualization then [Header ["p"; "Ncc"; "Smax"; "Nmax"]] else [];
     cluster_of_each_node :=
       if visualization
       then [Header ("p" :: map (λ i : nat, "Nodo_" +:+ pretty i) (seq 0 (numNodos sp)))]
       else [];
     sw_cout := [];
     sw_cerr := [] |}.

(** [generate_full_percolation(aristas, configuracion, step, visualization)];
    the vector it returns is [resultados] of the final state. *)
Definition generate_full_percolation (fuel : nat) (sp : SitePercolation)
    (aristas : list Edge) (configuracion : list float) (step : float)
    (visualization : bool) : outcome sweep_state :=
  sweep_loop fuel aristas configuracion step visualization (sweep_init sp visualization).


(** ** Well-formed engines and inputs, and the engine on partitions *)

(** The shape the constructor establishes and every operation keeps. *)
Definition engine_wf (sp : SitePercolation) : Prop :=
  UnionFind.wf (uf sp) ∧ UnionFind.wf (uf_aux sp) ∧
  length (UnionFind.parent (uf sp)) = numNodos sp ∧
  length (UnionFind.parent (uf_aux sp)) = numNodos sp + 2 ∧
  length (nodoActivo sp) = numNodos sp ∧
  superTop sp = numNodos sp ∧
  superBottom sp = numNodos sp + 1.

(** Edges over [[0, n)]: the inputs on which no vector is indexed out of bounds. *)
Definition edges_ok (n : nat) (aristas : list Edge) : Prop :=
  Forall (λ e : Edge, e.1 < n ∧ e.2 < n) aristas.

(** Representatives and sizes as a disjoint-set structure presents them:
    representatives stay inside the structure and are their own representative. *)
Definition valid_reps (R s : list nat) : Prop :=
  length s = length R ∧
  (∀ x, x < length R → UnionFind.rep_at R x < length R) ∧
  (∀ x, UnionFind.rep_at R (UnionFind.rep_at R x) = UnionFind.rep_at R x).

(** The activation vector after the activation loop at threshold [p]. *)
Definition activation_after (configuracion : list float) (p : float)
    (act : list bool) : list bool :=
  imap (λ i a, a || from_option (λ w, (w <=? p)%float) false (configuracion !! i)) act.

(** Both endpoints of an edge are active. *)
Definition both_active (act : list bool) (e : Edge) : bool :=
  bool_decide (act !! e.1 = Some true ∧ act !! e.2 = Some true).

(** The body of the connection loop on the partition of the primary structure:
    representatives, sizes and the running maximum. *)
Definition connect_abs (act : list bool) (s : list nat * list nat * Z) (e : Edge)
    : list nat * list nat * Z :=
  if both_active act e then
    let '(R', sz') := UnionFind.merge_reps s.1.1 s.1.2 e.1 e.2 in
    let s1 := UnionFind.size_at sz' (UnionFind.rep_at R' e.1) in
    let s2 := UnionFind.size_at sz' (UnionFind.rep_at R' e.2) in
    (R', sz', s.2 `max` Z.of_nat (s1 `max` s2))%Z
  else s.

(** The same on the auxiliary structure. *)
Definition connect_aux_abs (act : list bool) (s : list nat * list nat) (e : Edge)
    : list nat * list nat :=
  if both_active act e then UnionFind.merge_reps s.1 s.2 e.1 e.2 else s.

(** The partition of a structure: representatives and sizes. *)
Definition partition_of (u : UnionFind.t) : list nat * list nat :=
  (UnionFind.reps u, UnionFind.sizes u).

(** The body of the connection loop on the auxiliary structure alone. *)
Definition connect_aux (act : list bool) (aux : UnionFind.t) (e : Edge) : UnionFind.t :=
  if both_active act e then UnionFind.unite aux e.1 e.2 else aux.

(** What a call of the incremental step that passes the ordering check
    leaves behind, on the partitions. *)
Definition step_post (sp : SitePercolation) (aristas : list Edge)
    (configuracion : list float) (p : float) (Smax : Z) (o : step_out) : Prop :=
  let act := activation_after configuracion p (nodoActivo sp) in
  let sp' := so_engine o in
  numNodos sp' = numNodos sp ∧ current_p sp' = p ∧
  superTop sp' = superTop sp ∧ superBottom sp' = superBottom sp ∧
  p_c sp' = p_c sp ∧
  nodoActivo sp' = act ∧
  (partition_of (uf sp'), so_Smax o)
    = foldl (connect_abs act) (partition_of (uf sp), Smax) aristas ∧
  uf_aux sp' = foldl (connect_aux act) (uf_aux sp) aristas ∧
  partition_of (uf_aux sp')
    = foldl (connect_aux_abs act) (partition_of (uf_aux sp)) aristas ∧
  so_ret o = UnionFind.Ncc_reps (UnionFind.reps (uf sp')) (numNodos sp) ∧
  so_cerr o = [].

(** An edge is settled in a state of the connection loop when processing it
    again changes nothing: its endpoints, if both active, already share a
    representative whose size the running maximum has seen. *)
Definition settled (act : list bool) (st : list nat * list nat * Z) (e : Edge) : Prop :=
  both_active act e = true →
  UnionFind.rep_at st.1.1 e.1 = UnionFind.rep_at st.1.1 e.2 ∧
  (Z.of_nat (UnionFind.size_at st.1.2 (UnionFind.rep_at st.1.1 e.1)) ≤ st.2)%Z.

(** ** The sweep, iteration by iteration *)

(** The state after [n] iterations of the loop body, loop condition aside. *)
Fixpoint sweep_iterations (n : nat) (aristas : list Edge) (configuracion : list float)
    (step : float) (visualization : bool) (s : sweep_state) : option sweep_state :=
  match n with
  | 0 => Some s
  | S n' =>
      match sweep_body aristas configuracion step visualization s with
      | None => None
      | Some s' => sweep_iterations n' aristas configuracion step visualization s'
      end
  end.

(** The value of the loop variable [p] on entry to iteration [k]:
    [0.0] with [step] added [k] times, each sum rounded to a double. *)
Fixpoint threshold (step : float) (k : nat) : float :=
  match k with
  | 0 => 0.0%float
  | S k' => (threshold step k' + step)%float
  end.

(** What [has_percolation] would answer on an engine. *)
Definition percolates (sp : SitePercolation) : bool := (has_percolation sp).2.


(** ** Doubles *)

(** The number of binary digits of a mantissa. *)
Definition digits (m : positive) : Z := Z.pos (digits2_pos m).

(** The smallest positive double, [2^-1074]. *)
Definition tiny_step : float := 0x1p-1074%float.

(** The doubles that the sweep variable can reach when the step is
    [tiny_step]: zero and the multiples [m * 2^-1074] up to [2^-1021]. *)
Definition below_stall (x : spec_float) : Prop :=
  x = S754_zero false ∨
  (∃ m, x = S754_finite false m (-1074) ∧ (Z.pos m < 2 ^ 53)%Z) ∨
  x = S754_finite false (2 ^ 52) (-1073).

(** The scenario of the spec: 4-node lattice, before the first iteration. *)
Definition scenario_init : sweep_state := sweep_init (SitePercolation_new 4) false.

(** The component count of a record. *)
Definition record_count (r : record) : nat := r.1.1.2.

(** The number of components of the primary structure of an engine. *)
Definition components (sp : SitePercolation) : nat :=
  UnionFind.Ncc_reps (UnionFind.reps (uf sp)) (numNodos sp).

(** ** Bounds, connectivity and cluster sizes *)

Section further_notions.
Import UnionFind.

(** The largest-cluster size and the threshold of a record. *)
Definition record_Smax (r : record) : Z := r.1.2.


(** The inputs on which a call that passes the ordering check indexes no
    vector out of bounds: every node found inactive has a weight, the first
    endpoint of every edge is a node, and so is the second endpoint whenever
    the first one is active (the second flag is read only then). *)
Definition in_bounds (sp : SitePercolation) (aristas : list Edge)
    (configuracion : list float) (p : float) : Prop :=
  (∀ i, i < numNodos sp → nodoActivo sp !! i = Some false → i < length configuracion) ∧
  Forall (λ e : Edge,
            e.1 < numNodos sp ∧
            (activation_after configuracion p (nodoActivo sp) !! e.1 = Some true →
             e.2 < numNodos sp)) aristas.

(** The doubles that are zero, negative or minus infinity. *)
Definition nonpositive (x : spec_float) : Prop :=
  match x with
  | S754_zero _ | S754_infinity true | S754_finite true _ _ => True
  | _ => False
  end.

(** One [unite] call on representatives and sizes. *)
Definition merge_pair (st : list nat * list nat) (e : nat * nat) : list nat * list nat :=
  merge_reps st.1 st.2 e.1 e.2.

(** An edge of the list whose two endpoints are active. *)
Definition active_edge (act : list bool) (aristas : list Edge) : relation nat :=
  λ a b, (a, b) ∈ aristas ∧ act !! a = Some true ∧ act !! b = Some true.

(** Two nodes are connected when a chain of such edges, each taken in either
    direction, leads from one to the other. *)
Definition connected (act : list bool) (aristas : list Edge) : relation nat :=
  rtsc (active_edge act aristas).

(** Two nodes have the same representative in the primary structure. *)
Definition same_cluster (sp : SitePercolation) : relation nat :=
  λ x y, rep_at (reps (uf sp)) x = rep_at (reps (uf sp)) y.

(** The clusters of the primary structure are the connected components of
    the active part of the graph. *)
Definition clusters_exact (aristas : list Edge) (sp : SitePercolation) : Prop :=
  ∀ x y, same_cluster sp x y ↔ connected (nodoActivo sp) aristas x y.

(** A pair united by [initialize_supernodes], or an edge with both endpoints
    active. *)
Definition wired (sp : SitePercolation) (act : list bool) (aristas : list Edge)
    : relation nat :=
  λ u v, (u, v) ∈ supernode_links sp ∨ active_edge act aristas u v.

(** The components of the auxiliary structure are those generated by the
    supernode links and the active edges. *)
Definition aux_exact (aristas : list Edge) (sp : SitePercolation) : Prop :=
  ∀ x y, rep_at (reps (uf_aux sp)) x = rep_at (reps (uf_aux sp)) y ↔
         rtsc (wired sp (nodoActivo sp) aristas) x y.

(** A spanning cluster: some node of the top row is connected to some node
    of the bottom row. *)
Definition spans (act : list bool) (aristas : list Edge) (n : nat) : Prop :=
  ∃ i j, i < grid_size n ∧ j < grid_size n ∧
         connected act aristas i (n - grid_size n + j).

(** The number of elements whose representative is [r]. *)
Definition count_rep (R : list nat) (r : nat) : nat :=
  length (filter (λ y, rep_at R y = r) (seq 0 (length R))).

(** The size stored at every representative is the number of elements of
    its component. *)
Definition sizes_exact (R s : list nat) : Prop :=
  ∀ x, x < length R → size_at s (rep_at R x) = count_rep R (rep_at R x).

(** [Smax] bounds the stored size of every component and is the stored size
    of one of them. *)
Definition largest (R s : list nat) (Smax : Z) : Prop :=
  (∀ x, x < length R → (Z.of_nat (size_at s (rep_at R x)) ≤ Smax)%Z) ∧
  ∃ x, x < length R ∧ Smax = Z.of_nat (size_at s (rep_at R x)).

(** The number of nodes in the cluster of [x]. *)
Definition cluster_size (sp : SitePercolation) (x : nat) : nat :=
  count_rep (reps (uf sp)) (rep_at (reps (uf sp)) x).

(** [S] is the number of nodes of a largest cluster. *)
Definition largest_cluster (sp : SitePercolation) (S : Z) : Prop :=
  (∀ x, x < numNodos sp → (Z.of_nat (cluster_size sp x) ≤ S)%Z) ∧
  ∃ x, x < numNodos sp ∧ S = Z.of_nat (cluster_size sp x).

(** The top terminal is alone in its component of the auxiliary structure. *)
Definition terminals_apart (sp : SitePercolation) : Prop :=
  ∀ x, rep_at (reps (uf_aux sp)) x = rep_at (reps (uf_aux sp)) (superTop sp) →
       x = superTop sp.

(** The activation flags of an [n]-node lattice in which exactly the nodes
    of weight at most [p] are active. *)
Definition open_sites (configuracion : list float) (p : float) (n : nat) : list bool :=
  (λ w, (w <=? p)%float) <$> take n configuracion.

(** Two edge lists that describe the same undirected graph: the same pairs
    of endpoints, in any order, any orientation and any multiplicity. *)
Definition same_graph (l l' : list Edge) : Prop :=
  ∀ a b, ((a, b) ∈ l ∨ (b, a) ∈ l) ↔ ((a, b) ∈ l' ∨ (b, a) ∈ l').

(** A sequence of calls of the incremental step, one per threshold of [ps],
    with the same edges and weights; the engine and [Smax] are threaded
    through the calls. *)
Fixpoint run_steps (sp : SitePercolation) (aristas : list Edge)
    (configuracion : list float) (ps : list float) (Smax : Z)
    : option (SitePercolation * Z) :=
  match ps with
  | [] => Some (sp, Smax)
  | p :: ps' =>
      match generate_single_percolation sp aristas configuracion p Smax with
      | None => None
      | Some o => run_steps (so_engine o) aristas configuracion ps' (so_Smax o)
      end
  end.

(** Every pair that [initialize_supernodes] unites is already in one
    component of the auxiliary structure. *)
Definition supernodes_joined (sp : SitePercolation) : Prop :=
  ∀ e, e ∈ supernode_links sp →
       rep_at (reps (uf_aux sp)) e.1 = rep_at (reps (uf_aux sp)) e.2.

End further_notions.

(** * Properties of the disjoint-set structure *)

Module UnionFindFacts.
Import UnionFind.

Section forest_facts.
Implicit Types (p : list nat) (x y r k : nat).

Lemma parent_at_ge p x : length p ≤ x → parent_at p x = x.
Proof. intros H. unfold parent_at. by rewrite lookup_ge_None_2. Qed.

Lemma parent_at_insert p i v x :
  parent_at (<[i := v]> p) x =
    if decide (x = i ∧ i < length p) then v else parent_at p x.
Proof.
  unfold parent_at. case_decide as H.
  - destruct H as [-> H]. by rewrite list_lookup_insert_eq.
  - destruct (decide (x = i)) as [->|Hne].
    + rewrite list_insert_ge; [done | lia].
    + by rewrite list_lookup_insert_ne.
Qed.

Lemma is_root_ge p x : length p ≤ x → is_root p x.
Proof. apply parent_at_ge. Qed.

Lemma reach_det p x r1 r2 : reach p x r1 → reach p x r2 → r1 = r2.
Proof.
  intros H1; revert r2. induction H1 as [r Hr | x r Hx _ IH]; intros r2 H2.
  - inversion H2; subst; [done | contradiction].
  - inversion H2; subst; [contradiction | auto].
Qed.

Lemma reach_root_inv p r r' : is_root p r → reach p r r' → r' = r.
Proof. intros Hr H. symmetry. eapply reach_det; [by apply reach_root | done]. Qed.

Lemma find_root_reach p k x :
  is_root p (find_root k p x) → reach p x (find_root k p x).
Proof.
  revert x. induction k as [|k IH]; intros x; simpl.
  - by apply reach_root.
  - case_decide as Hx; [intros _; by apply reach_root |].
    intros H. apply reach_step; [done | by apply IH].
Qed.

Lemma find_root_lt p k x :
  (∀ y, y < length p → parent_at p y < length p) →
  x < length p → find_root k p x < length p.
Proof.
  intros Hrange. revert x. induction k as [|k IH]; intros x Hx; simpl; [done|].
  case_decide; [done | apply IH, Hrange, Hx].
Qed.

(** A walk that has not reached a root after [k] steps has visited [k + 1]
    pairwise distinct elements. *)
Lemma walk_distinct p (h : nat → nat) k x :
  (∀ y, y < length p → parent_at p y < length p) →
  (∀ y, ¬ is_root p y → h y < h (parent_at p y)) →
  x < length p →
  ¬ is_root p (find_root k p x) →
  ∃ l, length l = S k ∧ NoDup l ∧ ∀ y, y ∈ l → y < length p ∧ h x ≤ h y.
Proof.
  intros Hrange Hh. revert x. induction k as [|k IH]; intros x Hx; simpl.
  - intros _. exists [x]. split; [done|]. split; [apply NoDup_singleton|].
    intros y ->%list_elem_of_singleton. done.
  - case_decide as Hpx; [done|]. intros Hnr.
    destruct (IH (parent_at p x) (Hrange _ Hx) Hnr) as (l & Hlen & Hnd & Hl).
    specialize (Hh x Hpx).
    exists (x :: l). split; [simpl; lia|]. split.
    + apply NoDup_cons. split; [|done]. intros Hin. apply Hl in Hin. lia.
    + intros y [->|Hin]%elem_of_cons; [done|]. apply Hl in Hin. lia.
Qed.

Lemma root_of_is_root p x : forest p → is_root p (root_of p x).
Proof.
  intros [Hrange [h Hh]]. unfold root_of.
  destruct (decide (x < length p)) as [Hx|Hx].
  - destruct (decide (is_root p (find_root (length p) p x))) as [|Hnr]; [done|].
    destruct (walk_distinct p h (length p) x Hrange Hh Hx Hnr) as (l & Hlen & Hnd & Hl).
    assert (l ⊆+ seq 0 (length p)) as Hsub.
    { apply NoDup_submseteq; [done|]. intros y Hy. apply elem_of_seq.
      apply Hl in Hy. lia. }
    apply submseteq_length in Hsub. rewrite length_seq in Hsub. lia.
  - assert (∀ k, find_root k p x = x) as ->; [|apply is_root_ge; lia].
    intros [|k]; simpl; [done|]. rewrite decide_True; [done|].
    apply parent_at_ge. lia.
Qed.

Lemma root_of_reach p x : forest p → reach p x (root_of p x).
Proof. intros Hf. apply find_root_reach, root_of_is_root, Hf. Qed.

Lemma reach_root_of p x r : forest p → reach p x r → root_of p x = r.
Proof. intros Hf H. eapply reach_det; [by apply root_of_reach | done]. Qed.

Lemma root_of_lt p x : forest p → x < length p → root_of p x < length p.
Proof. intros [Hrange _] Hx. by apply find_root_lt. Qed.

Lemma root_of_root p r : forest p → is_root p r → root_of p r = r.
Proof. intros Hf Hr. apply reach_root_of; [done | by apply reach_root]. Qed.

Lemma root_of_idemp p x : forest p → root_of p (root_of p x) = root_of p x.
Proof. intros Hf. apply root_of_root, root_of_is_root; done. Qed.

Lemma root_of_parent p x : forest p → root_of p (parent_at p x) = root_of p x.
Proof.
  intros Hf. destruct (decide (is_root p x)) as [Hr|Hr]; [by rewrite Hr|].
  symmetry. apply reach_root_of; [done|]. apply reach_step; [done|].
  by apply root_of_reach.
Qed.

Lemma is_root_root_of p x : forest p → is_root p x ↔ root_of p x = x.
Proof.
  intros Hf. split; [by apply root_of_root|].
  intros <-. by apply root_of_is_root.
Qed.
End forest_facts.

Section compression.
Implicit Types (p : list nat) (x y r k : nat).

Lemma compressed_refl p : compressed p p.
Proof. split; [done | by left]. Qed.

Lemma compressed_is_root p p' y :
  forest p → compressed p p' → is_root p' y ↔ is_root p y.
Proof.
  intros Hf [_ Hc]. unfold is_root at 1.
  destruct (Hc y) as [-> | [Hnr ->]]; [done|].
  split; [|done]. intros Hy. rewrite <- Hy. by apply root_of_is_root.
Qed.

Lemma height_le_root p (h : nat → nat) x r :
  (∀ y, ¬ is_root p y → h y < h (parent_at p y)) → reach p x r → h x ≤ h r.
Proof.
  intros Hh. induction 1 as [|x r Hx _ IH]; [done|].
  specialize (Hh x Hx). lia.
Qed.

Lemma compressed_forest p p' : forest p → compressed p p' → forest p'.
Proof.
  intros Hf Hc. pose proof Hf as [Hrange [h Hh]]. pose proof Hc as [Hlen Hpar].
  split.
  - intros y Hy. rewrite Hlen in *.
    destruct (Hpar y) as [-> | [_ ->]]; [by apply Hrange | by apply root_of_lt].
  - exists h. intros y Hy.
    assert (¬ is_root p y) as Hy' by (by rewrite <- (compressed_is_root p p')).
    destruct (Hpar y) as [-> | [_ ->]]; [by apply Hh|].
    pose proof (height_le_root p h (parent_at p y) (root_of p y) Hh) as Hle.
    rewrite <- (root_of_parent p y) in Hle |- * by done.
    specialize (Hle (root_of_reach _ _ Hf)). specialize (Hh y Hy'). lia.
Qed.

Lemma compressed_reach p p' z r :
  forest p → compressed p p' → reach p' z r → reach p z r.
Proof.
  intros Hf Hc. induction 1 as [r Hr | z r Hz _ IH].
  - apply reach_root. by rewrite <- (compressed_is_root p p').
  - assert (¬ is_root p z) as Hz' by (by rewrite <- (compressed_is_root p p')).
    destruct Hc as [_ Hpar].
    destruct (Hpar z) as [Heq | [_ Heq]]; rewrite Heq in IH.
    + by apply reach_step.
    + apply reach_root_inv in IH; [|by apply root_of_is_root].
      subst r. by apply root_of_reach.
Qed.

Lemma compressed_root_of p p' z :
  forest p → compressed p p' → root_of p' z = root_of p z.
Proof.
  intros Hf Hc. symmetry. apply reach_root_of; [done|].
  eapply compressed_reach; [done..|].
  apply root_of_reach. by eapply compressed_forest.
Qed.

Lemma compressed_insert p p' x :
  forest p → compressed p p' → ¬ is_root p x →
  compressed p (<[x := root_of p x]> p').
Proof.
  intros Hf [Hlen Hpar] Hx. split; [by rewrite length_insert|].
  intros y. rewrite parent_at_insert. case_decide as Hy; [|apply Hpar].
  destruct Hy as [-> _]. by right.
Qed.

Lemma find_aux_spec p k x :
  forest p → is_root p (find_root k p x) →
  (find_aux k p x).2 = find_root k p x ∧ compressed p (find_aux k p x).1.
Proof.
  intros Hf. revert x. induction k as [|k IH]; intros x; simpl.
  - intros _. split; [done | apply compressed_refl].
  - destruct (decide (parent_at p x = x)) as [Hx|Hx];
      [intros _; split; [done | apply compressed_refl]|].
    intros Hr. destruct (IH _ Hr) as [Hroot Hc].
    destruct (find_aux k p (parent_at p x)) as [p' r]; simpl in *.
    split; [done|]. subst r.
    assert (find_root k p (parent_at p x) = root_of p x) as ->.
    { rewrite <- (root_of_parent p x) by done. symmetry.
      apply reach_root_of; [done|]. by apply find_root_reach. }
    by apply compressed_insert.
Qed.

Lemma find_spec u x :
  wf u →
  (find u x).2 = root_of (parent u) x ∧
  sizes (find u x).1 = sizes u ∧
  compressed (parent u) (parent (find u x).1).
Proof.
  intros [Hlen Hf]. unfold find.
  destruct (find_aux_spec (parent u) (length (parent u)) x Hf) as [Hr Hc].
  { apply root_of_is_root, Hf. }
  destruct (find_aux _ _ x) as [p' r]; simpl in *. done.
Qed.

Lemma find_wf u x : wf u → wf (find u x).1.
Proof.
  intros Hwf. destruct (find_spec u x Hwf) as (_ & Hs & Hc).
  pose proof Hwf as [Hlen Hf]. split.
  - rewrite Hs, Hlen. symmetry. apply Hc.
  - by eapply compressed_forest.
Qed.

Lemma find_length u x : wf u → length (parent (find u x).1) = length (parent u).
Proof. intros Hwf. destruct (find_spec u x Hwf) as (_ & _ & Hc). apply Hc. Qed.

Lemma find_root_of u x z :
  wf u → root_of (parent (find u x).1) z = root_of (parent u) z.
Proof.
  intros Hwf. destruct (find_spec u x Hwf) as (_ & _ & Hc).
  apply compressed_root_of; [apply Hwf | done].
Qed.
End compression.

Section linking.
Implicit Types (p : list nat) (u : t) (x y z r a b : nat).

Lemma link_forest p ra rb :
  forest p → is_root p rb → ra ≠ rb → rb < length p →
  forest (<[ra := rb]> p).
Proof.
  intros [Hrange [h Hh]] Hrb Hne Hlt. split.
  - intros y. rewrite length_insert, parent_at_insert. intros Hy.
    case_decide; [done | by apply Hrange].
  - exists (λ y, if decide (y = rb) then h rb `max` S (h ra) else h y).
    intros y. unfold is_root. rewrite parent_at_insert.
    destruct (decide (y = ra ∧ ra < length p)) as [[-> _]|Hy].
    + intros _. rewrite decide_False, decide_True by done. lia.
    + intros Hnr. specialize (Hh y Hnr).
      destruct (decide (y = rb)) as [->|]; [done|].
      case_decide as E; [rewrite E in Hh|]; lia.
Qed.

Lemma link_reach p ra rb z r :
  is_root p ra → is_root p rb → ra ≠ rb → ra < length p →
  reach p z r →
  reach (<[ra := rb]> p) z (if decide (r = ra) then rb else r).
Proof.
  intros Hra Hrb Hne Hlt.
  assert (is_root (<[ra := rb]> p) rb) as Hrb'.
  { unfold is_root. rewrite parent_at_insert, decide_False; [done|].
    intros [? _]. by apply Hne. }
  induction 1 as [r Hr | z r Hz _ IH].
  - case_decide as Heq.
    + subst r. apply reach_step.
      * unfold is_root. rewrite parent_at_insert, decide_True; done.
      * rewrite parent_at_insert, decide_True by done. by apply reach_root.
    + apply reach_root. unfold is_root. rewrite parent_at_insert, decide_False; [done|].
      intros [? _]. by apply Heq.
  - assert (z ≠ ra) as Hzra by (intros ->; done).
    assert (parent_at (<[ra := rb]> p) z = parent_at p z) as Hpz.
    { rewrite parent_at_insert, decide_False; [done|]. intros [? _]. done. }
    apply reach_step; [unfold is_root; by rewrite Hpz|].
    by rewrite Hpz.
Qed.

Lemma link_root_of p ra rb z :
  forest p → is_root p ra → is_root p rb → ra ≠ rb →
  ra < length p → rb < length p →
  root_of (<[ra := rb]> p) z =
    if decide (root_of p z = ra) then rb else root_of p z.
Proof.
  intros Hf Hra Hrb Hne Hlta Hltb.
  apply reach_root_of; [by apply link_forest|].
  apply link_reach; [done..|]. by apply root_of_reach.
Qed.

Lemma unite_spec u a b :
  wf u → a < length (parent u) → b < length (parent u) →
  wf (unite u a b) ∧
  length (parent (unite u a b)) = length (parent u) ∧
  sizes (unite u a b) = (merge (root_of (parent u)) (sizes u) a b).2 ∧
  ∀ z, root_of (parent (unite u a b)) z =
       (merge (root_of (parent u)) (sizes u) a b).1 z.
Proof.
  intros Hwf Ha Hb. unfold unite, merge.
  pose proof (find_spec u a Hwf) as (Hra & Hs1 & _).
  pose proof (find_wf u a Hwf) as Hwf1.
  pose proof (find_length u a Hwf) as Hlen1.
  pose proof (find_root_of u a) as Hroot1.
  destruct (find u a) as [u1 ra]; simpl in *.
  pose proof (find_spec u1 b Hwf1) as (Hrb & Hs2 & _).
  pose proof (find_wf u1 b Hwf1) as Hwf2.
  pose proof (find_length u1 b Hwf1) as Hlen2.
  pose proof (find_root_of u1 b) as Hroot2.
  destruct (find u1 b) as [u2 rb]; simpl in *.
  rewrite Hroot1 in Hrb by done.
  assert (∀ z, root_of (parent u2) z = root_of (parent u) z) as Hroot.
  { intros z. rewrite Hroot2, Hroot1; done. }
  rewrite Hs2, Hs1. rewrite <- Hra, <- Hrb.
  destruct Hwf as [HlenS Hf]. destruct Hwf2 as [HlenS2 Hf2].
  assert (length (parent u2) = length (parent u)) as Hlen by congruence.
  assert (is_root (parent u2) ra ∧ ra < length (parent u2)) as [Hrra Hlta].
  { split.
    - apply is_root_root_of; [done|]. rewrite Hroot, Hra. by apply root_of_idemp.
    - rewrite Hlen, Hra. by apply root_of_lt. }
  assert (is_root (parent u2) rb ∧ rb < length (parent u2)) as [Hrrb Hltb].
  { split.
    - apply is_root_root_of; [done|]. rewrite Hroot, Hrb. by apply root_of_idemp.
    - rewrite Hlen, Hrb. by apply root_of_lt. }
  destruct (decide (ra = rb)) as [Heq|Hne]; simpl.
  { split; [by split|]. split; [done|]. split; [congruence | done]. }
  destruct (decide (size_at (sizes u) ra < size_at (sizes u) rb)); simpl.
  - split; [split; simpl; [rewrite !length_insert; congruence | by apply link_forest]|].
    split; [simpl; by rewrite length_insert|]. split; [done|].
    intros z. simpl. rewrite link_root_of by done. by rewrite Hroot.
  - split; [split; simpl; [rewrite !length_insert; congruence | by apply link_forest]|].
    split; [simpl; by rewrite length_insert|]. split; [done|].
    intros z. simpl. rewrite link_root_of by done. by rewrite Hroot.
Qed.

Lemma new_forest n : forest (parent (new n)).
Proof.
  assert (∀ x, is_root (seq 0 n) x) as Hall.
  { intros x. unfold is_root, parent_at.
    destruct (seq 0 n !! x) as [y|] eqn:Hx; [|done].
    apply lookup_seq in Hx. simpl. lia. }
  split; simpl.
  - intros x Hx. by rewrite Hall.
  - exists (λ _, 0). intros x Hx. destruct (Hx (Hall x)).
Qed.

Lemma new_wf n : wf (new n).
Proof. split; [simpl; by rewrite length_replicate, length_seq | apply new_forest]. Qed.

Lemma new_root_of n z : root_of (parent (new n)) z = z.
Proof.
  apply root_of_root; [apply new_forest|].
  unfold is_root, parent_at; simpl.
  destruct (seq 0 n !! z) as [y|] eqn:Hx; [|done].
  apply lookup_seq in Hx. simpl. lia.
Qed.
End linking.

(** *** Counting roots *)

Section counting.
Implicit Types (u : t) (n : nat).

Lemma filter_length_mono {A} (P Q : A → Prop)
    `{!∀ x, Decision (P x)} `{!∀ x, Decision (Q x)} (l : list A) :
  (∀ x, P x → Q x) → length (filter P l) ≤ length (filter Q l).
Proof.
  intros HPQ. induction l as [|x l IH]; [done|].
  rewrite !filter_cons. destruct (decide (P x)) as [HP|HP].
  - rewrite decide_True by auto. simpl. lia.
  - case_decide; simpl; lia.
Qed.
End counting.

Section abstraction.
Implicit Types (p R : list nat) (u : t) (x y z r a b : nat).

Lemma reps_length u : length (reps u) = length (parent u).
Proof. unfold reps. by rewrite length_map, length_seq. Qed.

Lemma reps_lookup u z :
  z < length (parent u) → reps u !! z = Some (root_of (parent u) z).
Proof.
  intros Hz. unfold reps. rewrite list_lookup_fmap, lookup_seq_lt by done. done.
Qed.

Lemma rep_at_reps u x : forest (parent u) → rep_at (reps u) x = root_of (parent u) x.
Proof.
  intros Hf. unfold rep_at. destruct (decide (x < length (parent u))) as [Hx|Hx].
  - by rewrite reps_lookup.
  - rewrite lookup_ge_None_2 by (rewrite reps_length; lia). simpl.
    symmetry. apply root_of_root; [done|]. apply is_root_ge. lia.
Qed.

Lemma reps_ext u u' :
  length (parent u') = length (parent u) →
  (∀ z, root_of (parent u') z = root_of (parent u) z) →
  reps u' = reps u.
Proof.
  intros Hlen Hroot. unfold reps. rewrite Hlen.
  apply map_ext. intros z. apply Hroot.
Qed.

Lemma find_reps u x : wf u → reps (find u x).1 = reps u.
Proof.
  intros Hwf. apply reps_ext; [by apply find_length|].
  intros z. by apply find_root_of.
Qed.

Lemma find_result u x : wf u → (find u x).2 = rep_at (reps u) x.
Proof.
  intros Hwf. rewrite rep_at_reps by apply Hwf. by apply find_spec.
Qed.

Lemma find_sizes u x : wf u → sizes (find u x).1 = sizes u.
Proof. intros Hwf. by apply find_spec. Qed.

Lemma unite_wf u a b :
  wf u → a < length (parent u) → b < length (parent u) → wf (unite u a b).
Proof. intros. by apply unite_spec. Qed.

Lemma unite_length u a b :
  wf u → a < length (parent u) → b < length (parent u) →
  length (parent (unite u a b)) = length (parent u).
Proof. intros. by apply unite_spec. Qed.

Lemma unite_abs u a b :
  wf u → a < length (parent u) → b < length (parent u) →
  (reps (unite u a b), sizes (unite u a b)) = merge_reps (reps u) (sizes u) a b.
Proof.
  intros Hwf Ha Hb.
  destruct (unite_spec u a b Hwf Ha Hb) as (Hwf' & Hlen & Hs & Hroot).
  assert (forest (parent u)) as Hf by apply Hwf.
  rewrite Hs. unfold merge_reps, merge in *. rewrite !rep_at_reps by done.
  assert (∀ c d, (∀ z, root_of (parent (unite u a b)) z =
                       if decide (root_of (parent u) z = c) then d
                       else root_of (parent u) z) →
                 reps (unite u a b) = relabel c d (reps u)) as Hrel.
  { intros c d Hz. unfold relabel, reps. rewrite Hlen, <- list_fmap_compose.
    apply map_ext. intros z. apply Hz. }
  destruct (decide (root_of (parent u) a = root_of (parent u) b)); simpl in *.
  { f_equal. by apply reps_ext. }
  case_decide; simpl in *; f_equal; by apply Hrel.
Qed.

Lemma get_size_spec u x :
  wf u →
  wf (get_size u x).1 ∧
  length (parent (get_size u x).1) = length (parent u) ∧
  reps (get_size u x).1 = reps u ∧
  sizes (get_size u x).1 = sizes u ∧
  (get_size u x).2 = size_at (sizes u) (rep_at (reps u) x).
Proof.
  intros Hwf. unfold get_size.
  pose proof (find_wf u x Hwf). pose proof (find_length u x Hwf).
  pose proof (find_reps u x Hwf). pose proof (find_sizes u x Hwf).
  pose proof (find_result u x Hwf).
  destruct (find u x) as [u' r]; simpl in *. subst r.
  repeat split; try done; try apply H. congruence.
Qed.

Lemma is_root_rep_at u x : wf u → is_root (parent u) x ↔ rep_at (reps u) x = x.
Proof.
  intros [_ Hf]. rewrite rep_at_reps by done. by apply is_root_root_of.
Qed.

Lemma Ncc_abs u n : wf u → Ncc u n = Ncc_reps (reps u) n.
Proof.
  intros Hwf. unfold Ncc, Ncc_reps.
  apply Nat.le_antisymm; apply filter_length_mono; intros i Hi;
    by apply (is_root_rep_at u i Hwf).
Qed.

Lemma new_reps n : reps (new n) = seq 0 n.
Proof.
  unfold reps. simpl. rewrite length_seq.
  trans (map id (seq 0 n)); [|apply map_id].
  apply map_ext. intros z. apply (new_root_of n z).
Qed.
End abstraction.

End UnionFindFacts.

(** * Comparison of doubles *)

Section double_order.

Lemma SFcompare_Lt_swap x y : SFcompare x y = Some Lt → SFcompare y x = Some Gt.
Proof.
  destruct x as [sx|sx| |sx mx ex], y as [sy|sy| |sy my ey]; simpl;
    try destruct sx; try destruct sy; try done;
    change (PosDef.Pos.compare_cont Eq mx my) with (mx ?= my)%positive;
    change (PosDef.Pos.compare_cont Eq my mx) with (my ?= mx)%positive;
    rewrite (Z.compare_antisym ey ex), (Pos.compare_antisym my mx);
    destruct (ey ?= ex)%Z; simpl; try done; by destruct (my ?= mx)%positive.
Qed.

Lemma SFcompare_refl_not_Lt x : SFcompare x x ≠ Some Lt.
Proof.
  destruct x as [sx|sx| |sx mx ex]; simpl; try destruct sx; try done;
    change (PosDef.Pos.compare_cont Eq mx mx) with (mx ?= mx)%positive;
    by rewrite Z.compare_refl, Pos.compare_refl.
Qed.

(** [p < p] is false for every double, NaN included. *)
Lemma ltb_irrefl (p : float) : (p <? p)%float = false.
Proof.
  rewrite ltb_spec. unfold SFltb.
  pose proof (SFcompare_refl_not_Lt (Prim2SF p)).
  by destruct (SFcompare (Prim2SF p) (Prim2SF p)) as [[]|].
Qed.

(** [p < w] excludes [w <= p]. *)
Lemma ltb_leb_false (p w : float) : (p <? w)%float = true → (w <=? p)%float = false.
Proof.
  rewrite ltb_spec, leb_spec. unfold SFltb, SFleb.
  destruct (SFcompare (Prim2SF p) (Prim2SF w)) as [[]|] eqn:E; try done.
  by rewrite (SFcompare_Lt_swap _ _ E).
Qed.

End double_order.

(** * Rounding of double additions *)

Section double_rounding.
Local Open Scope Z_scope.

Lemma digits2_pos_size m : digits2_pos m = Pos.size m.
Proof. induction m; simpl; congruence. Qed.

Lemma D_bounds m : 2 ^ (digits m - 1) ≤ Z.pos m < 2 ^ digits m.
Proof.
  unfold digits. rewrite digits2_pos_size.
  pose proof (Pos.size_gt m) as Hgt. pose proof (Pos.size_le m) as Hle.
  apply Pos2Z.pos_lt_pos in Hgt. apply Pos2Z.pos_le_pos in Hle.
  rewrite Pos2Z.inj_pow in Hgt, Hle.
  split; [|exact Hgt].
  assert (2 ^ Z.pos (Pos.size m) = 2 * 2 ^ (Z.pos (Pos.size m) - 1)) as Hpow.
  { rewrite <- (Z.pow_succ_r 2) by lia. f_equal. lia. }
  change ((2 * 1) ^ Z.pos (Pos.size m)) with (2 ^ Z.pos (Pos.size m)) in Hle.
  lia.
Qed.

Lemma D_pos m : 1 ≤ digits m.
Proof. unfold digits. lia. Qed.

Lemma D_lower m k : 0 ≤ k → 2 ^ k ≤ Z.pos m → k + 1 ≤ digits m.
Proof.
  intros Hk Hm. destruct (D_bounds m) as [_ Hlt]. pose proof (D_pos m).
  destruct (decide (k + 1 ≤ digits m)); [done|].
  assert (2 ^ digits m ≤ 2 ^ k) by (apply Z.pow_le_mono_r; lia). lia.
Qed.

Lemma shr_1_m mrs : 0 ≤ shr_m mrs → shr_m (shr_1 mrs) = shr_m mrs / 2.
Proof.
  destruct mrs as [m r s]. simpl. intros Hm.
  destruct m as [|[p|p|]|p]; simpl; try lia; try reflexivity.
  - apply Z.div_unique with 1; lia.
  - apply Z.div_unique with 0; lia.
Qed.

Lemma iter_shr_1_m n mrs :
  0 ≤ shr_m mrs → shr_m (SpecFloat.iter_pos shr_1 n mrs) = shr_m mrs / 2 ^ Z.pos n.
Proof.
  revert mrs. induction n as [n IH|n IH|]; intros mrs Hm; simpl.
  - assert (0 ≤ shr_m (shr_1 mrs)) as H1 by (rewrite shr_1_m by done; apply Z.div_pos; lia).
    assert (0 ≤ shr_m (SpecFloat.iter_pos shr_1 n (shr_1 mrs))) as H2
      by (rewrite IH by done; apply Z.div_pos; lia).
    rewrite IH, IH, shr_1_m by done.
    rewrite !Z.div_div by lia. f_equal.
    rewrite Pos2Z.inj_xI, <- Z.pow_add_r, <- (Z.pow_succ_r 2) by lia. f_equal. lia.
  - assert (0 ≤ shr_m (SpecFloat.iter_pos shr_1 n mrs)) as H2
      by (rewrite IH by done; apply Z.div_pos; lia).
    rewrite IH, IH by done.
    rewrite !Z.div_div by lia. f_equal.
    rewrite Pos2Z.inj_xO, <- Z.pow_add_r by lia. f_equal. lia.
  - by rewrite shr_1_m.
Qed.

Lemma iter_xO m d : Z.pos (Pos.iter xO m d) = Z.pos m * 2 ^ Z.pos d.
Proof.
  induction d as [|d IH] using Pos.peano_ind.
  - simpl. lia.
  - rewrite Pos.iter_succ, Pos2Z.inj_xO, IH, Pos2Z.inj_succ, Z.pow_succ_r by lia. lia.
Qed.

Lemma shl_align_fst m e e' :
  e' ≤ e → Z.pos (fst (shl_align m e e')) = Z.pos m * 2 ^ (e - e').
Proof.
  intros He. unfold shl_align.
  destruct (e' - e) as [|d|d] eqn:Hd; simpl; try lia.
  - replace (e - e') with 0 by lia. lia.
  - rewrite iter_xO. f_equal. f_equal. lia.
Qed.

Lemma round_nearest_even_ge m l : m ≤ round_nearest_even m l.
Proof. destruct l as [|[]]; simpl; try lia. destruct (Z.even m); lia. Qed.

Lemma fexp64 e : fexp prec emax e = Z.max (e - 53) (-1074).
Proof. reflexivity. Qed.

(** What the shift of [shr_fexp] does to a positive mantissa. *)
Lemma shr_fexp_pos M e l :
  -1074 ≤ e →
  let et := fexp prec emax (digits M + e) in
  let r := shr_fexp prec emax (Z.pos M) e l in
  (et ≤ e ∧ r = (shr_record_of_loc (Z.pos M) l, e)) ∨
  (e < et ∧ snd r = et ∧ shr_m (fst r) = Z.pos M / 2 ^ (et - e) ∧
   2 ^ 52 ≤ shr_m (fst r)).
Proof.
  intros He et r. unfold r, shr_fexp, shr. simpl Zdigits2. fold (digits M). fold et.
  destruct (et - e) as [|n|n] eqn:Hn.
  - left. split; [lia | done].
  - right. simpl. split; [lia|]. split; [lia|].
    assert (shr_m (shr_record_of_loc (Z.pos M) l) = Z.pos M) as Hm
      by (by destruct l as [|[]]).
    rewrite iter_shr_1_m by (rewrite Hm; lia). rewrite Hm. split; [done|].
    assert (et = digits M + e - 53) as Het by (unfold et in *; rewrite fexp64 in *; lia).
    assert (Z.pos n = digits M - 53) as -> by lia.
    destruct (D_bounds M) as [Hlo _].
    assert (2 ^ (digits M - 1) = 2 ^ 52 * 2 ^ (digits M - 53)) as Hsplit.
    { rewrite <- Z.pow_add_r by lia. f_equal. lia. }
    apply Z.div_le_lower_bound; [apply Z.pow_pos_nonneg; lia|]. lia.
  - left. split; [lia | done].
Qed.

Lemma binary_round_aux_pos M e :
  -1074 ≤ e → e ≤ fexp prec emax (digits M + e) →
  binary_round_aux prec emax false (Z.pos M) e loc_Exact = S754_infinity false ∨
  ∃ m e'', binary_round_aux prec emax false (Z.pos M) e loc_Exact = S754_finite false m e'' ∧
           fexp prec emax (digits M + e) ≤ e'' ∧
           (e'' = fexp prec emax (digits M + e) →
            Z.pos M / 2 ^ (fexp prec emax (digits M + e) - e) ≤ Z.pos m).
Proof.
  intros He Het. set (et := fexp prec emax (digits M + e)) in *.
  unfold binary_round_aux.
  destruct (shr_fexp_pos M e loc_Exact He) as [[Hle Hr] | (Hlt & He' & Hm & Hbig)];
    fold et in Hle || fold et in Hlt, He', Hm.
  - assert (et = e) as Heq by lia. rewrite Hr. simpl shr_m. simpl loc_of_shr_record.
    simpl round_nearest_even. rewrite Hr. simpl shr_m.
    destruct (e <=? emax - prec); [right | by left].
    exists M, e. split; [done|]. split; [lia|]. intros _.
    rewrite Heq, Z.sub_diag. simpl. rewrite Z.div_1_r. lia.
  - destruct (shr_fexp prec emax (Z.pos M) e loc_Exact) as [mrs' e'] eqn:Hr.
    simpl in He', Hm, Hbig. subst e'.
    pose proof (round_nearest_even_ge (shr_m mrs') (loc_of_shr_record mrs')) as Hge.
    destruct (round_nearest_even (shr_m mrs') (loc_of_shr_record mrs')) as [|m1|m1] eqn:Hm1;
      try lia.
    assert (-1074 ≤ et) as Het' by lia.
    destruct (shr_fexp_pos m1 et loc_Exact Het') as [[Hle2 Hr2] | (Hlt2 & He2 & Hm2 & Hbig2)].
    + rewrite Hr2. simpl shr_m.
      destruct (et <=? emax - prec); [right | by left].
      exists m1, et. split; [done|]. split; [lia|]. intros _. lia.
    + destruct (shr_fexp prec emax (Z.pos m1) et loc_Exact) as [mrs'' e''] eqn:Hr''.
      simpl in He2, Hm2, Hbig2.
      destruct (shr_m mrs'') as [|m2|m2] eqn:Hm2'; try lia.
      destruct (e'' <=? emax - prec); [right | by left].
      exists m2, e''. split; [done|]. split; [lia|]. intros ->. lia.
Qed.

Lemma valid_finite_canonical s m e :
  valid_binary (S754_finite s m e) = true →
  fexp prec emax (digits m + e) = e ∧ -1074 ≤ e.
Proof.
  simpl. unfold bounded, canonical_mantissa. intros [Hc _]%andb_prop.
  apply Z.eqb_eq in Hc. fold (digits m) in Hc. split; [done|].
  rewrite fexp64 in Hc. lia.
Qed.

(** The sum of two positive finite doubles is [+infinity] or a positive
    finite double that is not below the first operand. *)
Lemma SFadd_pos_finite mx ex my ey :
  valid_binary (S754_finite false mx ex) = true →
  valid_binary (S754_finite false my ey) = true →
  SF64add (S754_finite false mx ex) (S754_finite false my ey) = S754_infinity false ∨
  ∃ m e, SF64add (S754_finite false mx ex) (S754_finite false my ey)
           = S754_finite false m e ∧
         (ex < e ∨ (e = ex ∧ (mx ≤ m)%positive)).
Proof.
  intros [Hcx Hex]%valid_finite_canonical [Hcy Hey]%valid_finite_canonical.
  unfold SF64add, SFadd. cbv zeta. unfold cond_Zopp.
  set (ez := Z.min ex ey).
  assert (ez ≤ ex ∧ ez ≤ ey ∧ -1074 ≤ ez) as (Hzx & Hzy & Hz) by (unfold ez; lia).
  pose proof (shl_align_fst mx ex ez Hzx) as Hmx'.
  pose proof (shl_align_fst my ey ez Hzy) as Hmy'.
  set (mx' := fst (shl_align mx ex ez)) in *.
  set (my' := fst (shl_align my ey ez)) in *.
  change (Z.pos mx' + Z.pos my') with (Z.pos (mx' + my')).
  set (M := (mx' + my')%positive).
  unfold binary_normalize, binary_round. fold (digits M).
  assert (Z.pos mx * 2 ^ (ex - ez) < Z.pos M) as HM by (unfold M; lia).
  (* the target exponent is not below [ex] *)
  assert (ex ≤ fexp prec emax (digits M + ez)) as Het.
  { rewrite <- Hcx at 1. rewrite !fexp64.
    assert (digits mx + (ex - ez) ≤ digits M); [|lia].
    pose proof (D_pos mx). destruct (D_bounds mx) as [Hlo _].
    replace (digits mx + (ex - ez)) with ((digits mx - 1 + (ex - ez)) + 1) by lia.
    apply D_lower; [lia|]. rewrite Z.pow_add_r by lia.
    assert (0 < 2 ^ (ex - ez)) by (apply Z.pow_pos_nonneg; lia). nia. }
  assert (shl_align M ez (fexp prec emax (digits M + ez)) = (M, ez)) as ->.
  { unfold shl_align. destruct (fexp prec emax (digits M + ez) - ez) eqn:Hn; try done. lia. }
  destruct (binary_round_aux_pos M ez Hz) as [Hinf | (m & e & Hr & Hge & Hmant)];
    [lia | by left |].
  right. exists m, e. split; [done|].
  destruct (decide (ex < e)) as [|Hne]; [by left|]. right.
  assert (e = ex) as -> by lia. split; [done|].
  assert (fexp prec emax (digits M + ez) = ex) as Heq by lia.
  specialize (Hmant (eq_sym Heq)). rewrite Heq in Hmant.
  assert (Z.pos mx ≤ Z.pos M / 2 ^ (ex - ez)); [|lia].
  apply Z.div_le_lower_bound; [apply Z.pow_pos_nonneg; lia | lia].
Qed.

Lemma Prim2SF_zero : Prim2SF 0%float = S754_zero false.
Proof. reflexivity. Qed.

(** Adding a positive step to a non-negative double: the sum is
    non-negative, and it either is greater than the double or is the double
    itself (the addition is absorbed). *)
Lemma add_step_order (p step : float) :
  (0 <=? p)%float = true → (0 <? step)%float = true →
  (0 <=? p + step)%float = true ∧
  ((p <? p + step)%float = true ∨ (p + step)%float = p).
Proof.
  rewrite !leb_spec, !ltb_spec, Prim2SF_zero.
  intros Hp Hstep.
  assert ((p + step)%float = p ↔ SF64add (Prim2SF p) (Prim2SF step) = Prim2SF p) as Heq.
  { rewrite <- add_spec. split; [by intros -> | apply Prim2SF_inj]. }
  rewrite Heq, add_spec.
  pose proof (Prim2SF_valid p) as Hvp. pose proof (Prim2SF_valid step) as Hvs.
  destruct (Prim2SF p) as [sp|[]| |[] mx ex]; try done;
    destruct (Prim2SF step) as [ss|[]| |[] my ey]; try done;
    try (split; [done | by left]); try (split; [done | by right]).
  destruct (SFadd_pos_finite mx ex my ey Hvp Hvs) as [-> | (m & e & -> & Hord)].
  { split; [done | by left]. }
  split; [done|]. unfold SFltb, SFcompare.
  destruct Hord as [Hlt | [-> Hle]].
  - left. by rewrite (proj2 (Z.compare_lt_iff ex e) Hlt).
  - rewrite Z.compare_refl.
    change (PosDef.Pos.compare_cont Eq mx m) with (mx ?= m)%positive.
    destruct (mx ?= m)%positive eqn:Hc.
    + right. apply Pos.compare_eq in Hc. by subst.
    + by left.
    + apply Pos.compare_gt_iff in Hc. lia.
Qed.

Lemma binary_round_aux_exact M e :
  fexp prec emax (digits M + e) = e → e ≤ 971 →
  binary_round_aux prec emax false (Z.pos M) e loc_Exact = S754_finite false M e.
Proof.
  intros Hfix He. unfold binary_round_aux.
  assert (shr_fexp prec emax (Z.pos M) e loc_Exact
          = ({| shr_m := Z.pos M; shr_r := false; shr_s := false |}, e)) as Hr.
  { unfold shr_fexp. simpl Zdigits2. fold (digits M). by rewrite Hfix, Z.sub_diag. }
  rewrite Hr. simpl. rewrite Hr. simpl.
  by rewrite (proj2 (Z.leb_le e (emax - prec))).
Qed.

Lemma below_stall_add (p : float) :
  below_stall (Prim2SF p) →
  below_stall (Prim2SF (p + tiny_step)) ∧ (p <=? p_max)%float = true.
Proof.
  intros Hp. rewrite leb_spec, add_spec.
  change (Prim2SF tiny_step) with (S754_finite false 1 (-1074)).
  change (Prim2SF p_max) with (S754_finite false 4503599627820856 (-52)).
  destruct Hp as [-> | [(m & -> & Hm) | ->]].
  - split; [|done]. right; left. exists 1%positive. done.
  - split; [|done].
    destruct (decide (Z.pos m + 1 < 2 ^ 53)) as [Hlt|Hge].
    + right; left. exists (m + 1)%positive. split; [|lia].
      unfold SF64add, SFadd, binary_normalize, binary_round. simpl.
      fold (digits (m + 1)). change ((-1074) `min` (-1074)) with (-1074).
      assert (fexp prec emax (digits (m + 1) + -1074) = -1074) as Hfix.
      { rewrite fexp64. destruct (D_bounds (m + 1)) as [Hlo _].
        pose proof (D_pos (m + 1)).
        assert (digits (m + 1) ≤ 53); [|lia].
        destruct (decide (digits (m + 1) ≤ 53)) as [|Hbig]; [done|].
        assert (2 ^ 53 ≤ 2 ^ (digits (m + 1) - 1)) by (apply Z.pow_le_mono_r; lia). lia. }
      rewrite Hfix. unfold shl_align. simpl. by apply binary_round_aux_exact.
    + right; right. assert (m = (2 ^ 53 - 1)%positive) as -> by lia.
      vm_compute. reflexivity.
  - split; [|done]. right; right. vm_compute. reflexivity.
Qed.

End double_rounding.

(** * Partitions: [merge_reps] on valid representatives *)

Section partitions.
Import UnionFind UnionFindFacts.
Implicit Types (R s : list nat) (x y a b c d : nat).

Lemma rep_at_ge R x : length R ≤ x → rep_at R x = x.
Proof. intros H. unfold rep_at. by rewrite lookup_ge_None_2. Qed.

Lemma rep_at_relabel c d R x :
  rep_at (relabel c d R) x =
    if decide (rep_at R x = c ∧ x < length R) then d else rep_at R x.
Proof.
  unfold rep_at, relabel. rewrite list_lookup_fmap.
  destruct (R !! x) as [r|] eqn:Hx; simpl.
  - apply lookup_lt_Some in Hx.
    destruct (decide (r = c)) as [->|Hne].
    + by rewrite decide_True.
    + rewrite decide_False; [done|]. by intros [? _].
  - apply lookup_ge_None in Hx. rewrite decide_False; [done | lia].
Qed.

Lemma wf_valid_reps u : wf u → valid_reps (reps u) (sizes u).
Proof.
  intros [Hlen Hf]. split; [by rewrite reps_length|]. split.
  - intros x. rewrite reps_length, rep_at_reps by done. by apply root_of_lt.
  - intros x. rewrite !rep_at_reps by done. by apply root_of_idemp.
Qed.

Lemma merge_reps_valid R s a b :
  valid_reps R s → a < length R → b < length R →
  valid_reps (merge_reps R s a b).1 (merge_reps R s a b).2.
Proof.
  intros (Hlen & Hrange & Hidem) Ha Hb. unfold merge_reps.
  assert (∀ c d, rep_at R c = c → rep_at R d = d → c ≠ d → d < length R →
          ∀ v, valid_reps (relabel c d R) (<[d := v]> s)) as Hrel.
  { intros c d Hc Hd Hne Hdlt v.
    assert (length (relabel c d R) = length R) as Hl
      by (unfold relabel; by rewrite length_fmap).
    split; [|split].
    - by rewrite length_insert, Hl.
    - rewrite Hl. intros x Hx.
      rewrite rep_at_relabel. case_decide; [done | by apply Hrange].
    - intros x. rewrite !rep_at_relabel.
      destruct (decide (rep_at R x = c ∧ x < length R)) as [[Hxc Hx]|Hx].
      + rewrite Hd. by case_decide.
      + rewrite Hidem. case_decide as Hy; [|done].
        destruct Hy as [Hy Hlt]. destruct Hx. split; [done|].
        destruct (decide (x < length R)); [done|].
        rewrite rep_at_ge in Hlt by lia. done. }
  case_decide; [done|]. case_decide; simpl; apply Hrel; auto.
Qed.

Lemma merge_reps_length R s a b : length (merge_reps R s a b).1 = length R.
Proof.
  unfold merge_reps, relabel. repeat case_decide; simpl; by rewrite ?length_fmap.
Qed.

(** Elements with one representative keep one representative. *)
Lemma merge_reps_same R s a b x y :
  valid_reps R s → rep_at R x = rep_at R y →
  rep_at (merge_reps R s a b).1 x = rep_at (merge_reps R s a b).1 y.
Proof.
  intros (Hlen & Hrange & Hidem) Hxy. unfold merge_reps.
  assert (∀ c d, rep_at (relabel c d R) x = rep_at (relabel c d R) y) as Hrel.
  { intros c d. rewrite !rep_at_relabel, Hxy.
    destruct (decide (x < length R)) as [Hx|Hx], (decide (y < length R)) as [Hy|Hy];
      repeat case_decide; try done; try naive_solver.
    - rewrite (rep_at_ge R y) in Hxy by lia. specialize (Hrange x Hx). lia.
    - rewrite (rep_at_ge R x) in Hxy by lia. specialize (Hrange y Hy). lia. }
  repeat case_decide; simpl; auto.
Qed.

(** The two arguments of [unite] end with one representative. *)
Lemma merge_reps_joins R s a b :
  valid_reps R s → a < length R → b < length R →
  rep_at (merge_reps R s a b).1 a = rep_at (merge_reps R s a b).1 b.
Proof.
  intros (Hlen & Hrange & Hidem) Ha Hb. unfold merge_reps.
  repeat case_decide; simpl; try done; rewrite !rep_at_relabel;
    repeat case_decide; naive_solver.
Qed.

(** [unite] creates no root. *)
Lemma merge_reps_fixed R s a b i :
  valid_reps R s →
  rep_at (merge_reps R s a b).1 i = i → rep_at R i = i.
Proof.
  intros (Hlen & Hrange & Hidem). unfold merge_reps.
  repeat case_decide; simpl; try done; rewrite rep_at_relabel;
    case_decide; try done; intros <-; apply Hidem.
Qed.

Lemma Ncc_reps_mono R R' n :
  (∀ i, rep_at R' i = i → rep_at R i = i) → Ncc_reps R' n ≤ Ncc_reps R n.
Proof. intros H. unfold Ncc_reps. by apply filter_length_mono. Qed.

End partitions.

(** * The incremental step on well-formed engines *)

Section engine_step.
Import UnionFind UnionFindFacts.
Implicit Types (sp : SitePercolation) (act : list bool) (u aux : UnionFind.t).

Lemma activate_node_spec configuracion p act i :
  i < length act → i < length configuracion →
  ∃ act', activate_node configuracion p act i = Some act' ∧
    length act' = length act ∧
    ∀ j, act' !! j =
      (λ a, if decide (j = i)
            then a || from_option (λ w, (w <=? p)%float) false (configuracion !! j)
            else a) <$> act !! j.
Proof.
  intros Hi Hc. unfold activate_node.
  destruct (lookup_lt_is_Some_2 act i Hi) as [a Ha].
  destruct (lookup_lt_is_Some_2 configuracion i Hc) as [w Hw].
  rewrite Ha, Hw.
  assert (∀ j, j ≠ i → act !! j = (λ a, if decide (j = i)
            then a || from_option (λ w, (w <=? p)%float) false (configuracion !! j)
            else a) <$> act !! j) as Hother.
  { intros j Hj. destruct (act !! j); simpl; [|done]. by rewrite decide_False. }
  destruct a.
  { eexists; split; [done|]. split; [done|]. intros j.
    assert (j = i ∨ j ≠ i) as [->|Hj] by lia; [|by apply Hother].
    rewrite Ha. simpl. by rewrite decide_True. }
  destruct (w <=? p)%float eqn:Hle.
  - eexists; split; [done|]. split; [by rewrite length_insert|]. intros j.
    assert (j = i ∨ j ≠ i) as [->|Hj] by lia.
    + rewrite list_lookup_insert_eq, Ha, Hw by done. simpl.
      by rewrite decide_True, Hle.
    + rewrite list_lookup_insert_ne by done. by apply Hother.
  - eexists; split; [done|]. split; [done|]. intros j.
    assert (j = i ∨ j ≠ i) as [->|Hj] by lia; [|by apply Hother].
    rewrite Ha, Hw. simpl. by rewrite decide_True, Hle.
Qed.

Lemma activate_loop_spec configuracion p l act :
  (∀ i, i ∈ l → i < length act ∧ i < length configuracion) →
  ∃ act', for_each (activate_node configuracion p) l act = Some act' ∧
    length act' = length act ∧
    ∀ j, act' !! j =
      (λ a, if decide (j ∈ l)
            then a || from_option (λ w, (w <=? p)%float) false (configuracion !! j)
            else a) <$> act !! j.
Proof.
  revert act. induction l as [|i l IH]; intros act Hl; simpl.
  - eexists; split; [done|]. split; [done|]. intros j.
    by destruct (act !! j).
  - destruct (Hl i) as [Hi Hc]; [left|].
    destruct (activate_node_spec configuracion p act i Hi Hc) as (act1 & -> & Hlen1 & H1).
    destruct (IH act1) as (act' & -> & Hlen' & H').
    { intros k Hk. rewrite Hlen1. apply Hl. by right. }
    eexists; split; [done|]. split; [congruence|]. intros j.
    rewrite H', H1. destruct (act !! j) as [a|]; simpl; [|done]. f_equal.
    destruct (decide (j = i)) as [->|Hj].
    + rewrite (decide_True (P := i ∈ i :: l)) by left.
      case_decide; [|done]. by destruct a, (from_option _ _ _).
    + destruct (decide (j ∈ l)) as [Hin|Hin].
      * rewrite decide_True; [done | by right].
      * rewrite decide_False; [done|]. by intros [?|?]%elem_of_cons.
Qed.

(** The activation loop never indexes out of bounds on a well-formed engine
    and computes [activation_after]. *)
Lemma activate_all configuracion p act n :
  length act = n → n ≤ length configuracion →
  for_each (activate_node configuracion p) (seq 0 n) act
    = Some (activation_after configuracion p act).
Proof.
  intros Hlen Hc.
  destruct (activate_loop_spec configuracion p (seq 0 n) act) as (act' & -> & Hlen' & H').
  { intros i Hi%elem_of_seq. lia. }
  f_equal. apply list_eq. intros j. unfold activation_after.
  rewrite H', list_lookup_imap. destruct (act !! j) as [a|] eqn:Ha; simpl; [|done].
  rewrite decide_True; [done|]. apply elem_of_seq.
  apply lookup_lt_Some in Ha. lia.
Qed.

Lemma activation_after_length configuracion p act :
  length (activation_after configuracion p act) = length act.
Proof. unfold activation_after. by rewrite length_imap. Qed.

Lemma activation_after_lookup configuracion p act j :
  activation_after configuracion p act !! j =
    (λ a, a || from_option (λ w, (w <=? p)%float) false (configuracion !! j)) <$> act !! j.
Proof. unfold activation_after. by rewrite list_lookup_imap. Qed.

Lemma activation_after_idemp configuracion p act :
  activation_after configuracion p (activation_after configuracion p act)
    = activation_after configuracion p act.
Proof.
  apply list_eq. intros j. rewrite !activation_after_lookup.
  destruct (act !! j) as [a|]; simpl; [|done].
  by destruct a, (from_option _ _ _).
Qed.

Lemma connect_edge_spec act u aux Smax e :
  wf u → wf aux →
  length act ≤ length (parent u) → length act ≤ length (parent aux) →
  e.1 < length act → e.2 < length act →
  ∃ u' aux' Smax',
    connect_edge act (u, aux, Smax) e = Some (u', aux', Smax') ∧
    wf u' ∧ wf aux' ∧
    length (parent u') = length (parent u) ∧
    length (parent aux') = length (parent aux) ∧
    (partition_of u', Smax') = connect_abs act (partition_of u, Smax) e ∧
    aux' = connect_aux act aux e ∧
    partition_of aux' = connect_aux_abs act (partition_of aux) e.
Proof.
  intros Hu Haux Hlu Hla Ha Hb. destruct e as [a b]; simpl in *.
  unfold connect_edge, connect_abs, connect_aux, connect_aux_abs, both_active; simpl.
  destruct (lookup_lt_is_Some_2 act a Ha) as [xa Hxa].
  destruct (lookup_lt_is_Some_2 act b Hb) as [xb Hxb].
  rewrite Hxa, Hxb.
  destruct xa; [destruct xb|];
    try (rewrite !bool_decide_eq_false_2 by (by intros [? ?]);
         eexists _, _, _; split; [done|]; do 6 (split; [done|]); done).
  rewrite bool_decide_eq_true_2 by done.
  assert (a < length (parent u) ∧ b < length (parent u)) as [Hau Hbu] by lia.
  assert (a < length (parent aux) ∧ b < length (parent aux)) as [Haa Hba] by lia.
  pose proof (unite_wf u a b Hu Hau Hbu) as Hwf1.
  pose proof (unite_length u a b Hu Hau Hbu) as Hlen1.
  pose proof (unite_abs u a b Hu Hau Hbu) as Habs1.
  destruct (get_size_spec (unite u a b) a Hwf1) as (Hwf2 & Hlen2 & Hr2 & Hs2 & Hv2).
  destruct (get_size (unite u a b) a) as [u2 s1]; simpl in *.
  destruct (get_size_spec u2 b Hwf2) as (Hwf3 & Hlen3 & Hr3 & Hs3 & Hv3).
  destruct (get_size u2 b) as [u3 s2]; simpl in *.
  eexists _, _, _; split; [done|].
  split; [done|]. split; [by apply unite_wf|].
  split; [congruence|]. split; [by apply unite_length|].
  split; [|split; [done | by apply unite_abs]].
  unfold partition_of. rewrite Hr3, Hs3, Hr2, Hs2.
  destruct (merge_reps (reps u) (sizes u) a b) as [R' sz'] eqn:Hm.
  injection Habs1 as HR Hsz. subst s1 s2. by rewrite Hs2, Hr2, HR, Hsz.
Qed.

Lemma connect_loop_spec act aristas u aux Smax :
  wf u → wf aux →
  length act ≤ length (parent u) → length act ≤ length (parent aux) →
  edges_ok (length act) aristas →
  ∃ u' aux' Smax',
    for_each (connect_edge act) aristas (u, aux, Smax) = Some (u', aux', Smax') ∧
    wf u' ∧ wf aux' ∧
    length (parent u') = length (parent u) ∧
    length (parent aux') = length (parent aux) ∧
    (partition_of u', Smax') = foldl (connect_abs act) (partition_of u, Smax) aristas ∧
    aux' = foldl (connect_aux act) aux aristas ∧
    partition_of aux' = foldl (connect_aux_abs act) (partition_of aux) aristas.
Proof.
  intros Hu Haux Hlu Hla Hok. revert u aux Smax Hu Haux Hlu Hla.
  induction Hok as [|e aristas [He1 He2] _ IH]; intros u aux Smax Hu Haux Hlu Hla;
    cbn [for_each foldl].
  - eexists _, _, _; split; [done|]. do 6 (split; [done|]). done.
  - destruct (connect_edge_spec act u aux Smax e) as
      (u1 & aux1 & Smax1 & -> & Hu1 & Haux1 & Hl1 & Hl1' & Habs & Hc & Habs'); [done..|].
    destruct (IH u1 aux1 Smax1) as
      (u' & aux' & Smax' & -> & Hu' & Haux' & Hl' & Hl'' & Habs2 & Hc2 & Habs2');
      [done | done | lia | lia |].
    eexists _, _, _; split; [done|].
    split; [done|]. split; [done|]. split; [congruence|]. split; [congruence|].
    by rewrite <- Habs, <- Habs', <- Hc.
Qed.
(** On a well-formed engine and in-range inputs, a call that passes the
    ordering check returns, keeps the engine well formed, and is described
    by [step_post]. *)
Lemma step_spec sp aristas configuracion p Smax :
  engine_wf sp → edges_ok (numNodos sp) aristas →
  numNodos sp ≤ length configuracion →
  (p <? current_p sp)%float = false →
  ∃ o, generate_single_percolation sp aristas configuracion p Smax = Some o ∧
       engine_wf (so_engine o) ∧
       step_post sp aristas configuracion p Smax o.
Proof.
  intros (Hu & Haux & Hlu & Hla & Hact & Htop & Hbot) Hok Hconf Hp.
  unfold generate_single_percolation. rewrite Hp.
  rewrite (activate_all configuracion p (nodoActivo sp) (numNodos sp)) by done.
  set (act := activation_after configuracion p (nodoActivo sp)).
  assert (length act = numNodos sp) as Hlact
    by (unfold act; by rewrite activation_after_length).
  destruct (connect_loop_spec act aristas (uf sp) (uf_aux sp) Smax) as
    (u' & aux' & Smax' & -> & Hu' & Haux' & Hl' & Hl'' & Habs & Hc & Habs');
    [done | done | lia | lia | by rewrite Hlact |].
  eexists; split; [done|]. split.
  - split; [done|]. split; [done|]. simpl.
    split; [congruence|]. split; [congruence|]. done.
  - unfold step_post; simpl. fold act.
    do 9 (split; [done|]). split; [by apply Ncc_abs | done].
Qed.

(** The ordering check fails: nothing is touched. *)
Lemma step_error sp aristas configuracion p Smax :
  (p <? current_p sp)%float = true →
  generate_single_percolation sp aristas configuracion p Smax =
    Some (mk_step_out sp Smax (Ncc (uf sp) (numNodos sp)) [order_error]).
Proof. intros Hp. unfold generate_single_percolation. by rewrite Hp. Qed.
End engine_step.

(** * The connection loop on partitions *)

Section connection.
Import UnionFind UnionFindFacts.
Implicit Types (act : list bool) (R s : list nat) (e : Edge).

Lemma leb_ltb_false (p q : float) : (p <=? q)%float = true → (q <? p)%float = false.
Proof.
  rewrite ltb_spec, leb_spec. unfold SFltb, SFleb.
  destruct (SFcompare (Prim2SF q) (Prim2SF p)) as [[]|] eqn:E; try done.
  by rewrite (SFcompare_Lt_swap _ _ E).
Qed.

Lemma connect_abs_valid act R s Smax e :
  valid_reps R s → e.1 < length R → e.2 < length R →
  valid_reps (connect_abs act (R, s, Smax) e).1.1 (connect_abs act (R, s, Smax) e).1.2 ∧
  length (connect_abs act (R, s, Smax) e).1.1 = length R ∧
  ∀ i, rep_at (connect_abs act (R, s, Smax) e).1.1 i = i → rep_at R i = i.
Proof.
  intros Hv H1 H2. unfold connect_abs. simpl.
  destruct (both_active act e); [|done].
  pose proof (merge_reps_valid R s e.1 e.2 Hv H1 H2) as Hv'.
  pose proof (merge_reps_length R s e.1 e.2) as Hl.
  pose proof (merge_reps_fixed R s e.1 e.2) as Hfix.
  destruct (merge_reps R s e.1 e.2) as [R' s']; simpl in *.
  split; [done|]. split; [done|]. intros i. by apply Hfix.
Qed.

Lemma connect_loop_valid act aristas R s Smax :
  valid_reps R s → edges_ok (length R) aristas →
  valid_reps (foldl (connect_abs act) (R, s, Smax) aristas).1.1
             (foldl (connect_abs act) (R, s, Smax) aristas).1.2 ∧
  length (foldl (connect_abs act) (R, s, Smax) aristas).1.1 = length R ∧
  ∀ i, rep_at (foldl (connect_abs act) (R, s, Smax) aristas).1.1 i = i → rep_at R i = i.
Proof.
  intros Hv Hok. revert R s Smax Hv Hok.
  induction aristas as [|e aristas IH]; intros R s Smax Hv Hok; cbn [foldl]; [done|].
  apply Forall_cons in Hok as [[He1 He2] Hok].
  destruct (connect_abs_valid act R s Smax e Hv He1 He2) as (Hv1 & Hl1 & Hfix1).
  destruct (connect_abs act (R, s, Smax) e) as [[R1 s1] Smax1]; simpl in *.
  destruct (IH R1 s1 Smax1 Hv1) as (Hv2 & Hl2 & Hfix2); [by rewrite Hl1|].
  split; [done|]. split; [congruence|]. auto.
Qed.

Lemma size_at_insert s i v x :
  size_at (<[i := v]> s) x = if decide (x = i ∧ i < length s) then v else size_at s x.
Proof.
  unfold size_at. case_decide as H.
  - destruct H as [-> H]. by rewrite list_lookup_insert_eq.
  - assert (x = i ∨ x ≠ i) as [->|Hne] by lia.
    + rewrite list_insert_ge; [done | lia].
    + by rewrite list_lookup_insert_ne.
Qed.

(** After [unite a b] an element either sits in the component of [a] or its
    component has the size it had. *)
Lemma merge_reps_size R s a b x :
  valid_reps R s → a < length R → b < length R →
  rep_at (merge_reps R s a b).1 x = rep_at (merge_reps R s a b).1 a ∨
  size_at (merge_reps R s a b).2 (rep_at (merge_reps R s a b).1 x)
    = size_at s (rep_at R x).
Proof.
  intros (Hlen & Hrange & Hidem) Ha Hb. unfold merge_reps.
  pose proof (Hrange a Ha) as Hra. pose proof (Hrange b Hb) as Hrb.
  case_decide as Heq; simpl; [by right|].
  assert (∀ y, rep_at R x = rep_at R y → y < length R → x < length R) as Hin.
  { intros y Hxy Hy. destruct (decide (x < length R)); [done|].
    rewrite (rep_at_ge R x) in Hxy by lia. specialize (Hrange y Hy). lia. }
  case_decide; simpl; rewrite !rep_at_relabel, !size_at_insert.
  - rewrite (decide_True (P := rep_at R a = rep_at R a ∧ a < length R)) by done.
    destruct (decide (rep_at R x = rep_at R a ∧ x < length R)) as [|Hx]; [by left|].
    destruct (decide (rep_at R x = rep_at R b)) as [Hxb|Hxb]; [by left|].
    right. rewrite decide_False; [done|]. by intros [? _].
  - rewrite (decide_False (P := rep_at R a = rep_at R b ∧ a < length R))
      by (by intros [? _]).
    destruct (decide (rep_at R x = rep_at R b ∧ x < length R)) as [|Hx]; [by left|].
    destruct (decide (rep_at R x = rep_at R a)) as [Hxa|Hxa]; [by left|].
    right. rewrite decide_False; [done|]. by intros [? _].
Qed.

Lemma settled_connect_abs act st e :
  settled act st e → connect_abs act st e = st.
Proof.
  unfold settled, connect_abs. destruct st as [[R s] Smax]; simpl.
  destruct (both_active act e); [|done]. intros [Hrep Hsz]; [done|].
  unfold merge_reps. rewrite decide_True by done. rewrite <- Hrep.
  f_equal. lia.
Qed.

Lemma connect_abs_settles act R s Smax e :
  valid_reps R s → e.1 < length R → e.2 < length R →
  settled act (connect_abs act (R, s, Smax) e) e.
Proof.
  intros Hv H1 H2 Hact. unfold connect_abs. rewrite Hact. simpl.
  pose proof (merge_reps_joins R s e.1 e.2 Hv H1 H2) as Hj.
  destruct (merge_reps R s e.1 e.2) as [R' s']; simpl in *.
  split; [done | lia].
Qed.

Lemma connect_abs_keeps_settled act R s Smax e e' :
  valid_reps R s → e.1 < length R → e.2 < length R →
  settled act (R, s, Smax) e' →
  settled act (connect_abs act (R, s, Smax) e) e'.
Proof.
  intros Hv H1 H2 Hset Hact'. destruct (Hset Hact') as [Hrep Hsz]; simpl in *.
  unfold connect_abs. destruct (both_active act e); [|done]. simpl.
  pose proof (merge_reps_same R s e.1 e.2 e'.1 e'.2 Hv Hrep) as Hsame.
  pose proof (merge_reps_size R s e.1 e.2 e'.1 Hv H1 H2) as Hsize.
  destruct (merge_reps R s e.1 e.2) as [R' s']; simpl in *.
  split; [done|]. destruct Hsize as [-> | ->]; lia.
Qed.

Lemma connect_loop_settles act aristas R s Smax done_ :
  valid_reps R s → edges_ok (length R) aristas →
  Forall (settled act (R, s, Smax)) done_ →
  Forall (settled act (foldl (connect_abs act) (R, s, Smax) aristas)) (done_ ++ aristas).
Proof.
  intros Hv Hok. revert R s Smax done_ Hv Hok.
  induction aristas as [|e aristas IH]; intros R s Smax done_ Hv Hok Hdone; cbn [foldl].
  { by rewrite app_nil_r. }
  apply Forall_cons in Hok as [[He1 He2] Hok].
  destruct (connect_abs_valid act R s Smax e Hv He1 He2) as (Hv1 & Hl1 & _).
  pose proof (connect_abs_settles act R s Smax e Hv He1 He2) as Hnew.
  assert (Forall (settled act (connect_abs act (R, s, Smax) e)) done_) as Hold.
  { eapply Forall_impl; [exact Hdone|]. intros e' He'.
    by apply connect_abs_keeps_settled. }
  destruct (connect_abs act (R, s, Smax) e) as [[R1 s1] Smax1]; simpl in *.
  rewrite (assoc_L (++) done_ [e] aristas : done_ ++ e :: aristas = (done_ ++ [e]) ++ aristas).
  apply IH; [done | by rewrite Hl1 |].
  apply Forall_app. split; [done|]. by apply Forall_singleton.
Qed.

Lemma settled_loop_id act aristas st :
  Forall (settled act st) aristas → foldl (connect_abs act) st aristas = st.
Proof.
  induction 1 as [|e aristas He _ IH]; cbn [foldl]; [done|].
  by rewrite (settled_connect_abs act st e He).
Qed.

(** Running the connection loop a second time over the same edges and the
    same activation changes neither representatives, sizes nor maximum. *)
Lemma connect_loop_idemp act aristas R s Smax :
  valid_reps R s → edges_ok (length R) aristas →
  foldl (connect_abs act) (foldl (connect_abs act) (R, s, Smax) aristas) aristas
    = foldl (connect_abs act) (R, s, Smax) aristas.
Proof.
  intros Hv Hok. apply settled_loop_id.
  by apply (connect_loop_settles act aristas R s Smax [] Hv Hok).
Qed.

(** The auxiliary structure follows the primary one with the maximum dropped. *)
Lemma connect_aux_abs_proj act aristas R s Smax :
  foldl (connect_aux_abs act) (R, s) aristas
    = (foldl (connect_abs act) (R, s, Smax) aristas).1.
Proof.
  revert R s Smax. induction aristas as [|e aristas IH]; intros R s Smax; cbn [foldl]; [done|].
  assert (connect_aux_abs act (R, s) e = (connect_abs act (R, s, Smax) e).1) as Hstep.
  { unfold connect_aux_abs, connect_abs. simpl.
    destruct (both_active act e); [|done]. by destruct (merge_reps R s e.1 e.2). }
  destruct (connect_abs act (R, s, Smax) e) as [[R1 s1] Smax1] eqn:E.
  rewrite Hstep. simpl. apply IH.
Qed.

Lemma connect_aux_loop_idemp act aristas R s :
  valid_reps R s → edges_ok (length R) aristas →
  foldl (connect_aux_abs act) (foldl (connect_aux_abs act) (R, s) aristas) aristas
    = foldl (connect_aux_abs act) (R, s) aristas.
Proof.
  intros Hv Hok. rewrite (connect_aux_abs_proj act aristas R s 0).
  pose proof (connect_loop_idemp act aristas R s 0 Hv Hok) as Hid.
  destruct (foldl (connect_abs act) (R, s, 0%Z) aristas) as [[R1 s1] Smax1]; simpl in *.
  rewrite (connect_aux_abs_proj act aristas R1 s1 Smax1). by rewrite Hid.
Qed.

End connection.

(** * Well-formed engines *)

Section engines.
Import UnionFind UnionFindFacts.

Lemma new_engine_wf n : engine_wf (SitePercolation_new n).
Proof.
  split; [apply new_wf|]. split; [apply new_wf|]. simpl.
  by rewrite !length_seq, length_replicate.
Qed.

(** A sequence of [unite] calls in range keeps the structure well formed,
    keeps what was united, and unites each pair. *)
Lemma unite_all_spec (u : UnionFind.t) (l : list (nat * nat)) :
  wf u → Forall (λ e, e.1 < length (parent u) ∧ e.2 < length (parent u)) l →
  let u' := foldl (λ ua e, unite ua e.1 e.2) u l in
  wf u' ∧ length (parent u') = length (parent u) ∧
  (∀ x y, rep_at (reps u) x = rep_at (reps u) y →
          rep_at (reps u') x = rep_at (reps u') y) ∧
  (∀ e, e ∈ l → rep_at (reps u') e.1 = rep_at (reps u') e.2).
Proof.
  intros Hwf Hl. revert u Hwf Hl.
  induction l as [|e l IH]; intros u Hwf Hl; cbn [foldl].
  { do 3 (split; [done|]). by intros e ?%elem_of_nil. }
  apply Forall_cons in Hl as [[He1 He2] Hl].
  pose proof (unite_wf u e.1 e.2 Hwf He1 He2) as Hwf1.
  pose proof (unite_length u e.1 e.2 Hwf He1 He2) as Hlen1.
  pose proof (unite_abs u e.1 e.2 Hwf He1 He2) as Habs.
  pose proof (wf_valid_reps u Hwf) as Hv.
  assert (reps (unite u e.1 e.2) = (merge_reps (reps u) (sizes u) e.1 e.2).1) as HR
    by (by rewrite <- Habs).
  destruct (IH (unite u e.1 e.2) Hwf1) as (Hwf' & Hlen' & Hkeep & Hjoin).
  { by rewrite Hlen1. }
  split; [done|]. split; [congruence|]. split.
  - intros x y Hxy. apply Hkeep. rewrite HR. by apply merge_reps_same.
  - intros e' [->|Hin]%elem_of_cons; [|by apply Hjoin].
    apply Hkeep. rewrite HR.
    apply merge_reps_joins; [done | by rewrite reps_length..].
Qed.

Lemma supernode_links_spec sp a b :
  (a, b) ∈ supernode_links sp ↔
  ∃ i, i < grid_size (numNodos sp) ∧
       ((a, b) = (superTop sp, i) ∨
        (a, b) = (superBottom sp, numNodos sp - grid_size (numNodos sp) + i)).
Proof.
  unfold supernode_links. rewrite list_elem_of_In, in_flat_map. split.
  - intros (i & Hi%list_elem_of_In%elem_of_seq & Hin%list_elem_of_In).
    exists i. split; [lia|].
    apply elem_of_cons in Hin as [?|Hin]; [by left|].
    apply list_elem_of_singleton in Hin. by right.
  - intros (i & Hi & Hab). exists i. split.
    + apply list_elem_of_In, elem_of_seq. lia.
    + apply list_elem_of_In. destruct Hab as [->| ->]; [left | right; left].
Qed.

Lemma initialize_supernodes_wf sp : engine_wf sp → engine_wf (initialize_supernodes sp).
Proof.
  intros (Hu & Haux & Hlu & Hla & Hact & Htop & Hbot).
  destruct (unite_all_spec (uf_aux sp) (supernode_links sp) Haux) as (Hwf' & Hlen' & _).
  { apply Forall_forall. intros [a b] (i & Hi & Hab)%supernode_links_spec.
    pose proof (Nat.sqrt_le_lin (numNodos sp)). unfold grid_size in *.
    destruct Hab as [Hab|Hab]; injection Hab as -> ->; simpl; lia. }
  unfold initialize_supernodes, engine_wf; simpl.
  do 2 (split; [done|]). split; [done|]. split; [congruence|]. done.
Qed.

(** [has_percolation] compares the representatives of the two terminals; its
    two [find]s may rewrite parent pointers of the auxiliary structure but
    keep its partition, and nothing else is touched. *)
Lemma has_percolation_spec sp :
  wf (uf_aux sp) →
  (has_percolation sp).2
    = bool_decide (rep_at (reps (uf_aux sp)) (superTop sp)
                   = rep_at (reps (uf_aux sp)) (superBottom sp)) ∧
  (has_percolation sp).1 = set_uf_aux sp (uf_aux (has_percolation sp).1) ∧
  wf (uf_aux (has_percolation sp).1) ∧
  length (parent (uf_aux (has_percolation sp).1)) = length (parent (uf_aux sp)) ∧
  partition_of (uf_aux (has_percolation sp).1) = partition_of (uf_aux sp).
Proof.
  intros Hwf. unfold has_percolation.
  pose proof (find_result (uf_aux sp) (superTop sp) Hwf) as Ht.
  pose proof (find_wf (uf_aux sp) (superTop sp) Hwf) as Hwf1.
  pose proof (find_length (uf_aux sp) (superTop sp) Hwf) as Hl1.
  pose proof (find_reps (uf_aux sp) (superTop sp) Hwf) as Hr1.
  pose proof (find_sizes (uf_aux sp) (superTop sp) Hwf) as Hs1.
  destruct (find (uf_aux sp) (superTop sp)) as [a1 t]; simpl in *.
  pose proof (find_result a1 (superBottom sp) Hwf1) as Hb.
  pose proof (find_wf a1 (superBottom sp) Hwf1) as Hwf2.
  pose proof (find_length a1 (superBottom sp) Hwf1) as Hl2.
  pose proof (find_reps a1 (superBottom sp) Hwf1) as Hr2.
  pose proof (find_sizes a1 (superBottom sp) Hwf1) as Hs2.
  destruct (find a1 (superBottom sp)) as [a2 b]; simpl in *.
  split; [by rewrite Ht, Hb, Hr1|]. split; [done|]. split; [done|].
  split; [congruence|]. unfold partition_of. congruence.
Qed.

End engines.

(** * The sweep loop *)

Section sweep_facts.
Import UnionFind UnionFindFacts.
Implicit Types (sp : SitePercolation) (s : sweep_state) (act : list bool).

Lemma connect_loop_same act aristas R sz Smax x y :
  valid_reps R sz → edges_ok (length R) aristas →
  rep_at R x = rep_at R y →
  rep_at (foldl (connect_abs act) (R, sz, Smax) aristas).1.1 x
    = rep_at (foldl (connect_abs act) (R, sz, Smax) aristas).1.1 y.
Proof.
  intros Hv Hok. revert R sz Smax Hv Hok.
  induction aristas as [|e aristas IH]; intros R sz Smax Hv Hok Hxy; cbn [foldl]; [done|].
  apply Forall_cons in Hok as [[He1 He2] Hok].
  destruct (connect_abs_valid act R sz Smax e Hv He1 He2) as (Hv1 & Hl1 & _).
  assert (rep_at (connect_abs act (R, sz, Smax) e).1.1 x
          = rep_at (connect_abs act (R, sz, Smax) e).1.1 y) as Hxy1.
  { unfold connect_abs. simpl. destruct (both_active act e); [|done].
    pose proof (merge_reps_same R sz e.1 e.2 x y Hv Hxy).
    by destruct (merge_reps R sz e.1 e.2). }
  destruct (connect_abs act (R, sz, Smax) e) as [[R1 s1] Smax1]; simpl in *.
  apply IH; [done | by rewrite Hl1 | done].
Qed.

Lemma percolates_spec sp :
  wf (uf_aux sp) →
  percolates sp = bool_decide (rep_at (reps (uf_aux sp)) (superTop sp)
                               = rep_at (reps (uf_aux sp)) (superBottom sp)).
Proof. intros Hwf. unfold percolates. by apply has_percolation_spec. Qed.

(** Any call of the incremental step on a well-formed engine with in-range
    inputs returns, keeps the engine well formed, and never separates what the
    auxiliary structure had united. *)
Lemma step_any sp aristas configuracion p Smax :
  engine_wf sp → edges_ok (numNodos sp) aristas →
  numNodos sp ≤ length configuracion →
  ∃ o, generate_single_percolation sp aristas configuracion p Smax = Some o ∧
       engine_wf (so_engine o) ∧
       numNodos (so_engine o) = numNodos sp ∧
       superTop (so_engine o) = superTop sp ∧
       superBottom (so_engine o) = superBottom sp ∧
       p_c (so_engine o) = p_c sp ∧
       (∀ x y, rep_at (reps (uf_aux sp)) x = rep_at (reps (uf_aux sp)) y →
               rep_at (reps (uf_aux (so_engine o))) x
               = rep_at (reps (uf_aux (so_engine o))) y).
Proof.
  intros Hwf Hok Hconf. destruct (p <? current_p sp)%float eqn:Hp.
  - rewrite (step_error sp aristas configuracion p Smax Hp).
    eexists; split; [done|]. by do 5 (split; [done|]).
  - destruct (step_spec sp aristas configuracion p Smax Hwf Hok Hconf Hp)
      as (o & Hcall & Hwf' & Hpost).
    destruct Hpost as (HN & _ & Ht & Hb & Hpc & _ & _ & _ & Haux & _).
    exists o. do 6 (split; [done|]). intros x y Hxy.
    destruct Hwf as (_ & Hx & _ & Hlx & _).
    unfold partition_of in Haux.
    rewrite (connect_aux_abs_proj _ aristas _ _ 0) in Haux.
    pose proof (connect_loop_same
                  (activation_after configuracion p (nodoActivo sp)) aristas
                  (reps (uf_aux sp)) (sizes (uf_aux sp)) 0 x y) as Hsame.
    rewrite <- Haux in Hsame. simpl in Hsame. apply Hsame; [|  |done].
    + by apply wf_valid_reps.
    + rewrite reps_length, Hlx. eapply Forall_impl; [exact Hok|].
      simpl. intros e. lia.
Qed.

Lemma cluster_roots_spec (u : UnionFind.t) (n : nat) :
  wf u →
  wf (cluster_roots u n).1 ∧
  length (parent (cluster_roots u n).1) = length (parent u) ∧
  partition_of (cluster_roots u n).1 = partition_of u.
Proof.
  unfold cluster_roots.
  set (F := λ (acc : t * list nat) (i : nat),
              let '(u', r) := find acc.1 i in (u', acc.2 ++ [r])).
  assert (∀ l (st : t * list nat), wf st.1 →
            wf (foldl F st l).1 ∧
            length (parent (foldl F st l).1) = length (parent st.1) ∧
            partition_of (foldl F st l).1 = partition_of st.1) as Hgen.
  { induction l as [|i l IH]; intros [v acc] Hwf; cbn [foldl]; [done|].
    simpl in Hwf.
    pose proof (find_wf v i Hwf) as Hwf1.
    pose proof (find_length v i Hwf) as Hl1.
    pose proof (find_reps v i Hwf) as Hr1.
    pose proof (find_sizes v i Hwf) as Hs1.
    unfold F at 2 4 6. simpl. destruct (find v i) as [u1 r]; simpl in *.
    destruct (IH (u1, acc ++ [r]) Hwf1) as (Hwf' & Hl' & Hp'). simpl in *.
    split; [done|]. split; [congruence|].
    rewrite Hp'. unfold partition_of. congruence. }
  intros Hwf. apply (Hgen (seq 0 n) (u, [])). done.
Qed.

Lemma engine_wf_set_uf sp (u : UnionFind.t) :
  engine_wf sp → wf u → length (parent u) = length (parent (uf sp)) →
  engine_wf (set_uf sp u).
Proof.
  intros (Hu & Haux & Hlu & Hla & Hact & Htop & Hbot) Hwf Hlen.
  unfold engine_wf; simpl. split; [done|]. split; [done|]. split; [congruence|]. done.
Qed.

Lemma engine_wf_set_p_c sp p : engine_wf sp → engine_wf (set_p_c sp p).
Proof. by intros (Hu & Haux & Hlu & Hla & Hact & Htop & Hbot). Qed.

Lemma has_percolation_wf sp : engine_wf sp → engine_wf (has_percolation sp).1.
Proof.
  intros (Hu & Haux & Hlu & Hla & Hact & Htop & Hbot).
  destruct (has_percolation_spec sp Haux) as (_ & Hset & Hwf' & Hlen' & _).
  rewrite Hset. unfold engine_wf; simpl.
  split; [done|]. split; [done|]. split; [done|]. split; [congruence|]. done.
Qed.

Lemma percolates_same_aux sp sp' :
  wf (uf_aux sp) → wf (uf_aux sp') →
  reps (uf_aux sp') = reps (uf_aux sp) →
  superTop sp' = superTop sp → superBottom sp' = superBottom sp →
  percolates sp' = percolates sp.
Proof.
  intros Hwf Hwf' HR Ht Hb. rewrite !percolates_spec by done. by rewrite HR, Ht, Hb.
Qed.

Lemma write_files_spec visualization s sp (r : record) :
  engine_wf sp →
  let sp1 := (write_files visualization s sp r).1.1 in
  engine_wf sp1 ∧ sp1 = set_uf sp (uf sp1) ∧
  partition_of (uf sp1) = partition_of (uf sp).
Proof.
  intros Hwf. unfold write_files. destruct visualization; simpl; [|by destruct sp].
  destruct (cluster_roots_spec (uf sp) (numNodos sp)) as (Hw & Hl & Hp); [apply Hwf|].
  destruct (cluster_roots (uf sp) (numNodos sp)) as [u' roots]; simpl in *.
  split; [by apply engine_wf_set_uf|]. done.
Qed.

Lemma check_percolation_spec s sp p :
  engine_wf sp →
  let sp2 := (check_percolation s sp p).1.1 in
  let flag := (check_percolation s sp p).1.2 in
  engine_wf sp2 ∧
  uf sp2 = uf sp ∧ numNodos sp2 = numNodos sp ∧
  nodoActivo sp2 = nodoActivo sp ∧ current_p sp2 = current_p sp ∧
  superTop sp2 = superTop sp ∧ superBottom sp2 = superBottom sp ∧
  partition_of (uf_aux sp2) = partition_of (uf_aux sp) ∧
  percolates sp2 = percolates sp ∧
  (sw_percolation s = true → flag = true ∧ sp2 = sp) ∧
  (sw_percolation s = false →
     flag = percolates sp ∧
     p_c sp2 = if percolates sp then Some p else p_c sp).
Proof.
  intros Hwf. unfold check_percolation.
  destruct (sw_percolation s) eqn:Hflag; simpl.
  { do 9 (split; [done|]). split; [done|]. by intros. }
  pose proof Hwf as (_ & Hauxwf & _).
  destruct (has_percolation_spec sp Hauxwf) as (Hres & Hset & Hwf3 & Hlen3 & Hpart3).
  pose proof (has_percolation_wf sp Hwf) as Hwf4.
  assert (percolates (has_percolation sp).1 = percolates sp) as Hperc.
  { injection Hpart3 as HR HS. apply percolates_same_aux; try done; by rewrite Hset. }
  assert (∀ q, percolates (set_p_c (has_percolation sp).1 q)
               = percolates (has_percolation sp).1) as Hpc.
  { intros q. unfold percolates, has_percolation. simpl.
    destruct (find _ _) as [a1 t]. by destruct (find a1 _). }
  assert (uf (has_percolation sp).1 = uf sp ∧
          numNodos (has_percolation sp).1 = numNodos sp ∧
          nodoActivo (has_percolation sp).1 = nodoActivo sp ∧
          current_p (has_percolation sp).1 = current_p sp ∧
          superTop (has_percolation sp).1 = superTop sp ∧
          superBottom (has_percolation sp).1 = superBottom sp ∧
          p_c (has_percolation sp).1 = p_c sp)
    as (Hf1 & Hf2 & Hf3 & Hf4 & Hf5 & Hf6 & Hf7) by (by rewrite Hset).
  assert ((has_percolation sp).2 = percolates sp) as Hbval by done.
  clear Hres Hset.
  destruct (has_percolation sp) as [sp' b]; simpl in *.
  rewrite <- Hbval.
  destruct b; simpl.
  - split; [by apply engine_wf_set_p_c|].
    do 7 (split; [done|]). split; [by rewrite Hpc, Hperc|]. split; [done|]. done.
  - split; [done|].
    do 7 (split; [done|]). split; [by rewrite Hperc|]. split; [done|]. done.
Qed.

(** One iteration of the sweep on a well-formed engine: it runs the
    incremental step once at the current [p], appends the record built from
    what the step returned, advances [p] by [step], keeps percolation once
    reached, and writes [p_c] only when the flag was still down. *)
Lemma sweep_body_spec aristas configuracion step visualization s :
  engine_wf (sw_engine s) → edges_ok (numNodos (sw_engine s)) aristas →
  numNodos (sw_engine s) ≤ length configuracion →
  ∃ s' o,
    sweep_body aristas configuracion step visualization s = Some s' ∧
    generate_single_percolation (sw_engine s) aristas configuracion (sw_p s) (sw_Smax s)
      = Some o ∧
    engine_wf (sw_engine s') ∧
    numNodos (sw_engine s') = numNodos (sw_engine s) ∧
    sw_p s' = (sw_p s + step)%float ∧
    sw_Smax s' = so_Smax o ∧
    resultados s' = resultados s ++
      [(sw_p s, so_ret o, so_Smax o,
        (double_of_int (so_Smax o)
         / double_of_int (Z.of_nat (numNodos (sw_engine s))))%float)] ∧
    (percolates (sw_engine s) = true → percolates (sw_engine s') = true) ∧
    (sw_percolation s = true →
       sw_percolation s' = true ∧ p_c (sw_engine s') = p_c (sw_engine s)) ∧
    (sw_percolation s = false →
       sw_percolation s' = percolates (sw_engine s') ∧
       p_c (sw_engine s') =
         if percolates (sw_engine s') then Some (sw_p s) else p_c (sw_engine s)).
Proof.
  intros Hwf Hok Hconf.
  destruct (step_any (sw_engine s) aristas configuracion (sw_p s) (sw_Smax s)
              Hwf Hok Hconf) as (o & Hcall & Hwf1 & HN & Ht & Hb & Hpc & Hkeep).
  unfold sweep_body. rewrite Hcall.
  set (r := (sw_p s, so_ret o, so_Smax o,
             (double_of_int (so_Smax o)
              / double_of_int (Z.of_nat (numNodos (so_engine o))))%float) : record).
  destruct (write_files_spec visualization s (so_engine o) r Hwf1) as (Hwf2 & Hset2 & _).
  destruct (write_files visualization s (so_engine o) r) as [[sp1 report] clusters].
  simpl in Hwf2, Hset2.
  destruct (check_percolation_spec s sp1 (sw_p s) Hwf2)
    as (Hwf3 & _ & HN3 & _ & _ & _ & _ & _ & Hperc3 & Hup & Hdown).
  destruct (check_percolation s sp1 (sw_p s)) as [[sp2 flag] cout]. simpl in *.
  pose proof Hwf as (_ & Hauxwf & _). pose proof Hwf1 as (_ & Hauxwf1 & _).
  pose proof Hwf2 as (_ & Hauxwf2 & _).
  assert (percolates sp1 = percolates (so_engine o)) as Hperc1.
  { apply percolates_same_aux; try done; by rewrite Hset2. }
  assert (p_c sp1 = p_c (sw_engine s) ∧ numNodos sp1 = numNodos (sw_engine s))
    as [Hpc1 HN1] by (rewrite Hset2; simpl; split; congruence).
  eexists _, o. split; [done|]. split; [done|]. simpl.
  split; [done|]. split; [congruence|]. split; [done|]. split; [done|].
  split; [unfold r; by rewrite HN|].
  split.
  { rewrite Hperc3, Hperc1, !percolates_spec by done. rewrite Ht, Hb.
    intros Heq%bool_decide_eq_true. apply bool_decide_eq_true. by apply Hkeep. }
  split.
  - intros Hflag. destruct (Hup Hflag) as [-> ->]. done.
  - intros Hflag. destruct (Hdown Hflag) as [-> ->].
    by rewrite Hperc3, Hpc1.
Qed.


Lemma sweep_iterations_add i j aristas configuracion step visualization s :
  sweep_iterations (i + j) aristas configuracion step visualization s =
    match sweep_iterations i aristas configuracion step visualization s with
    | Some si => sweep_iterations j aristas configuracion step visualization si
    | None => None
    end.
Proof.
  revert s. induction i as [|i IH]; intros s; simpl; [done|].
  destruct (sweep_body _ _ _ _ s) as [s1|]; [apply IH | done].
Qed.

Lemma sweep_iterations_succ n aristas configuracion step visualization s :
  sweep_iterations (S n) aristas configuracion step visualization s =
    match sweep_iterations n aristas configuracion step visualization s with
    | Some sn => sweep_body aristas configuracion step visualization sn
    | None => None
    end.
Proof.
  replace (S n) with (n + 1) by lia. rewrite sweep_iterations_add.
  destruct (sweep_iterations n _ _ _ _ s) as [sn|]; [|done]. simpl.
  by destruct (sweep_body _ _ _ _ sn).
Qed.

(** Every number of iterations is defined on a well-formed engine, and along
    them the engine stays well formed, percolation stays, and a raised flag
    freezes [p_c]. *)
Lemma sweep_iterations_inv n aristas configuracion step visualization s :
  engine_wf (sw_engine s) → edges_ok (numNodos (sw_engine s)) aristas →
  numNodos (sw_engine s) ≤ length configuracion →
  ∃ s', sweep_iterations n aristas configuracion step visualization s = Some s' ∧
    engine_wf (sw_engine s') ∧
    numNodos (sw_engine s') = numNodos (sw_engine s) ∧
    sw_p s' = Nat.iter n (λ p, (p + step)%float) (sw_p s) ∧
    length (resultados s') = length (resultados s) + n ∧
    (percolates (sw_engine s) = true → percolates (sw_engine s') = true) ∧
    (sw_percolation s = true →
       sw_percolation s' = true ∧ p_c (sw_engine s') = p_c (sw_engine s)).
Proof.
  intros Hwf Hok Hconf. induction n as [|n IH].
  { exists s. simpl. split; [done|]. do 3 (split; [done|]). split; [lia | done]. }
  destruct IH as (sn & Hn & Hwfn & HNn & Hpn & Hln & Hpercn & Hflagn).
  destruct (sweep_body_spec aristas configuracion step visualization sn)
    as (s' & o & Hbody & _ & Hwf' & HN' & Hp' & _ & Hres' & Hperc' & Hup' & _);
    [done | by rewrite HNn | by rewrite HNn |].
  exists s'. rewrite sweep_iterations_succ, Hn.
  split; [done|]. split; [done|]. split; [congruence|].
  split; [simpl; by rewrite Hp', Hpn|].
  split; [rewrite Hres', length_app; simpl; lia|].
  split; [auto|].
  intros Hflag. destruct (Hflagn Hflag) as [Hf Hpc].
  destruct (Hup' Hf) as [Hf' Hpc']. split; [done | congruence].
Qed.

(** While no iteration has seen percolation, the flag stays down and [p_c]
    is not written. *)
Lemma sweep_flag_down n aristas configuracion step visualization s sn :
  engine_wf (sw_engine s) → edges_ok (numNodos (sw_engine s)) aristas →
  numNodos (sw_engine s) ≤ length configuracion →
  sw_percolation s = false →
  sweep_iterations n aristas configuracion step visualization s = Some sn →
  (∀ i si, 1 ≤ i ≤ n →
     sweep_iterations i aristas configuracion step visualization s = Some si →
     percolates (sw_engine si) = false) →
  sw_percolation sn = false ∧ p_c (sw_engine sn) = p_c (sw_engine s).
Proof.
  intros Hwf Hok Hconf Hflag. revert sn. induction n as [|n IH]; intros sn Hn Hnone.
  { simpl in Hn. by injection Hn as <-. }
  rewrite sweep_iterations_succ in Hn.
  destruct (sweep_iterations_inv n aristas configuracion step visualization s Hwf Hok Hconf)
    as (sm & Hm & Hwfm & HNm & _).
  rewrite Hm in Hn.
  destruct (IH sm Hm) as [Hflagm Hpcm].
  { intros i si Hi. apply Hnone. lia. }
  destruct (sweep_body_spec aristas configuracion step visualization sm)
    as (s' & o & Hbody & _ & _ & _ & _ & _ & _ & _ & _ & Hdown);
    [done | by rewrite HNm | by rewrite HNm |].
  rewrite Hbody in Hn. injection Hn as ->.
  destruct (Hdown Hflagm) as [Hf Hpc].
  assert (percolates (sw_engine sn) = false) as Hno.
  { apply (Hnone (S n) sn); [lia|]. by rewrite sweep_iterations_succ, Hm. }
  rewrite Hno in Hf, Hpc. split; [done | congruence].
Qed.

(** A sweep that returns has run some number of iterations, each entered
    with the loop condition true, and stopped at the first state where the
    condition fails. *)
Lemma sweep_loop_returns fuel aristas configuracion step visualization s s' :
  sweep_loop fuel aristas configuracion step visualization s = Returns s' →
  ∃ n, n < fuel ∧
    sweep_iterations n aristas configuracion step visualization s = Some s' ∧
    (sw_p s' <=? p_max)%float = false ∧
    ∀ k sk, k < n →
      sweep_iterations k aristas configuracion step visualization s = Some sk →
      (sw_p sk <=? p_max)%float = true.
Proof.
  revert s. induction fuel as [|fuel IH]; intros s; simpl; [done|].
  destruct (sw_p s <=? p_max)%float eqn:Hguard.
  - destruct (sweep_body aristas configuracion step visualization s) as [s1|] eqn:Hbody;
      [|done].
    intros (n & Hn & Hit & Hstop & Hgo)%IH.
    exists (S n). split; [lia|]. simpl. rewrite Hbody. split; [done|]. split; [done|].
    intros [|k] sk Hk; simpl.
    + by intros [= <-].
    + rewrite Hbody. apply Hgo. lia.
  - intros [= <-]. exists 0. split; [lia|]. split; [done|]. split; [done|]. lia.
Qed.

(** Conversely, enough fuel lets the loop reach the first state where the
    condition fails. *)
Lemma sweep_loop_enough n aristas configuracion step visualization s s' :
  sweep_iterations n aristas configuracion step visualization s = Some s' →
  (sw_p s' <=? p_max)%float = false →
  (∀ k sk, k < n →
     sweep_iterations k aristas configuracion step visualization s = Some sk →
     (sw_p sk <=? p_max)%float = true) →
  ∀ fuel, n < fuel →
    sweep_loop fuel aristas configuracion step visualization s = Returns s'.
Proof.
  revert s. induction n as [|n IH]; intros s Hit Hstop Hgo fuel Hfuel.
  - simpl in Hit. injection Hit as <-.
    destruct fuel as [|fuel]; [lia|]. simpl. by rewrite Hstop.
  - destruct fuel as [|fuel]; [lia|]. simpl.
    rewrite (Hgo 0 s) by (done || lia). simpl in Hit.
    destruct (sweep_body aristas configuracion step visualization s) as [s1|] eqn:Hbody;
      [|done].
    apply IH; [done | done | | lia].
    intros k sk Hk Hsk. apply (Hgo (S k) sk); [lia|]. simpl. by rewrite Hbody.
Qed.

Lemma sweep_init_wf sp visualization :
  engine_wf sp →
  engine_wf (sw_engine (sweep_init sp visualization)) ∧
  numNodos (sw_engine (sweep_init sp visualization)) = numNodos sp.
Proof. intros Hwf. split; [by apply initialize_supernodes_wf | done]. Qed.


(** *** Two sweeps that differ in the [visualization] flag *)



Lemma write_files_engine visualization s sp (r : record) :
  uf_aux (write_files visualization s sp r).1.1 = uf_aux sp ∧
  numNodos (write_files visualization s sp r).1.1 = numNodos sp ∧
  current_p (write_files visualization s sp r).1.1 = current_p sp ∧
  nodoActivo (write_files visualization s sp r).1.1 = nodoActivo sp ∧
  superTop (write_files visualization s sp r).1.1 = superTop sp ∧
  superBottom (write_files visualization s sp r).1.1 = superBottom sp ∧
  p_c (write_files visualization s sp r).1.1 = p_c sp.
Proof.
  unfold write_files. destruct visualization; [|done].
  by destruct (cluster_roots (uf sp) (numNodos sp)).
Qed.







(** *** The thresholds of the sweep *)

Lemma threshold_iter step k :
  threshold step k = Nat.iter k (λ p, (p + step)%float) 0%float.
Proof. induction k as [|k IH]; simpl; [done | by rewrite IH]. Qed.

Lemma threshold_nonneg step k :
  (0 <? step)%float = true → (0 <=? threshold step k)%float = true.
Proof.
  intros Hstep. induction k as [|k IH]; simpl; [done|].
  by apply add_step_order.
Qed.

(** Once an addition is absorbed the loop variable no longer moves. *)
Lemma threshold_stall step k j :
  threshold step (S k) = threshold step k → k ≤ j →
  threshold step j = threshold step k.
Proof.
  intros Hstall Hkj. induction Hkj as [|j Hkj IH]; [done|].
  simpl in *. by rewrite IH.
Qed.

(** Before the loop stops, every addition of a positive step moves the loop
    variable strictly up. *)
Lemma threshold_increasing step k m :
  (0 <? step)%float = true → k < m →
  (threshold step k <=? p_max)%float = true →
  (threshold step m <=? p_max)%float = false →
  (threshold step k <? threshold step (S k))%float = true.
Proof.
  intros Hstep Hkm Hk Hm.
  destruct (add_step_order (threshold step k) step) as [_ [Hlt | Hstall]];
    [by apply threshold_nonneg | done | done |].
  rewrite (threshold_stall step k m) in Hm by (done || lia). congruence.
Qed.

Lemma first_false (P : nat → bool) n :
  P n = false → ∃ m, m ≤ n ∧ P m = false ∧ ∀ k, k < m → P k = true.
Proof.
  induction n as [n IH] using lt_wf_ind. intros Hn.
  destruct (decide (Forall (λ k, P k = true) (seq 0 n))) as [Hall | Hex].
  - exists n. split; [done|]. split; [done|]. intros k Hk.
    rewrite Forall_forall in Hall. apply Hall, elem_of_seq. lia.
  - apply not_Forall_Exists in Hex; [|apply _].
    apply Exists_exists in Hex as (k & Hk%elem_of_seq & HPk).
    apply not_true_is_false in HPk.
    destruct (IH k) as (m & Hm & HPm & Hbefore); [lia | done |].
    exists m. split; [lia | done].
Qed.

Lemma sweep_iterations_prefix j aristas configuracion step visualization s s' :
  engine_wf (sw_engine s) → edges_ok (numNodos (sw_engine s)) aristas →
  numNodos (sw_engine s) ≤ length configuracion →
  sweep_iterations j aristas configuracion step visualization s = Some s' →
  resultados s `prefix_of` resultados s'.
Proof.
  intros Hwf Hok Hconf. revert s'. induction j as [|j IH]; intros s' Hj.
  { simpl in Hj. by injection Hj as <-. }
  rewrite sweep_iterations_succ in Hj.
  destruct (sweep_iterations_inv j aristas configuracion step visualization s Hwf Hok Hconf)
    as (sj & Hsj & Hwfj & HNj & _).
  rewrite Hsj in Hj.
  destruct (sweep_body_spec aristas configuracion step visualization sj)
    as (t & o & Hbody & _ & _ & _ & _ & _ & Hres & _);
    [done | by rewrite HNj | by rewrite HNj |].
  rewrite Hbody in Hj. injection Hj as <-.
  etrans; [by apply IH|]. rewrite Hres. by apply prefix_app_r.
Qed.

(** The record of iteration [k] is the one appended by that iteration: the
    threshold of the iteration and what the incremental step returned. *)
Lemma sweep_record k m aristas configuracion step visualization s sk sm :
  engine_wf (sw_engine s) → edges_ok (numNodos (sw_engine s)) aristas →
  numNodos (sw_engine s) ≤ length configuracion →
  k < m →
  sweep_iterations k aristas configuracion step visualization s = Some sk →
  sweep_iterations m aristas configuracion step visualization s = Some sm →
  ∃ o, generate_single_percolation (sw_engine sk) aristas configuracion
         (sw_p sk) (sw_Smax sk) = Some o ∧
       resultados sm !! (length (resultados s) + k) =
         Some (sw_p sk, so_ret o, so_Smax o,
               (double_of_int (so_Smax o)
                / double_of_int (Z.of_nat (numNodos (sw_engine s))))%float).
Proof.
  intros Hwf Hok Hconf Hkm Hk Hm.
  destruct (sweep_iterations_inv k aristas configuracion step visualization s Hwf Hok Hconf)
    as (sk' & Hk' & Hwfk & HNk & _ & Hlenk & _).
  rewrite Hk in Hk'. injection Hk' as <-.
  destruct (sweep_body_spec aristas configuracion step visualization sk)
    as (t & o & Hbody & Hcall & Hwft & HNt & _ & _ & Hres & _);
    [done | by rewrite HNk | by rewrite HNk |].
  exists o. split; [done|].
  replace m with (S k + (m - S k)) in Hm by lia.
  rewrite sweep_iterations_add, sweep_iterations_succ, Hk, Hbody in Hm.
  apply sweep_iterations_prefix in Hm as [l Hl];
    [| done | by rewrite HNt, HNk | by rewrite HNt, HNk].
  rewrite Hl, Hres, <- (assoc_L (++)), HNk.
  apply list_lookup_middle. symmetry. exact Hlenk.
Qed.

(** With the smallest positive double as step the loop variable never
    leaves the interval: the sweep does not return. *)
Lemma sweep_loop_tiny_step fuel aristas configuracion visualization s :
  engine_wf (sw_engine s) → edges_ok (numNodos (sw_engine s)) aristas →
  numNodos (sw_engine s) ≤ length configuracion →
  below_stall (Prim2SF (sw_p s)) →
  sweep_loop fuel aristas configuracion tiny_step visualization s = OutOfFuel.
Proof.
  revert s. induction fuel as [|fuel IH]; intros s Hwf Hok Hconf Hp; simpl; [done|].
  destruct (below_stall_add (sw_p s) Hp) as [Hnext ->].
  destruct (sweep_body_spec aristas configuracion tiny_step visualization s Hwf Hok Hconf)
    as (t & o & -> & _ & Hwft & HNt & Hpt & _).
  apply IH; [done | by rewrite HNt | by rewrite HNt | by rewrite Hpt].
Qed.


(** *** Component counts along a sweep *)

(** Any call of the incremental step returns the number of components it
    leaves, which is at most the number it found. *)
Lemma step_count sp aristas configuracion p Smax o :
  engine_wf sp → edges_ok (numNodos sp) aristas →
  numNodos sp ≤ length configuracion →
  generate_single_percolation sp aristas configuracion p Smax = Some o →
  so_ret o = components (so_engine o) ∧ so_ret o ≤ components sp.
Proof.
  intros Hwf Hok Hconf Hcall. unfold components.
  destruct (p <? current_p sp)%float eqn:Hp.
  - rewrite (step_error sp aristas configuracion p Smax Hp) in Hcall.
    injection Hcall as <-. simpl. rewrite Ncc_abs by apply Hwf. done.
  - destruct (step_spec sp aristas configuracion p Smax Hwf Hok Hconf Hp)
      as (o' & Hcall' & Hwf' & Hpost).
    rewrite Hcall in Hcall'. injection Hcall' as <-.
    destruct Hpost as (HN & _ & _ & _ & _ & _ & Hpart & _ & _ & Hret & _).
    rewrite Hret, HN. split; [done|]. apply Ncc_reps_mono.
    destruct Hwf as (Hu & _ & Hl & _).
    destruct (connect_loop_valid
                (activation_after configuracion p (nodoActivo sp))
                aristas (reps (uf sp)) (sizes (uf sp)) Smax) as (_ & _ & Hfix).
    { by apply wf_valid_reps. }
    { by rewrite reps_length, Hl. }
    unfold partition_of in Hpart. rewrite <- Hpart in Hfix. exact Hfix.
Qed.

(** An iteration of the sweep appends a record whose count is the number of
    components it leaves, at most the number it found. *)
Lemma sweep_body_count aristas configuracion step visualization s s' :
  engine_wf (sw_engine s) → edges_ok (numNodos (sw_engine s)) aristas →
  numNodos (sw_engine s) ≤ length configuracion →
  sweep_body aristas configuracion step visualization s = Some s' →
  ∃ r, resultados s' = resultados s ++ [r] ∧
       record_count r = components (sw_engine s') ∧
       record_count r ≤ components (sw_engine s).
Proof.
  intros Hwf Hok Hconf Hbody.
  destruct (step_any (sw_engine s) aristas configuracion (sw_p s) (sw_Smax s)
              Hwf Hok Hconf) as (o & Hcall & Hwf1 & HN & _).
  destruct (step_count _ _ _ _ _ o Hwf Hok Hconf Hcall) as [Hret Hle].
  unfold sweep_body in Hbody. rewrite Hcall in Hbody.
  set (r := (sw_p s, so_ret o, so_Smax o,
             (double_of_int (so_Smax o)
              / double_of_int (Z.of_nat (numNodos (so_engine o))))%float) : record) in *.
  destruct (write_files_spec visualization s (so_engine o) r Hwf1) as (Hwf2 & Hset2 & Hpart2).
  destruct (write_files visualization s (so_engine o) r) as [[sp1 report] clusters].
  simpl in Hwf2, Hset2, Hpart2.
  destruct (check_percolation_spec s sp1 (sw_p s) Hwf2) as (_ & Huf3 & HN3 & _).
  destruct (check_percolation s sp1 (sw_p s)) as [[sp2 flag] cout]. simpl in *.
  injection Hbody as <-. simpl. exists r. split; [done|].
  unfold record_count, r. simpl. split; [|done].
  rewrite Hret. unfold components. rewrite Huf3, HN3.
  injection Hpart2 as -> _. by rewrite Hset2.
Qed.

(** Along a sweep the counts of the records never go up, and none is below
    the number of components the engine has at that point. *)
Lemma sweep_counts_sorted m aristas configuracion step visualization s sm :
  engine_wf (sw_engine s) → edges_ok (numNodos (sw_engine s)) aristas →
  numNodos (sw_engine s) ≤ length configuracion →
  resultados s = [] →
  sweep_iterations m aristas configuracion step visualization s = Some sm →
  (∀ i j ri rj, i ≤ j → resultados sm !! i = Some ri → resultados sm !! j = Some rj →
     record_count rj ≤ record_count ri) ∧
  (∀ i ri, resultados sm !! i = Some ri → components (sw_engine sm) ≤ record_count ri).
Proof.
  intros Hwf Hok Hconf Hnil. revert sm. induction m as [|m IH]; intros sm Hm.
  { simpl in Hm. injection Hm as <-. rewrite Hnil. by split; intros *; rewrite ?lookup_nil. }
  rewrite sweep_iterations_succ in Hm.
  destruct (sweep_iterations_inv m aristas configuracion step visualization s Hwf Hok Hconf)
    as (sk & Hk & Hwfk & HNk & _).
  rewrite Hk in Hm. destruct (IH sk Hk) as [Hsorted Hlow].
  destruct (sweep_body_count aristas configuracion step visualization sk sm)
    as (r & Hres & Hr & Hle); [done | by rewrite HNk | by rewrite HNk | done |].
  rewrite Hres.
  assert (∀ i ri, (resultados sk ++ [r]) !! i = Some ri →
            resultados sk !! i = Some ri ∨ (i = length (resultados sk) ∧ ri = r)) as Hcases.
  { intros i ri Hi. apply lookup_app_Some in Hi as [Hi | [Hge Hi]]; [by left|].
    right. apply list_lookup_singleton_Some in Hi as [Hz ->]. split; [lia | done]. }
  split.
  - intros i j ri rj Hij Hi Hj.
    destruct (Hcases i ri Hi) as [Hi' | [-> ->]], (Hcases j rj Hj) as [Hj' | [-> ->]].
    + by apply (Hsorted i j).
    + specialize (Hlow i ri Hi'). lia.
    + apply lookup_lt_Some in Hj'. lia.
    + done.
  - intros i ri Hi. rewrite <- Hr.
    destruct (Hcases i ri Hi) as [Hi' | [-> ->]]; [|done].
    specialize (Hlow i ri Hi'). lia.
Qed.

End sweep_facts.

(** * The claims *)

Section claims.
Import UnionFind UnionFindFacts.

(** C1. A call of the incremental step with [p < current_p] returns, changes
    nothing (the engine with its activation vector, both disjoint-set
    structures and [current_p], and the output argument [Smax] are the ones
    passed in), sends the error line to [cerr], and returns the count of the
    untouched primary structure, which is the count any previous call that
    left this engine returned. *)
Theorem C1_ordering_violation_changes_nothing
    (sp : SitePercolation) (aristas : list Edge) (configuracion : list float)
    (p : float) (Smax : Z) :
  (p <? current_p sp)%float = true →
  ∃ o, generate_single_percolation sp aristas configuracion p Smax = Some o ∧
       so_engine o = sp ∧ so_Smax o = Smax ∧ so_cerr o = [order_error] ∧
       so_ret o = Ncc (uf sp) (numNodos sp) ∧
       ∀ sp0 aristas0 configuracion0 p0 Smax0 o0,
         generate_single_percolation sp0 aristas0 configuracion0 p0 Smax0 = Some o0 →
         so_engine o0 = sp → so_ret o = so_ret o0.
Proof.
  intros Hp. rewrite (step_error sp aristas configuracion p Smax Hp).
  eexists; split; [done|]. do 4 (split; [done|]). simpl.
  intros sp0 aristas0 configuracion0 p0 Smax0 o0 Hcall Heng.
  unfold generate_single_percolation in Hcall.
  destruct (p0 <? current_p sp0)%float.
  - injection Hcall as <-. simpl in *. by subst sp0.
  - destruct (for_each (activate_node _ _) _ _) as [act|]; [|done].
    destruct (for_each (connect_edge _) _ _) as [[[u aux] Smax']|]; [|done].
    injection Hcall as <-. simpl in *. by subst sp.
Qed.

(** An engine whose threshold already reached 0.5, called again with 0.2. *)
Lemma C1_witness :
  ∃ o, generate_single_percolation
         (mkSitePercolation (UnionFind.new 4) (UnionFind.new 6) 4 0.5%float
            (replicate 4 false) 4 5 None)
         [(0, 1); (0, 2); (1, 3); (2, 3)] [0.1; 0.9; 0.2; 0.8]%float 0.2%float 1 = Some o ∧
       so_ret o = 4.
Proof.
  destruct (C1_ordering_violation_changes_nothing
              (mkSitePercolation (UnionFind.new 4) (UnionFind.new 6) 4 0.5%float
                 (replicate 4 false) 4 5 None)
              [(0, 1); (0, 2); (1, 3); (2, 3)] [0.1; 0.9; 0.2; 0.8]%float 0.2%float 1
              eq_refl) as (o & Hcall & _ & _ & _ & Hret & _).
  exists o. split; [exact Hcall | exact Hret].
Defined.

(** The 4-node lattice of the scenario: edges, weights, and a proof that the
    edges are in range. *)
Lemma scenario_edges_ok : edges_ok 4 [(0, 1); (0, 2); (1, 3); (2, 3)].
Proof. unfold edges_ok. repeat constructor; simpl; lia. Qed.

(** C5. On a call that passes the ordering check, every inactive node whose
    weight is [<= p] (equality included) becomes active, every inactive node
    whose weight is strictly greater than [p] stays inactive, and an active
    node stays active; on any call at all, including a refused one, no active
    node becomes inactive. *)
Theorem C5_activation_inclusive_and_monotone
    (sp : SitePercolation) (aristas : list Edge) (configuracion : list float)
    (p : float) (Smax : Z) :
  engine_wf sp → edges_ok (numNodos sp) aristas →
  numNodos sp ≤ length configuracion →
  (p <? current_p sp)%float = false →
  (∃ o, generate_single_percolation sp aristas configuracion p Smax = Some o ∧
     ∀ i w, i < numNodos sp → configuracion !! i = Some w →
       (nodoActivo sp !! i = Some false → (w <=? p)%float = true →
          nodoActivo (so_engine o) !! i = Some true) ∧
       (nodoActivo sp !! i = Some false → (p <? w)%float = true →
          nodoActivo (so_engine o) !! i = Some false) ∧
       (nodoActivo sp !! i = Some true →
          nodoActivo (so_engine o) !! i = Some true)) ∧
  (∀ p' Smax' o',
     generate_single_percolation sp aristas configuracion p' Smax' = Some o' →
     ∀ i, nodoActivo sp !! i = Some true →
          nodoActivo (so_engine o') !! i = Some true).
Proof.
  intros Hwf Hok Hconf Hp. split.
  - destruct (step_spec sp aristas configuracion p Smax Hwf Hok Hconf Hp)
      as (o & Hcall & _ & Hpost).
    exists o. split; [done|]. intros i w Hi Hw.
    destruct Hpost as (_ & _ & _ & _ & _ & -> & _).
    rewrite activation_after_lookup, Hw. simpl.
    split; [|split].
    + intros -> Hle. simpl. by rewrite Hle.
    + intros -> Hlt. simpl. by rewrite (ltb_leb_false p w Hlt).
    + by intros ->.
  - intros p' Smax' o' Hcall i Hi.
    destruct (p' <? current_p sp)%float eqn:Hp'.
    + rewrite (step_error sp aristas configuracion p' Smax' Hp') in Hcall.
      by injection Hcall as <-.
    + destruct (step_spec sp aristas configuracion p' Smax' Hwf Hok Hconf Hp')
        as (o & Hcall' & _ & Hpost).
      rewrite Hcall in Hcall'. injection Hcall' as <-.
      destruct Hpost as (_ & _ & _ & _ & _ & -> & _).
      by rewrite activation_after_lookup, Hi.
Qed.

(** The scenario's engine at threshold 0.2: node 2 (weight 0.2) is activated
    by the inclusive comparison. *)
Lemma C5_witness :
  ∃ o, generate_single_percolation (SitePercolation_new 4)
         [(0, 1); (0, 2); (1, 3); (2, 3)] [0.1; 0.9; 0.2; 0.8]%float 0.2%float 1 = Some o ∧
       nodoActivo (so_engine o) !! 2 = Some true ∧
       nodoActivo (so_engine o) !! 1 = Some false.
Proof.
  destruct (C5_activation_inclusive_and_monotone (SitePercolation_new 4)
              [(0, 1); (0, 2); (1, 3); (2, 3)] [0.1; 0.9; 0.2; 0.8]%float 0.2%float 1
              (new_engine_wf 4) scenario_edges_ok) as [(o & Hcall & Hact) _].
  { simpl. lia. }
  { reflexivity. }
  exists o. split; [exact Hcall|]. split.
  - destruct (Hact 2 0.2%float) as (Hon & _ & _); [simpl; lia | reflexivity |].
    apply Hon; reflexivity.
  - destruct (Hact 1 0.9%float) as (_ & Hoff & _); [simpl; lia | reflexivity |].
    apply Hoff; reflexivity.
Defined.

(** C4. Two consecutive calls of the incremental step that pass the ordering
    check, at thresholds [p1 <= p2]: both return, and the count returned at
    [p2] is at most the count returned at [p1].  And over a sweep, whose
    thresholds never decrease, the counts of the records never go up. *)
Theorem C4_component_count_non_increasing
    (sp : SitePercolation) (aristas : list Edge) (configuracion : list float)
    (p1 p2 : float) (Smax : Z) :
  engine_wf sp → edges_ok (numNodos sp) aristas →
  numNodos sp ≤ length configuracion →
  (p1 <? current_p sp)%float = false →
  (p1 <=? p2)%float = true →
  (∃ o1 o2,
     generate_single_percolation sp aristas configuracion p1 Smax = Some o1 ∧
     generate_single_percolation (so_engine o1) aristas configuracion p2 (so_Smax o1)
       = Some o2 ∧
     so_cerr o1 = [] ∧ so_cerr o2 = [] ∧
     so_ret o2 ≤ so_ret o1) ∧
  (∀ step visualization m sm i j ri rj,
     sweep_iterations m aristas configuracion step visualization
       (sweep_init sp visualization) = Some sm →
     i ≤ j → resultados sm !! i = Some ri → resultados sm !! j = Some rj →
     record_count rj ≤ record_count ri).
Proof.
  intros Hwf Hok Hconf Hp1 Hp12. split.
  - destruct (step_spec sp aristas configuracion p1 Smax Hwf Hok Hconf Hp1)
      as (o1 & Hcall1 & Hwf1 & Hpost1).
    destruct Hpost1 as (HN1 & Hcur1 & _ & _ & _ & _ & _ & _ & _ & _ & Herr1).
    destruct (step_spec (so_engine o1) aristas configuracion p2 (so_Smax o1))
      as (o2 & Hcall2 & Hwf2 & Hpost2); [done | by rewrite HN1 | by rewrite HN1 | |].
    { rewrite Hcur1. by apply leb_ltb_false. }
    destruct Hpost2 as (_ & _ & _ & _ & _ & _ & _ & _ & _ & _ & Herr2).
    exists o1, o2. do 4 (split; [done|]).
    destruct (step_count sp aristas configuracion p1 Smax o1 Hwf Hok Hconf Hcall1)
      as [Hret1 _].
    destruct (step_count (so_engine o1) aristas configuracion p2 (so_Smax o1) o2)
      as [_ Hle2]; [done | by rewrite HN1 | by rewrite HN1 | done |].
    lia.
  - intros step visualization m sm i j ri rj Hm Hij Hi Hj.
    destruct (sweep_init_wf sp visualization Hwf) as [Hwf0 HN0].
    destruct (sweep_counts_sorted m aristas configuracion step visualization
                (sweep_init sp visualization) sm) as [Hsorted _];
      [done | by rewrite HN0 | by rewrite HN0 | done | done |].
    by apply (Hsorted i j).
Qed.

(** The scenario at thresholds 0.1 then 0.2: the count goes from 4 to 3. *)
Lemma C4_witness :
  ∃ o1 o2,
    generate_single_percolation (SitePercolation_new 4)
      [(0, 1); (0, 2); (1, 3); (2, 3)] [0.1; 0.9; 0.2; 0.8]%float 0.1%float 1 = Some o1 ∧
    generate_single_percolation (so_engine o1)
      [(0, 1); (0, 2); (1, 3); (2, 3)] [0.1; 0.9; 0.2; 0.8]%float 0.2%float (so_Smax o1)
      = Some o2 ∧
    so_ret o2 ≤ so_ret o1.
Proof.
  destruct (C4_component_count_non_increasing (SitePercolation_new 4)
              [(0, 1); (0, 2); (1, 3); (2, 3)] [0.1; 0.9; 0.2; 0.8]%float
              0.1%float 0.2%float 1 (new_engine_wf 4) scenario_edges_ok)
    as [(o1 & o2 & H1 & H2 & _ & _ & Hle) _].
  { simpl. lia. }
  { reflexivity. }
  { reflexivity. }
  exists o1, o2. split; [exact H1|]. split; [exact H2 | exact Hle].
Defined.

(** C10. The ordering check is strict: a call with [p = current_p] is not
    refused.  A second call with the same [p], edges and weights right after
    a call that passed the check returns, is not refused, returns the same
    count, and leaves the activation vector, [Smax], [current_p] and the
    partition (representatives and sizes) of both structures as they were. *)
Theorem C10_repeated_call_idempotent
    (sp : SitePercolation) (aristas : list Edge) (configuracion : list float)
    (p : float) (Smax : Z) :
  engine_wf sp → edges_ok (numNodos sp) aristas →
  numNodos sp ≤ length configuracion →
  (p <? current_p sp)%float = false →
  (∀ Smax0, ∃ o, generate_single_percolation sp aristas configuracion
                   (current_p sp) Smax0 = Some o ∧ so_cerr o = []) ∧
  ∃ o1 o2,
    generate_single_percolation sp aristas configuracion p Smax = Some o1 ∧
    generate_single_percolation (so_engine o1) aristas configuracion p (so_Smax o1)
      = Some o2 ∧
    so_cerr o2 = [] ∧
    so_ret o2 = so_ret o1 ∧
    nodoActivo (so_engine o2) = nodoActivo (so_engine o1) ∧
    so_Smax o2 = so_Smax o1 ∧
    current_p (so_engine o2) = current_p (so_engine o1) ∧
    partition_of (uf (so_engine o2)) = partition_of (uf (so_engine o1)) ∧
    partition_of (uf_aux (so_engine o2)) = partition_of (uf_aux (so_engine o1)).
Proof.
  intros Hwf Hok Hconf Hp. split.
  { intros Smax0.
    destruct (step_spec sp aristas configuracion (current_p sp) Smax0 Hwf Hok Hconf)
      as (o & Hcall & _ & Hpost); [apply ltb_irrefl|].
    exists o. split; [done|]. apply Hpost. }
  destruct (step_spec sp aristas configuracion p Smax Hwf Hok Hconf Hp)
    as (o1 & Hcall1 & Hwf1 & Hpost1).
  destruct Hpost1 as (HN1 & Hcur1 & _ & _ & _ & Hact1 & Hpart1 & _ & Haux1 & Hret1 & _).
  destruct (step_spec (so_engine o1) aristas configuracion p (so_Smax o1))
    as (o2 & Hcall2 & Hwf2 & Hpost2); [done | by rewrite HN1 | by rewrite HN1 | |].
  { rewrite Hcur1. apply ltb_irrefl. }
  destruct Hpost2 as (HN2 & Hcur2 & _ & _ & _ & Hact2 & Hpart2 & _ & Haux2 & Hret2 & Herr2).
  assert (activation_after configuracion p (nodoActivo (so_engine o1))
          = activation_after configuracion p (nodoActivo sp)) as Hact.
  { rewrite Hact1. apply activation_after_idemp. }
  rewrite Hact in *. rewrite <- Hact1 in Hact2.
  destruct Hwf as (Hu & Hx & Hl & Hlx & _).
  assert (partition_of (uf (so_engine o2)) = partition_of (uf (so_engine o1)) ∧
          so_Smax o2 = so_Smax o1) as [Hsame HsameS].
  { unfold partition_of in *. rewrite Hpart1 in Hpart2.
    rewrite connect_loop_idemp in Hpart2;
      [| by apply wf_valid_reps | by rewrite reps_length, Hl].
    rewrite <- Hpart1 in Hpart2. injection Hpart2 as HR HS HM.
    split; congruence. }
  assert (partition_of (uf_aux (so_engine o2)) = partition_of (uf_aux (so_engine o1)))
    as HsameX.
  { unfold partition_of in *. rewrite Haux1 in Haux2.
    rewrite connect_aux_loop_idemp in Haux2;
      [| by apply wf_valid_reps
       | rewrite reps_length, Hlx; eapply Forall_impl; [exact Hok|];
         simpl; intros e; lia].
    by rewrite <- Haux1 in Haux2. }
  exists o1, o2. do 3 (split; [done|]).
  split. { rewrite Hret2, Hret1, HN1. unfold partition_of in Hsame. congruence. }
  split; [done|]. split; [done|]. split; [congruence|]. done.
Qed.

(** The scenario called twice at threshold 0.2. *)
Lemma C10_witness :
  ∃ o1 o2,
    generate_single_percolation (SitePercolation_new 4)
      [(0, 1); (0, 2); (1, 3); (2, 3)] [0.1; 0.9; 0.2; 0.8]%float 0.2%float 1 = Some o1 ∧
    generate_single_percolation (so_engine o1)
      [(0, 1); (0, 2); (1, 3); (2, 3)] [0.1; 0.9; 0.2; 0.8]%float 0.2%float (so_Smax o1)
      = Some o2 ∧
    so_ret o2 = so_ret o1 ∧ so_Smax o2 = so_Smax o1.
Proof.
  destruct (C10_repeated_call_idempotent (SitePercolation_new 4)
              [(0, 1); (0, 2); (1, 3); (2, 3)] [0.1; 0.9; 0.2; 0.8]%float
              0.2%float 1 (new_engine_wf 4) scenario_edges_ok)
    as [_ (o1 & o2 & H1 & H2 & _ & Hret & _ & HS & _)].
  { simpl. lia. }
  { reflexivity. }
  exists o1, o2. split; [exact H1|]. split; [exact H2|]. split; [exact Hret | exact HS].
Defined.

(** C6. [initialize_supernodes] takes [side] to be the integer square root of
    [N]; on the auxiliary structure of [N + 2] elements it unites the top
    terminal [N] with the nodes [0 .. side-1] and the bottom terminal [N + 1]
    with the nodes [N-side .. N-1], through exactly the [2 * side] calls of
    [unite] listed by [supernode_links]; it is total, so any [N], square or
    not, is accepted; it touches nothing but the auxiliary structure and
    keeps what was united there; and the sweep enters its loop from the
    engine initialised once, the loop body being [sweep_body]. *)
Theorem C6_initialize_supernodes_wires_boundaries (sp : SitePercolation) :
  engine_wf sp →
  let N := numNodos sp in
  let side := grid_size N in
  let sp' := initialize_supernodes sp in
  let R' := reps (uf_aux sp') in
  (side * side ≤ N ∧ N < (side + 1) * (side + 1)) ∧
  engine_wf sp' ∧
  length (parent (uf_aux sp')) = N + 2 ∧
  sp' = set_uf_aux sp (uf_aux sp') ∧
  uf_aux sp' = foldl (λ ua e, unite ua e.1 e.2) (uf_aux sp) (supernode_links sp) ∧
  length (supernode_links sp) = 2 * side ∧
  (∀ i, i < side → rep_at R' N = rep_at R' i) ∧
  (∀ i, i < side → rep_at R' (N + 1) = rep_at R' (N - side + i)) ∧
  (∀ x y, rep_at (reps (uf_aux sp)) x = rep_at (reps (uf_aux sp)) y →
          rep_at R' x = rep_at R' y) ∧
  (∀ fuel aristas configuracion step visualization,
     sw_engine (sweep_init sp visualization) = sp' ∧
     generate_full_percolation fuel sp aristas configuracion step visualization
       = sweep_loop fuel aristas configuracion step visualization
           (sweep_init sp visualization)).
Proof.
  intros Hwf N side sp' R'.
  pose proof (initialize_supernodes_wf sp Hwf) as Hwf'.
  pose proof Hwf as (Hu & Haux & Hlu & Hla & Hact & Htop & Hbot).
  destruct (unite_all_spec (uf_aux sp) (supernode_links sp) Haux) as (_ & _ & Hkeep & Hjoin).
  { apply Forall_forall. intros [a b] (i & Hi & Hab)%supernode_links_spec.
    pose proof (Nat.sqrt_le_lin (numNodos sp)). unfold grid_size in *.
    destruct Hab as [Hab|Hab]; injection Hab as -> ->; simpl; lia. }
  split. { pose proof (Nat.sqrt_specif N). unfold side, grid_size. lia. }
  split; [done|]. split; [apply Hwf'|]. split; [done|]. split; [done|].
  split.
  { assert (∀ (f g : nat → nat * nat) l,
              length (flat_map (λ i, [f i; g i]) l) = 2 * length l) as Hfl.
    { intros f g l. induction l as [|i l IH]; simpl; [done|]. rewrite IH. lia. }
    unfold supernode_links. by rewrite Hfl, length_seq. }
  split.
  { intros i Hi. unfold N. rewrite <- Htop.
    apply (Hjoin (superTop sp, i)), supernode_links_spec. eauto. }
  split.
  { intros i Hi. unfold N at 1. rewrite <- Hbot.
    apply (Hjoin (superBottom sp, N - side + i)), supernode_links_spec. eauto. }
  split; [exact Hkeep|]. done.
Qed.

(** A lattice of 8 nodes: [N] is not a square, [side = 2]. *)
Lemma C6_witness :
  grid_size 8 = 2 ∧
  engine_wf (initialize_supernodes (SitePercolation_new 8)) ∧
  rep_at (reps (uf_aux (initialize_supernodes (SitePercolation_new 8)))) 8 =
  rep_at (reps (uf_aux (initialize_supernodes (SitePercolation_new 8)))) 1.
Proof.
  destruct (C6_initialize_supernodes_wires_boundaries (SitePercolation_new 8)
              (new_engine_wf 8)) as (_ & Hwf & _ & _ & _ & _ & Htop & _).
  split; [reflexivity|]. split; [exact Hwf|].
  apply (Htop 1). vm_compute. lia.
Defined.

(** C7, as amended.  [has_percolation] returns whether the two calls
    [find(superTop)] and [find(superBottom)] on the auxiliary structure give
    the same root, which is whether the two terminals have one
    representative.  It leaves the primary structure, the activation vector,
    [current_p], [p_c] and all other members as they are, and of the auxiliary
    structure it keeps the sizes, the roots and the partition; its parent
    pointers may only be rewritten to point at representatives. *)
Theorem C7_has_percolation_keeps_partition (sp : SitePercolation) :
  engine_wf sp →
  let sp' := (has_percolation sp).1 in
  let b := (has_percolation sp).2 in
  b = bool_decide ((find (uf_aux sp) (superTop sp)).2
                   = (find (find (uf_aux sp) (superTop sp)).1 (superBottom sp)).2) ∧
  (b = true ↔ rep_at (reps (uf_aux sp)) (superTop sp)
              = rep_at (reps (uf_aux sp)) (superBottom sp)) ∧
  sp' = set_uf_aux sp (uf_aux sp') ∧
  engine_wf sp' ∧
  sizes (uf_aux sp') = sizes (uf_aux sp) ∧
  reps (uf_aux sp') = reps (uf_aux sp) ∧
  (∀ x, is_root (parent (uf_aux sp')) x ↔ is_root (parent (uf_aux sp)) x) ∧
  (∀ x, parent_at (parent (uf_aux sp')) x = parent_at (parent (uf_aux sp)) x ∨
        parent_at (parent (uf_aux sp')) x = rep_at (reps (uf_aux sp)) x).
Proof.
  intros Hwf sp' b.
  pose proof Hwf as (Hu & Haux & Hlu & Hla & Hact & Htop & Hbot).
  destruct (has_percolation_spec sp Haux) as (Hb & Hset & Hwf' & Hlen' & Hpart).
  fold sp' in Hset, Hwf', Hlen', Hpart. fold b in Hb.
  injection Hpart as HR HS.
  split.
  { unfold b, has_percolation.
    destruct (find (uf_aux sp) (superTop sp)) as [a1 t]; simpl.
    by destruct (find a1 (superBottom sp)) as [a2 r]. }
  split. { rewrite Hb. apply bool_decide_eq_true. }
  split; [done|].
  split.
  { rewrite Hset. unfold engine_wf; simpl.
    split; [done|]. split; [done|]. split; [done|]. split; [congruence|]. done. }
  split; [done|]. split; [done|].
  assert (∀ x, rep_at (reps (uf_aux sp')) x = rep_at (reps (uf_aux sp)) x) as Hrep
    by (intros x; by rewrite HR).
  split.
  { intros x. rewrite (is_root_rep_at (uf_aux sp') x Hwf'),
      (is_root_rep_at (uf_aux sp) x Haux), Hrep. done. }
  intros x.
  destruct (decide (parent_at (parent (uf_aux sp')) x = parent_at (parent (uf_aux sp)) x))
    as [|Hne]; [by left|]. right.
  unfold sp', has_percolation in *.
  pose proof (find_spec (uf_aux sp) (superTop sp) Haux) as (_ & _ & Hc1).
  pose proof (find_wf (uf_aux sp) (superTop sp) Haux) as Hwf1.
  pose proof (find_root_of (uf_aux sp) (superTop sp) x Haux) as Hroot1.
  destruct (find (uf_aux sp) (superTop sp)) as [a1 t]; simpl in *.
  pose proof (find_spec a1 (superBottom sp) Hwf1) as (_ & _ & Hc2).
  destruct (find a1 (superBottom sp)) as [a2 r]; simpl in *.
  rewrite rep_at_reps by apply Haux.
  destruct Hc1 as [_ Hc1]. destruct Hc2 as [_ Hc2].
  destruct (Hc2 x) as [Heq2 | [_ Heq2]]; [|congruence].
  destruct (Hc1 x) as [Heq1 | [_ Heq1]]; congruence.
Qed.

(** A well-formed engine to which the amended statement applies: the
    freshly initialised lattice of 4 nodes, where no path is closed yet. *)
Lemma C7_witness :
  (has_percolation (initialize_supernodes (SitePercolation_new 4))).2 = false ∧
  reps (uf_aux (has_percolation (initialize_supernodes (SitePercolation_new 4))).1)
    = reps (uf_aux (initialize_supernodes (SitePercolation_new 4))).
Proof.
  destruct (C7_has_percolation_keeps_partition
              (initialize_supernodes (SitePercolation_new 4))
              (initialize_supernodes_wf _ (new_engine_wf 4)))
    as (_ & _ & _ & _ & _ & HR & _).
  split; [reflexivity | exact HR].
Defined.

(** C7 fails as stated.  A lattice of 14 nodes, all weights 0: after
    [initialize_supernodes] and one incremental step at [p = 0] over the edges
    below, the bottom terminal 15 hangs under node 3, which hangs under the top
    terminal 14; [has_percolation] returns [true] and rewrites [parent[15]]
    from 3 to 14. *)
Lemma C7_counterexample :
  ∃ o, generate_single_percolation (initialize_supernodes (SitePercolation_new 14))
         [(3, 4); (3, 5); (3, 6); (0, 7); (0, 8); (0, 9); (0, 10); (3, 11); (0, 3)]
         (replicate 14 0.0%float) 0.0%float 1 = Some o ∧
       parent (uf_aux (so_engine o)) !! 15 = Some 3 ∧
       (has_percolation (so_engine o)).2 = true ∧
       parent (uf_aux (has_percolation (so_engine o)).1) !! 15 = Some 14 ∧
       (has_percolation (so_engine o)).1 ≠ so_engine o.
Proof.
  eexists. split; [vm_compute; reflexivity|].
  split; [vm_compute; reflexivity|]. split; [vm_compute; reflexivity|].
  split; [vm_compute; reflexivity|].
  intros Heq. apply (f_equal (λ e, parent (uf_aux e) !! 15)) in Heq.
  vm_compute in Heq. discriminate Heq.
Qed.

(** C3. Along a sweep, whatever the number of iterations: every iteration is
    defined; once [has_percolation] holds after some iteration it holds after
    every later one; the first iteration [k] after which [has_percolation]
    holds sets [p_c] to the [p] of that iteration, and [p_c] has that value
    after every later iteration; a sweep that returns ends in one of these
    states. *)
Theorem C3_critical_probability_set_once
    (sp : SitePercolation) (aristas : list Edge) (configuracion : list float)
    (step : float) (visualization : bool) :
  engine_wf sp → edges_ok (numNodos sp) aristas →
  numNodos sp ≤ length configuracion →
  let run n := sweep_iterations n aristas configuracion step visualization
                 (sweep_init sp visualization) in
  (∀ n, is_Some (run n)) ∧
  (∀ i j si sj, i ≤ j → run i = Some si → run j = Some sj →
     percolates (sw_engine si) = true → percolates (sw_engine sj) = true) ∧
  (∀ k sk sk1, run k = Some sk → run (S k) = Some sk1 →
     percolates (sw_engine sk1) = true →
     (∀ i si, 1 ≤ i ≤ k → run i = Some si → percolates (sw_engine si) = false) →
     p_c (sw_engine sk1) = Some (sw_p sk) ∧
     ∀ j sj, S k ≤ j → run j = Some sj → p_c (sw_engine sj) = Some (sw_p sk)) ∧
  (∀ fuel s,
     generate_full_percolation fuel sp aristas configuracion step visualization
       = Returns s →
     ∃ n, run n = Some s).
Proof.
  intros Hwf Hok Hconf run.
  destruct (sweep_init_wf sp visualization Hwf) as [Hwf0 HN0].
  assert (∀ n, ∃ sn, run n = Some sn ∧ engine_wf (sw_engine sn) ∧
                     numNodos (sw_engine sn) = numNodos sp) as Hrun.
  { intros n.
    destruct (sweep_iterations_inv n aristas configuracion step visualization
                (sweep_init sp visualization)) as (sn & Hn & Hwfn & HNn & _);
      [done | by rewrite HN0 | by rewrite HN0 |].
    exists sn. split; [done|]. split; [done | congruence]. }
  assert (∀ i j si sj, i ≤ j → run i = Some si → run j = Some sj →
            (percolates (sw_engine si) = true → percolates (sw_engine sj) = true) ∧
            (sw_percolation si = true →
               sw_percolation sj = true ∧ p_c (sw_engine sj) = p_c (sw_engine si)))
    as Hmono.
  { intros i j si sj Hij Hi Hj.
    destruct (Hrun i) as (si' & Hi' & Hwfi & HNi). rewrite Hi in Hi'. injection Hi' as <-.
    unfold run in Hj. replace j with (i + (j - i)) in Hj by lia.
    rewrite sweep_iterations_add in Hj. fold (run i) in Hj. rewrite Hi in Hj.
    destruct (sweep_iterations_inv (j - i) aristas configuracion step visualization si)
      as (sj' & Hj' & _ & _ & _ & _ & Hperc & Hflag);
      [done | by rewrite HNi | by rewrite HNi |].
    rewrite Hj in Hj'. injection Hj' as <-. done. }
  split. { intros n. destruct (Hrun n) as (sn & -> & _). done. }
  split. { intros i j si sj Hij Hi Hj. by apply (Hmono i j si sj). }
  split.
  { intros k sk sk1 Hk Hk1 Hperc Hnone.
    destruct (sweep_flag_down k aristas configuracion step visualization
                (sweep_init sp visualization) sk) as [Hflag Hpc];
      [done | by rewrite HN0 | by rewrite HN0 | done | done | done |].
    destruct (Hrun k) as (sk' & Hk' & Hwfk & HNk). rewrite Hk in Hk'. injection Hk' as <-.
    destruct (sweep_body_spec aristas configuracion step visualization sk)
      as (s' & o & Hbody & _ & _ & _ & _ & _ & _ & _ & _ & Hdown);
      [done | by rewrite HNk | by rewrite HNk |].
    unfold run in Hk1. rewrite sweep_iterations_succ in Hk1.
    fold (run k) in Hk1. rewrite Hk, Hbody in Hk1. injection Hk1 as ->.
    destruct (Hdown Hflag) as [Hf Hpck]. rewrite Hperc in Hf, Hpck.
    split; [done|]. intros j sj Hj Hsj.
    destruct (Hmono (S k) j sk1 sj Hj) as [_ Hfreeze]; [|done|].
    { unfold run. rewrite sweep_iterations_succ. fold (run k). by rewrite Hk. }
    destruct (Hfreeze Hf) as [_ ->]. done. }
  intros fuel s Hret. unfold generate_full_percolation in Hret.
  apply sweep_loop_returns in Hret as (n & _ & Hn & _). by exists n.
Qed.

(** The scenario: the path closes in iteration 2, at [p = 0.2]. *)
Lemma C3_witness :
  ∃ s2 s3,
    sweep_iterations 2 [(0, 1); (0, 2); (1, 3); (2, 3)] [0.1; 0.9; 0.2; 0.8]%float
      0.1%float false (sweep_init (SitePercolation_new 4) false) = Some s2 ∧
    sweep_iterations 3 [(0, 1); (0, 2); (1, 3); (2, 3)] [0.1; 0.9; 0.2; 0.8]%float
      0.1%float false (sweep_init (SitePercolation_new 4) false) = Some s3 ∧
    p_c (sw_engine s3) = Some (sw_p s2).
Proof.
  destruct (C3_critical_probability_set_once (SitePercolation_new 4)
              [(0, 1); (0, 2); (1, 3); (2, 3)] [0.1; 0.9; 0.2; 0.8]%float
              0.1%float false (new_engine_wf 4) scenario_edges_ok)
    as (_ & _ & Hfirst & _).
  { simpl. lia. }
  eexists _, _. split; [vm_compute; reflexivity|]. split; [vm_compute; reflexivity|].
  refine (proj1 (Hfirst 2 _ _ _ _ _ _)).
  - vm_compute. reflexivity.
  - vm_compute. reflexivity.
  - vm_compute. reflexivity.
  - intros i si Hi Hsi.
    assert (i = 1 ∨ i = 2) as [-> | ->] by lia;
      vm_compute in Hsi; injection Hsi as <-; vm_compute; reflexivity.
Defined.



(** C9, as amended.  On the 4-node lattice with [step = 0.1] the sweep
    returns after 11 iterations, at the doubles 0, 0.1, 0.2, 0.30000000000000004,
    ..., 0.7999999999999999, 0.8999999999999999, 0.9999999999999999.
    At [p = 0.1] only node 0 is active and the count is 4; at [p = 0.2] nodes
    0 and 2 are active and united, the count is 3 and the largest cluster has
    2 nodes; [p_c] is 0.2, the step at which the top-row node 0 and the
    bottom-row node 2 first share a component.  The tenth iteration runs at
    0.8999999999999999, below the weight 0.9 of node 1: there the count is 2
    and the largest cluster has 3 nodes.  All nodes are active and connected,
    count 1 and largest cluster 4, in the last iteration. *)
Theorem C9_scenario_sweep :
  ∃ s s2 s3,
    (∀ fuel, 11 < fuel →
       generate_full_percolation fuel (SitePercolation_new 4)
         [(0, 1); (0, 2); (1, 3); (2, 3)] [0.1; 0.9; 0.2; 0.8]%float 0.1%float false
       = Returns s) ∧
    resultados s =
      [(0.0%float, 4, 1%Z, 0.25%float); (0.1%float, 4, 1%Z, 0.25%float);
       (0.2%float, 3, 2%Z, 0.5%float);
       (0.30000000000000004%float, 3, 2%Z, 0.5%float);
       (0.4%float, 3, 2%Z, 0.5%float); (0.5%float, 3, 2%Z, 0.5%float);
       (0.6%float, 3, 2%Z, 0.5%float); (0.7%float, 3, 2%Z, 0.5%float);
       (0.79999999999999993%float, 3, 2%Z, 0.5%float);
       (0.89999999999999991%float, 2, 3%Z, 0.75%float);
       (0.99999999999999989%float, 1, 4%Z, 1.0%float)] ∧
    nodoActivo (sw_engine s) = [true; true; true; true] ∧
    p_c (sw_engine s) = Some 0.2%float ∧
    sweep_iterations 2 [(0, 1); (0, 2); (1, 3); (2, 3)] [0.1; 0.9; 0.2; 0.8]%float
      0.1%float false scenario_init = Some s2 ∧
    nodoActivo (sw_engine s2) = [true; false; false; false] ∧
    percolates (sw_engine s2) = false ∧
    sweep_iterations 3 [(0, 1); (0, 2); (1, 3); (2, 3)] [0.1; 0.9; 0.2; 0.8]%float
      0.1%float false scenario_init = Some s3 ∧
    nodoActivo (sw_engine s3) = [true; false; true; false] ∧
    rep_at (reps (uf (sw_engine s3))) 0 = rep_at (reps (uf (sw_engine s3))) 2 ∧
    percolates (sw_engine s3) = true.
Proof.
  eexists _, _, _. split.
  { intros fuel Hfuel. unfold generate_full_percolation.
    apply (sweep_loop_enough 11); [vm_compute; reflexivity | reflexivity | | done].
    intros k sk Hk Hsk.
    do 11 (destruct k as [|k];
           [vm_compute in Hsk; injection Hsk as <-; reflexivity|]).
    lia. }
  split; [reflexivity|]. split; [reflexivity|]. split; [reflexivity|].
  split; [vm_compute; reflexivity|]. split; [reflexivity|].
  split; [vm_compute; reflexivity|].
  split; [vm_compute; reflexivity|]. split; [reflexivity|].
  split; vm_compute; reflexivity.
Qed.

(** C9 fails as stated: the record of the iteration that stands for
    [p = 0.9] carries the double 0.8999999999999999, a count of 2 and a largest
    cluster of 3, node 1 being inactive after it; and no record with count 1
    has [p] equal to 0.9. *)
Lemma C9_counterexample :
  ∃ s s10,
    generate_full_percolation 12 (SitePercolation_new 4)
      [(0, 1); (0, 2); (1, 3); (2, 3)] [0.1; 0.9; 0.2; 0.8]%float 0.1%float false
      = Returns s ∧
    resultados s !! 9 = Some (0.89999999999999991%float, 2, 3%Z, 0.75%float) ∧
    (0.9 <=? 0.89999999999999991)%float = false ∧
    sweep_iterations 10 [(0, 1); (0, 2); (1, 3); (2, 3)] [0.1; 0.9; 0.2; 0.8]%float
      0.1%float false scenario_init = Some s10 ∧
    nodoActivo (sw_engine s10) = [true; false; true; true] ∧
    Forall (λ r : record, r.1.1.2 = 1 → (r.1.1.1 =? 0.9)%float = false) (resultados s).
Proof.
  eexists _, _. split; [vm_compute; reflexivity|].
  split; [reflexivity|]. split; [reflexivity|].
  split; [vm_compute; reflexivity|]. split; [reflexivity|].
  repeat constructor; simpl; intros; (discriminate || reflexivity).
Qed.

(** C2, as amended.  Let [step > 0] be such that the loop variable, which is
    [0.0] with [step] added once per iteration in double arithmetic, exceeds
    [1.0 + 1e-10] after some number of additions.  Then the sweep returns;
    it has run exactly the iterations whose threshold is at most
    [1.0 + 1e-10]; each iteration called the incremental step once, at its
    threshold, on the engine and running maximum left by the previous one;
    the returned vector has one record per iteration, in the order of the
    iterations, made of that threshold, of what the step returned and of
    [Smax / N]; and the thresholds strictly increase from one record to the
    next. *)
Theorem C2_full_sweep_records
    (sp : SitePercolation) (aristas : list Edge) (configuracion : list float)
    (step : float) (visualization : bool) (n : nat) :
  engine_wf sp → edges_ok (numNodos sp) aristas →
  numNodos sp ≤ length configuracion →
  (0 <? step)%float = true →
  (threshold step n <=? p_max)%float = false →
  ∃ m s,
    m ≤ n ∧
    (∀ fuel, m < fuel →
       generate_full_percolation fuel sp aristas configuracion step visualization
       = Returns s) ∧
    (∀ fuel s',
       generate_full_percolation fuel sp aristas configuracion step visualization
       = Returns s' → s' = s) ∧
    length (resultados s) = m ∧
    (∀ k, k < m → (threshold step k <=? p_max)%float = true) ∧
    (threshold step m <=? p_max)%float = false ∧
    (∀ k, k < m →
       ∃ sk o,
         sweep_iterations k aristas configuracion step visualization
           (sweep_init sp visualization) = Some sk ∧
         sw_p sk = threshold step k ∧
         generate_single_percolation (sw_engine sk) aristas configuracion
           (threshold step k) (sw_Smax sk) = Some o ∧
         resultados s !! k =
           Some (threshold step k, so_ret o, so_Smax o,
                 (double_of_int (so_Smax o)
                  / double_of_int (Z.of_nat (numNodos sp)))%float)) ∧
    (∀ k, k < m → (threshold step k <? threshold step (S k))%float = true).
Proof.
  intros Hwf Hok Hconf Hstep Hn.
  destruct (first_false (λ k, (threshold step k <=? p_max)%float) n Hn)
    as (m & Hmn & Hstop & Hgo).
  destruct (sweep_init_wf sp visualization Hwf) as [Hwf0 HN0].
  set (s0 := sweep_init sp visualization) in *.
  assert (edges_ok (numNodos (sw_engine s0)) aristas) as Hok0 by (by rewrite HN0).
  assert (numNodos (sw_engine s0) ≤ length configuracion) as Hconf0 by (by rewrite HN0).
  assert (∀ k, ∃ sk, sweep_iterations k aristas configuracion step visualization s0
                       = Some sk ∧
                     sw_p sk = threshold step k ∧ length (resultados sk) = k) as Hrun.
  { intros k.
    destruct (sweep_iterations_inv k aristas configuracion step visualization s0
                Hwf0 Hok0 Hconf0) as (sk & Hk & _ & _ & Hp & Hl & _).
    exists sk. split; [done|]. split; [by rewrite threshold_iter | done]. }
  destruct (Hrun m) as (s & Hs & Hps & Hls).
  assert (∀ fuel, m < fuel →
            sweep_loop fuel aristas configuracion step visualization s0 = Returns s)
    as Hret.
  { apply (sweep_loop_enough m); [done | by rewrite Hps |].
    intros k sk Hk Hsk. destruct (Hrun k) as (sk' & Hsk' & Hpk & _).
    rewrite Hsk in Hsk'. injection Hsk' as <-. rewrite Hpk. by apply Hgo. }
  exists m, s. split; [done|]. split; [exact Hret|].
  split.
  { intros fuel s' Hret'. unfold generate_full_percolation in Hret'. fold s0 in Hret'.
    apply sweep_loop_returns in Hret' as (n' & _ & Hn' & Hstop' & Hgo').
    destruct (Hrun n') as (sn' & Hsn' & Hpn' & _).
    rewrite Hn' in Hsn'. injection Hsn' as <-. rewrite Hpn' in Hstop'.
    assert (n' = m) as ->; [|congruence].
    destruct (lt_eq_lt_dec n' m) as [[Hlt | ->] | Hgt]; [| done |].
    - specialize (Hgo n' Hlt). simpl in Hgo. congruence.
    - specialize (Hgo' m s Hgt Hs). rewrite Hps in Hgo'. congruence. }
  split; [done|]. split; [exact Hgo|]. split; [done|].
  split.
  { intros k Hk. destruct (Hrun k) as (sk & Hsk & Hpk & _).
    destruct (sweep_record k m aristas configuracion step visualization s0 sk s
                Hwf0 Hok0 Hconf0 Hk Hsk Hs) as (o & Hcall & Hrec).
    exists sk, o. split; [done|]. split; [done|].
    rewrite Hpk, HN0 in *. split; [done|]. exact Hrec. }
  intros k Hk. apply (threshold_increasing step k m); auto.
Qed.

(** The scenario with [step = 0.1]: the twelfth threshold exceeds the bound. *)
Lemma C2_witness :
  ∃ m s,
    m ≤ 11 ∧
    generate_full_percolation 12 (SitePercolation_new 4)
      [(0, 1); (0, 2); (1, 3); (2, 3)] [0.1; 0.9; 0.2; 0.8]%float 0.1%float false
    = Returns s ∧
    length (resultados s) = m.
Proof.
  destruct (C2_full_sweep_records (SitePercolation_new 4)
              [(0, 1); (0, 2); (1, 3); (2, 3)] [0.1; 0.9; 0.2; 0.8]%float 0.1%float
              false 11 (new_engine_wf 4) scenario_edges_ok)
    as (m & s & Hm & Hret & _ & Hlen & _).
  { simpl. lia. }
  { reflexivity. }
  { reflexivity. }
  exists m, s. split; [exact Hm|]. split; [apply Hret; lia | exact Hlen].
Defined.

(** C2 fails as stated.  With the smallest positive double as [step] the
    loop variable climbs through the multiples of [2^-1074] and is absorbed
    for good at [2^-1021], far below 1: whatever the bound on the number of
    iterations, the sweep has not returned. *)
Lemma C2_counterexample :
  (0 <? tiny_step)%float = true ∧
  ∀ fuel,
    generate_full_percolation fuel (SitePercolation_new 4)
      [(0, 1); (0, 2); (1, 3); (2, 3)] [0.1; 0.9; 0.2; 0.8]%float tiny_step false
    = OutOfFuel.
Proof.
  split; [reflexivity|]. intros fuel. unfold generate_full_percolation.
  apply sweep_loop_tiny_step.
  - apply (initialize_supernodes_wf _ (new_engine_wf 4)).
  - exact scenario_edges_ok.
  - simpl. lia.
  - left. reflexivity.
Qed.

End claims.

(** * Further properties of the incremental step *)

Section largest.
Import UnionFind UnionFindFacts.

Lemma connect_edge_Smax act (s s' : conn_state) e :
  connect_edge act s e = Some s' → (s.2 ≤ s'.2)%Z.
Proof.
  destruct s as [[u aux] Smax], e as [a b]. unfold connect_edge.
  destruct (act !! a) as [[]|]; [|by intros [= <-]|done].
  destruct (act !! b) as [[]|]; [|by intros [= <-]|done].
  destruct (get_size (unite u a b) a) as [u2 s1].
  destruct (get_size u2 b) as [u3 s2].
  intros [= <-]. simpl. lia.
Qed.

Lemma connect_loop_Smax act aristas (s s' : conn_state) :
  for_each (connect_edge act) aristas s = Some s' → (s.2 ≤ s'.2)%Z.
Proof.
  revert s. induction aristas as [|e aristas IH]; intros s; cbn [for_each].
  { by intros [= <-]. }
  destruct (connect_edge act s e) as [s1|] eqn:He; [|done].
  intros Hs'. apply connect_edge_Smax in He. apply IH in Hs'. lia.
Qed.

Lemma step_Smax sp aristas configuracion p Smax o :
  generate_single_percolation sp aristas configuracion p Smax = Some o →
  (Smax ≤ so_Smax o)%Z.
Proof.
  unfold generate_single_percolation.
  destruct (p <? current_p sp)%float; [by intros [= <-]|].
  destruct (for_each (activate_node _ _) _ _) as [act|]; [|done].
  destruct (for_each (connect_edge act) _ _) as [[[u aux] Smax']|] eqn:Hloop; [|done].
  intros [= <-]. simpl. by apply connect_loop_Smax in Hloop.
Qed.

Lemma sweep_body_Smax aristas configuracion step visualization s s' :
  sweep_body aristas configuracion step visualization s = Some s' →
  (sw_Smax s ≤ sw_Smax s')%Z ∧
  ∃ r, resultados s' = resultados s ++ [r] ∧ record_Smax r = sw_Smax s'.
Proof.
  unfold sweep_body.
  destruct (generate_single_percolation _ _ _ _ _) as [o|] eqn:Hcall; [|done].
  apply step_Smax in Hcall.
  destruct (write_files _ _ _ _) as [[sp1 report] clusters].
  destruct (check_percolation _ _ _) as [[sp2 flag] cout].
  intros [= <-]. simpl. split; [done|]. by eexists.
Qed.

Lemma sweep_Smax_sorted m aristas configuracion step visualization s sm :
  resultados s = [] →
  sweep_iterations m aristas configuracion step visualization s = Some sm →
  (sw_Smax s ≤ sw_Smax sm)%Z ∧
  (∀ i ri, resultados sm !! i = Some ri →
     (sw_Smax s ≤ record_Smax ri ≤ sw_Smax sm)%Z) ∧
  (∀ i j ri rj, i ≤ j → resultados sm !! i = Some ri → resultados sm !! j = Some rj →
     (record_Smax ri ≤ record_Smax rj)%Z).
Proof.
  intros Hnil. revert sm. induction m as [|m IH]; intros sm Hm.
  { simpl in Hm. injection Hm as <-. rewrite Hnil.
    split; [lia|]. by split; intros *; rewrite ?lookup_nil. }
  rewrite sweep_iterations_succ in Hm.
  destruct (sweep_iterations m _ _ _ _ s) as [sk|]; [|done].
  destruct (IH sk eq_refl) as (Hle & Hbounds & Hsorted).
  destruct (sweep_body_Smax _ _ _ _ _ _ Hm) as (Hstep & r & Hres & Hr).
  rewrite Hres.
  assert (∀ i ri, (resultados sk ++ [r]) !! i = Some ri →
            resultados sk !! i = Some ri ∨ (i = length (resultados sk) ∧ ri = r)) as Hcases.
  { intros i ri Hi. apply lookup_app_Some in Hi as [Hi | [Hge Hi]]; [by left|].
    right. apply list_lookup_singleton_Some in Hi as [Hz ->]. split; [lia | done]. }
  split; [lia|]. split.
  - intros i ri Hi. destruct (Hcases i ri Hi) as [Hi' | [-> ->]].
    + specialize (Hbounds i ri Hi'). lia.
    + lia.
  - intros i j ri rj Hij Hi Hj.
    destruct (Hcases i ri Hi) as [Hi' | [-> ->]], (Hcases j rj Hj) as [Hj' | [-> ->]].
    + by apply (Hsorted i j).
    + specialize (Hbounds i ri Hi'). lia.
    + apply lookup_lt_Some in Hj'. lia.
    + lia.
Qed.

(** X1. The largest-cluster tracker never goes down.  Whatever the engine
    and the arguments, a call of the incremental step that returns leaves
    [Smax] at least as large as it was passed; and in the records of a
    sweep the largest-cluster sizes are at least 1 and never decrease. *)
Theorem X1_largest_cluster_never_shrinks
    (sp : SitePercolation) (aristas : list Edge) (configuracion : list float) :
  (∀ p Smax o,
     generate_single_percolation sp aristas configuracion p Smax = Some o →
     (Smax ≤ so_Smax o)%Z) ∧
  (∀ step visualization m sm i j ri rj,
     sweep_iterations m aristas configuracion step visualization
       (sweep_init sp visualization) = Some sm →
     i ≤ j → resultados sm !! i = Some ri → resultados sm !! j = Some rj →
     (1 ≤ record_Smax ri ≤ record_Smax rj)%Z).
Proof.
  split.
  - intros p Smax o. apply step_Smax.
  - intros step visualization m sm i j ri rj Hm Hij Hi Hj.
    destruct (sweep_Smax_sorted m aristas configuracion step visualization
                (sweep_init sp visualization) sm eq_refl Hm) as (_ & Hbounds & Hsorted).
    split; [apply (Hbounds i ri Hi) | by apply (Hsorted i j)].
Qed.

(** The scenario at threshold 0.2, entered with [Smax = 1]. *)
Lemma X1_witness :
  ∃ o, generate_single_percolation (SitePercolation_new 4)
         [(0, 1); (0, 2); (1, 3); (2, 3)] [0.1; 0.9; 0.2; 0.8]%float 0.2%float 1 = Some o ∧
       (1 ≤ so_Smax o)%Z.
Proof.
  eexists. split; [vm_compute; reflexivity|].
  apply (proj1 (X1_largest_cluster_never_shrinks (SitePercolation_new 4)
                  [(0, 1); (0, 2); (1, 3); (2, 3)] [0.1; 0.9; 0.2; 0.8]%float)
               0.2%float 1%Z).
  vm_compute. reflexivity.
Defined.

End largest.

Section bounds.
Import UnionFind UnionFindFacts.
Implicit Types (sp : SitePercolation) (act : list bool).

Lemma activate_node_gen configuracion p act i :
  i < length act → (act !! i = Some false → i < length configuracion) →
  ∃ act', activate_node configuracion p act i = Some act' ∧
    length act' = length act ∧
    ∀ j, act' !! j =
      (λ a, if decide (j = i)
            then a || from_option (λ w, (w <=? p)%float) false (configuracion !! j)
            else a) <$> act !! j.
Proof.
  intros Hi Hc. destruct (lookup_lt_is_Some_2 act i Hi) as [a Ha].
  destruct a; [|by apply activate_node_spec; auto].
  unfold activate_node. rewrite Ha. eexists; split; [done|]. split; [done|].
  intros j. destruct (act !! j) as [a|] eqn:Hj; simpl; [|done].
  case_decide; [|done]. subst j. rewrite Ha in Hj. by injection Hj as <-.
Qed.

Lemma activate_node_other configuracion p act i act' j :
  activate_node configuracion p act i = Some act' → j ≠ i → act' !! j = act !! j.
Proof.
  unfold activate_node. intros H Hj.
  destruct (act !! i) as [[]|]; [by injection H as <- | | done].
  destruct (configuracion !! i) as [w|]; [|done]. injection H as <-.
  destruct (w <=? p)%float; [|done]. by rewrite list_lookup_insert_ne.
Qed.

Lemma activate_loop_gen configuracion p l act :
  NoDup l → (∀ i, i ∈ l → i < length act) →
  (∀ i, i ∈ l → act !! i = Some false → i < length configuracion) →
  ∃ act', for_each (activate_node configuracion p) l act = Some act' ∧
    length act' = length act ∧
    ∀ j, act' !! j =
      (λ a, if decide (j ∈ l)
            then a || from_option (λ w, (w <=? p)%float) false (configuracion !! j)
            else a) <$> act !! j.
Proof.
  revert act. induction l as [|i l IH]; intros act Hnd Hl Hc; simpl.
  - eexists; split; [done|]. split; [done|]. intros j. by destruct (act !! j).
  - apply NoDup_cons in Hnd as [Hi Hnd].
    destruct (activate_node_gen configuracion p act i) as (act1 & Hnode & Hlen1 & H1).
    { apply Hl. left. } { apply Hc. left. }
    rewrite Hnode.
    destruct (IH act1 Hnd) as (act' & -> & Hlen' & H').
    { intros k Hk. rewrite Hlen1. apply Hl. by right. }
    { intros k Hk. rewrite (activate_node_other _ _ _ _ _ k Hnode) by (by intros ->).
      apply Hc. by right. }
    eexists; split; [done|]. split; [congruence|]. intros j.
    rewrite H', H1. destruct (act !! j) as [a|]; simpl; [|done]. f_equal.
    destruct (decide (j = i)) as [->|Hj].
    + rewrite (decide_True (P := i ∈ i :: l)) by left.
      case_decide; [|done]. by destruct a, (from_option _ _ _).
    + destruct (decide (j ∈ l)) as [Hin|Hin].
      * rewrite decide_True; [done | by right].
      * rewrite decide_False; [done|]. by intros [?|?]%elem_of_cons.
Qed.

Lemma activate_loop_undefined configuracion p l act i :
  NoDup l → i ∈ l → act !! i = Some false → length configuracion ≤ i →
  for_each (activate_node configuracion p) l act = None.
Proof.
  revert act. induction l as [|i0 l IH]; intros act Hnd Hin Hi Hc; simpl.
  { by apply elem_of_nil in Hin. }
  apply NoDup_cons in Hnd as [Hi0 Hnd].
  destruct (activate_node configuracion p act i0) as [act1|] eqn:Hnode; [|done].
  apply elem_of_cons in Hin as [->|Hin].
  - unfold activate_node in Hnode. rewrite Hi in Hnode.
    by rewrite (lookup_ge_None_2 configuracion i0) in Hnode.
  - apply IH; [done | done | | done].
    rewrite (activate_node_other _ _ _ _ _ i Hnode); [done|]. by intros ->.
Qed.

(** The activation loop is defined exactly when every node it finds inactive
    has a weight, and then computes [activation_after]. *)
Lemma activate_all_defined configuracion p act n :
  length act = n →
  (∀ i, i < n → act !! i = Some false → i < length configuracion) →
  for_each (activate_node configuracion p) (seq 0 n) act
    = Some (activation_after configuracion p act).
Proof.
  intros Hlen Hc.
  destruct (activate_loop_gen configuracion p (seq 0 n) act) as (act' & -> & Hlen' & H').
  { apply NoDup_seq. }
  { intros i Hi%elem_of_seq. lia. }
  { intros i Hi%elem_of_seq. apply Hc. lia. }
  f_equal. apply list_eq. intros j. unfold activation_after.
  rewrite H', list_lookup_imap. destruct (act !! j) as [a|] eqn:Ha; simpl; [|done].
  rewrite decide_True; [done|]. apply elem_of_seq.
  apply lookup_lt_Some in Ha. lia.
Qed.

Lemma connect_edge_defined act (s : conn_state) (e : Edge) :
  is_Some (connect_edge act s e) ↔
  is_Some (act !! e.1) ∧ (act !! e.1 = Some true → is_Some (act !! e.2)).
Proof.
  destruct s as [[u aux] Smax], e as [a b]. unfold connect_edge. simpl.
  destruct (act !! a) as [[]|].
  - destruct (act !! b) as [[]|].
    + destruct (get_size (unite u a b) a) as [u2 s1].
      destruct (get_size u2 b) as [u3 s2]. naive_solver.
    + naive_solver.
    + split; [by intros [? ?] | intros [_ H]; by destruct (H eq_refl)].
  - split; [|done]. intros _. split; [done | by intros].
  - split; [by intros [? ?] | by intros [[? ?] _]].
Qed.

Lemma connect_loop_defined act aristas (s : conn_state) :
  is_Some (for_each (connect_edge act) aristas s) ↔
  Forall (λ e : Edge, is_Some (act !! e.1) ∧
                      (act !! e.1 = Some true → is_Some (act !! e.2))) aristas.
Proof.
  revert s. induction aristas as [|e aristas IH]; intros s; cbn [for_each].
  { split; [by constructor | done]. }
  rewrite Forall_cons, <- (connect_edge_defined act s e).
  destruct (connect_edge act s e) as [s1|].
  - rewrite IH. naive_solver.
  - split; [by intros [? ?] | by intros [[? ?] _]].
Qed.

(** An edge that is skipped leaves the state of the loop as it is. *)
Lemma connect_loop_skips act aristas (s : conn_state) :
  Forall (λ e : Edge, act !! e.1 = Some false ∨
                      (act !! e.1 = Some true ∧ act !! e.2 = Some false)) aristas →
  for_each (connect_edge act) aristas s = Some s.
Proof.
  induction 1 as [|e aristas He _ IH]; cbn [for_each]; [done|].
  assert (connect_edge act s e = Some s) as ->; [|done].
  destruct s as [[u aux] Smax], e as [a b]. unfold connect_edge. simpl in *.
  by destruct He as [-> | [-> ->]].
Qed.

(** X3. The domain of the incremental step.  On an engine with one
    activation flag per node, a call that passes the ordering check indexes
    no vector out of bounds exactly when every node it finds inactive has a
    weight, the first endpoint of every edge is a node, and the second
    endpoint is a node whenever the first one is active after the
    activation loop. *)
Theorem X3_step_defined_iff_in_bounds
    (sp : SitePercolation) (aristas : list Edge) (configuracion : list float)
    (p : float) (Smax : Z) :
  length (nodoActivo sp) = numNodos sp →
  (p <? current_p sp)%float = false →
  is_Some (generate_single_percolation sp aristas configuracion p Smax) ↔
  in_bounds sp aristas configuracion p.
Proof.
  intros Hlen Hp. unfold generate_single_percolation, in_bounds. rewrite Hp.
  set (act := activation_after configuracion p (nodoActivo sp)).
  assert (∀ x, is_Some (act !! x) ↔ x < numNodos sp) as Hlk.
  { intros x. rewrite lookup_lt_is_Some. unfold act.
    by rewrite activation_after_length, Hlen. }
  destruct (decide (Exists (λ i, nodoActivo sp !! i = Some false ∧
                                 length configuracion ≤ i) (seq 0 (numNodos sp))))
    as [Hex | Hno].
  - apply Exists_exists in Hex as (i & Hi & Hoff & Hge).
    rewrite (activate_loop_undefined configuracion p (seq 0 (numNodos sp))
               (nodoActivo sp) i); [| apply NoDup_seq | done..].
    split; [by intros [? ?]|]. intros [Hc _]. apply elem_of_seq in Hi.
    specialize (Hc i ltac:(lia) Hoff). lia.
  - assert (∀ i, i < numNodos sp → nodoActivo sp !! i = Some false →
                 i < length configuracion) as Hc.
    { intros i Hi Hoff.
      destruct (decide (i < length configuracion)) as [|Hge]; [done|].
      destruct Hno. apply Exists_exists. exists i. split; [|split; [done | lia]].
      apply elem_of_seq. lia. }
    rewrite (activate_all_defined configuracion p (nodoActivo sp) (numNodos sp) Hlen Hc).
    fold act.
    pose proof (connect_loop_defined act aristas (uf sp, uf_aux sp, Smax)) as Hdef.
    destruct (for_each (connect_edge act) aristas _) as [[[u aux] Smax']|].
    + split; [|done]. intros _. split; [done|].
      eapply Forall_impl; [apply Hdef; done|]. simpl. intros e [H1 H2].
      rewrite <- !Hlk. auto.
    + split; [by intros [? ?]|]. intros [_ Hok].
      assert (is_Some (None : option conn_state)) as [? ?]; [|done].
      apply Hdef. eapply Forall_impl; [exact Hok|]. simpl. intros e [H1 H2].
      rewrite !Hlk. auto.
Qed.

(** The scenario at threshold 0.2: one flag per node, check passed. *)
Lemma X3_witness :
  is_Some (generate_single_percolation (SitePercolation_new 4)
             [(0, 1); (0, 2); (1, 3); (2, 3)] [0.1; 0.9; 0.2; 0.8]%float 0.2%float 1) ↔
  in_bounds (SitePercolation_new 4)
    [(0, 1); (0, 2); (1, 3); (2, 3)] [0.1; 0.9; 0.2; 0.8]%float 0.2%float.
Proof.
  apply (X3_step_defined_iff_in_bounds (SitePercolation_new 4)
           [(0, 1); (0, 2); (1, 3); (2, 3)] [0.1; 0.9; 0.2; 0.8]%float 0.2%float 1%Z);
    reflexivity.
Defined.

(** X4. Edges with an inactive endpoint are skipped.  When, after the
    activation loop, no edge has both endpoints active, a call that passes
    the ordering check touches neither disjoint-set structure, not even by a
    path compression, leaves [Smax] as passed, returns the count of the
    untouched primary structure, and only updates the activation flags and
    [current_p].  The second endpoint of an edge whose first endpoint is
    inactive is not even read. *)
Theorem X4_inactive_edges_are_skipped
    (sp : SitePercolation) (aristas : list Edge) (configuracion : list float)
    (p : float) (Smax : Z) :
  length (nodoActivo sp) = numNodos sp →
  (p <? current_p sp)%float = false →
  (∀ i, i < numNodos sp → nodoActivo sp !! i = Some false → i < length configuracion) →
  Forall (λ e : Edge,
     let act := activation_after configuracion p (nodoActivo sp) in
     act !! e.1 = Some false ∨ (act !! e.1 = Some true ∧ act !! e.2 = Some false))
    aristas →
  generate_single_percolation sp aristas configuracion p Smax =
    Some (mk_step_out
            (mkSitePercolation (uf sp) (uf_aux sp) (numNodos sp) p
               (activation_after configuracion p (nodoActivo sp))
               (superTop sp) (superBottom sp) (p_c sp))
            Smax (Ncc (uf sp) (numNodos sp)) []).
Proof.
  intros Hlen Hp Hc Hskip. unfold generate_single_percolation. rewrite Hp.
  rewrite (activate_all_defined configuracion p (nodoActivo sp) (numNodos sp) Hlen Hc).
  by rewrite (connect_loop_skips _ aristas _ Hskip).
Qed.

(** The scenario at threshold 0.15: only node 0 is active, four components. *)
Lemma X4_witness :
  so_ret <$> generate_single_percolation (SitePercolation_new 4)
               [(0, 1); (0, 2); (1, 3); (2, 3)] [0.1; 0.9; 0.2; 0.8]%float 0.15%float 1
  = Some 4.
Proof.
  rewrite (X4_inactive_edges_are_skipped (SitePercolation_new 4)
             [(0, 1); (0, 2); (1, 3); (2, 3)] [0.1; 0.9; 0.2; 0.8]%float 0.15%float 1%Z).
  - reflexivity.
  - reflexivity.
  - reflexivity.
  - intros i Hi _. simpl in *. lia.
  - apply Forall_cons; split; [right; split; reflexivity|].
    apply Forall_cons; split; [right; split; reflexivity|].
    apply Forall_cons; split; [left; reflexivity|].
    apply Forall_cons; split; [left; reflexivity|].
    apply Forall_nil_2.
Defined.

End bounds.

Section not_a_number.
Import UnionFind UnionFindFacts.

Lemma is_nan_spec (p : float) : PrimFloat.is_nan p = true → Prim2SF p = S754_nan.
Proof.
  unfold PrimFloat.is_nan. rewrite FloatAxioms.eqb_spec. unfold SFeqb.
  destruct (Prim2SF p) as [sx|sx| |sx mx ex]; simpl; try destruct sx; try done;
    change (PosDef.Pos.compare_cont Eq mx mx) with (mx ?= mx)%positive;
    by rewrite Z.compare_refl, Pos.compare_refl.
Qed.

Lemma nan_ltb_l (p q : float) : PrimFloat.is_nan p = true → (p <? q)%float = false.
Proof. intros Hp%is_nan_spec. rewrite ltb_spec. unfold SFltb. by rewrite Hp. Qed.

Lemma nan_ltb_r (p q : float) : PrimFloat.is_nan q = true → (p <? q)%float = false.
Proof.
  intros Hq%is_nan_spec. rewrite ltb_spec. unfold SFltb. rewrite Hq.
  by destruct (Prim2SF p) as [[]|[]| |[] m e].
Qed.

Lemma nan_leb_r (p q : float) : PrimFloat.is_nan q = true → (p <=? q)%float = false.
Proof.
  intros Hq%is_nan_spec. rewrite leb_spec. unfold SFleb. rewrite Hq.
  by destruct (Prim2SF p) as [[]|[]| |[] m e].
Qed.

(** X17. A NaN threshold passes the ordering check, activates no node,
    and is stored as [current_p]; since no double compares below NaN, the
    next call is accepted whatever its threshold, also one below every
    threshold used before, and stores it. *)
Theorem X17_nan_threshold_disables_the_ordering_check
    (sp : SitePercolation) (aristas : list Edge) (configuracion : list float)
    (p : float) (Smax : Z) :
  engine_wf sp → edges_ok (numNodos sp) aristas →
  numNodos sp ≤ length configuracion →
  PrimFloat.is_nan p = true →
  ∃ o, generate_single_percolation sp aristas configuracion p Smax = Some o ∧
       so_cerr o = [] ∧
       nodoActivo (so_engine o) = nodoActivo sp ∧
       current_p (so_engine o) = p ∧
       ∀ p' Smax', ∃ o',
         generate_single_percolation (so_engine o) aristas configuracion p' Smax'
           = Some o' ∧
         so_cerr o' = [] ∧ current_p (so_engine o') = p'.
Proof.
  intros Hwf Hok Hconf Hnan.
  destruct (step_spec sp aristas configuracion p Smax Hwf Hok Hconf)
    as (o & Hcall & Hwf' & Hpost); [by apply nan_ltb_l|].
  destruct Hpost as (HN & Hcur & _ & _ & _ & Hact & _ & _ & _ & _ & Herr).
  exists o. split; [done|]. split; [done|]. split; [|split; [done|]].
  - rewrite Hact. apply list_eq. intros i. rewrite activation_after_lookup.
    destruct (nodoActivo sp !! i) as [a|]; simpl; [|done]. f_equal.
    destruct (configuracion !! i) as [w|]; simpl; [|by rewrite orb_false_r].
    by rewrite (nan_leb_r w p Hnan), orb_false_r.
  - intros p' Smax'.
    destruct (step_spec (so_engine o) aristas configuracion p' Smax')
      as (o' & Hcall' & _ & Hpost'); [done | by rewrite HN | by rewrite HN | |].
    { rewrite Hcur. by apply nan_ltb_r. }
    exists o'. split; [done|]. split; apply Hpost'.
Qed.

(** An engine at threshold 0.5 called with NaN and then with 0.1. *)
Lemma X17_witness :
  ∃ o o',
    generate_single_percolation
      (mkSitePercolation (UnionFind.new 4) (UnionFind.new 6) 4 0.5%float
         (replicate 4 false) 4 5 None)
      [(0, 1); (0, 2); (1, 3); (2, 3)] [0.1; 0.9; 0.2; 0.8]%float nan 1 = Some o ∧
    generate_single_percolation (so_engine o)
      [(0, 1); (0, 2); (1, 3); (2, 3)] [0.1; 0.9; 0.2; 0.8]%float 0.1%float 1 = Some o' ∧
    so_cerr o' = [] ∧ current_p (so_engine o') = 0.1%float.
Proof.
  destruct (X17_nan_threshold_disables_the_ordering_check
              (mkSitePercolation (UnionFind.new 4) (UnionFind.new 6) 4 0.5%float
                 (replicate 4 false) 4 5 None)
              [(0, 1); (0, 2); (1, 3); (2, 3)] [0.1; 0.9; 0.2; 0.8]%float nan 1)
    as (o & Hcall & _ & _ & _ & Hnext).
  { split; [apply new_wf|]. split; [apply new_wf|]. repeat split; reflexivity. }
  { exact scenario_edges_ok. }
  { simpl. lia. }
  { reflexivity. }
  destruct (Hnext 0.1%float 1%Z) as (o' & Hcall' & Herr & Hcur).
  exists o, o'. split; [exact Hcall|]. split; [exact Hcall'|]. split; [exact Herr | exact Hcur].
Defined.

End not_a_number.

(** * More on doubles: signs and transitivity *)

Section double_signs.
Import UnionFind UnionFindFacts.

Lemma ltb_asym (p q : float) : (p <? q)%float = true → (q <? p)%float = false.
Proof.
  rewrite !ltb_spec. unfold SFltb.
  destruct (SFcompare (Prim2SF p) (Prim2SF q)) as [[]|] eqn:E; try done.
  by rewrite (SFcompare_Lt_swap _ _ E).
Qed.

Lemma binary_round_aux_opp m e l :
  binary_round_aux prec emax true m e l = SFopp (binary_round_aux prec emax false m e l).
Proof.
  unfold binary_round_aux.
  destruct (shr_fexp prec emax m e l) as [mrs' e'].
  destruct (shr_fexp prec emax _ e' loc_Exact) as [mrs'' e''].
  destruct (shr_m mrs'') as [|m'|m']; try done.
  by destruct (e'' <=? emax - prec)%Z.
Qed.

Lemma SFadd_neg_opp mx ex my ey :
  SF64add (S754_finite true mx ex) (S754_finite true my ey)
  = SFopp (SF64add (S754_finite false mx ex) (S754_finite false my ey)).
Proof.
  unfold SF64add, SFadd. cbv zeta. unfold cond_Zopp.
  destruct (shl_align mx ex (IntDef.Z.min ex ey)) as [mx' ex'].
  destruct (shl_align my ey (IntDef.Z.min ex ey)) as [my' ey']. simpl fst.
  change (- Z.pos mx' + - Z.pos my')%Z with (Z.neg (mx' + my')).
  change (Z.pos mx' + Z.pos my')%Z with (Z.pos (mx' + my')).
  unfold binary_normalize, binary_round.
  destruct (shl_align (mx' + my') _ _) as [mz ez].
  apply binary_round_aux_opp.
Qed.

Lemma nonpositive_leb_zero (x : float) :
  (x <=? 0)%float = true ↔ nonpositive (Prim2SF x).
Proof.
  rewrite leb_spec, Prim2SF_zero. unfold SFleb, nonpositive.
  destruct (Prim2SF x) as [[]|[]| |[] m e]; simpl; naive_solver.
Qed.

Lemma nonpositive_add (p step : float) :
  nonpositive (Prim2SF p) → nonpositive (Prim2SF step) →
  nonpositive (Prim2SF (p + step)).
Proof.
  rewrite add_spec.
  pose proof (Prim2SF_valid p) as Hvp. pose proof (Prim2SF_valid step) as Hvs.
  destruct (Prim2SF p) as [sx|[]| |[] mx ex]; try done;
    destruct (Prim2SF step) as [sy|[]| |[] my ey]; try done; intros _ _;
    try (by destruct sx, sy); try (by destruct sx); try (by destruct sy).
  rewrite SFadd_neg_opp.
  by destruct (SFadd_pos_finite mx ex my ey Hvp Hvs) as [-> | (m & e & -> & _)].
Qed.

Lemma nonpositive_in_range (p : float) :
  nonpositive (Prim2SF p) → (p <=? p_max)%float = true.
Proof.
  rewrite leb_spec.
  assert (Prim2SF p_max = S754_finite false 4503599627820856 (-52)) as -> by reflexivity.
  unfold SFleb. by destruct (Prim2SF p) as [[]|[]| |[] m e].
Qed.

Lemma zero_add_out_of_range (step : float) :
  (step <=? p_max)%float = false → (0 + step <=? p_max)%float = false.
Proof.
  rewrite !leb_spec, add_spec, Prim2SF_zero.
  assert (Prim2SF p_max = S754_finite false 4503599627820856 (-52)) as -> by reflexivity.
  by destruct (Prim2SF step) as [[]|[]| |[] m e].
Qed.

End double_signs.

Section double_le.
Import UnionFind UnionFindFacts.

Lemma SFcompare_le_trans x y z :
  SFleb x y = true → SFleb y z = true → SFleb x z = true.
Proof.
  unfold SFleb.
  destruct x as [sx|sx| |sx mx ex], y as [sy|sy| |sy my ey], z as [sz|sz| |sz mz ez];
    simpl; try destruct sx; try destruct sy; try destruct sz; try done;
    change (PosDef.Pos.compare_cont Eq mx my) with (mx ?= my)%positive;
    change (PosDef.Pos.compare_cont Eq my mz) with (my ?= mz)%positive;
    change (PosDef.Pos.compare_cont Eq mx mz) with (mx ?= mz)%positive;
    destruct (Z.compare_spec ex ey), (Z.compare_spec ey ez), (Z.compare_spec ex ez);
    simpl; try done; try lia;
    destruct (Pos.compare_spec mx my), (Pos.compare_spec my mz), (Pos.compare_spec mx mz);
    simpl; try done; try lia.
Qed.

Lemma leb_trans (a b c : float) :
  (a <=? b)%float = true → (b <=? c)%float = true → (a <=? c)%float = true.
Proof. rewrite !leb_spec. apply SFcompare_le_trans. Qed.

Lemma ltb_leb (a b : float) : (a <? b)%float = true → (a <=? b)%float = true.
Proof.
  rewrite ltb_spec, leb_spec. unfold SFltb, SFleb.
  by destruct (SFcompare (Prim2SF a) (Prim2SF b)) as [[]|].
Qed.

Lemma leb_refl_nonneg (p : float) : (0 <=? p)%float = true → (p <=? p)%float = true.
Proof.
  rewrite !leb_spec, Prim2SF_zero. unfold SFleb.
  destruct (Prim2SF p) as [sx|sx| |sx mx ex]; simpl; try destruct sx; try done;
    change (PosDef.Pos.compare_cont Eq mx mx) with (mx ?= mx)%positive;
    by rewrite Z.compare_refl, Pos.compare_refl.
Qed.

Lemma threshold_mono step k :
  (0 <? step)%float = true →
  (threshold step k <=? threshold step (S k))%float = true.
Proof.
  intros Hstep. pose proof (threshold_nonneg step k Hstep) as Hk. simpl.
  destruct (add_step_order (threshold step k) step Hk Hstep) as [_ [Hlt | ->]].
  - by apply ltb_leb.
  - by apply leb_refl_nonneg.
Qed.

Lemma not_nan_spec (p : float) : PrimFloat.is_nan p = false → Prim2SF p ≠ S754_nan.
Proof.
  unfold PrimFloat.is_nan. rewrite FloatAxioms.eqb_spec. intros H Hn.
  rewrite Hn in H. discriminate.
Qed.

Lemma leb_refl (p : float) : PrimFloat.is_nan p = false → (p <=? p)%float = true.
Proof.
  intros Hp%not_nan_spec. rewrite leb_spec. unfold SFleb.
  destruct (Prim2SF p) as [sx|sx| |sx mx ex]; simpl; try destruct sx; try done;
    change (PosDef.Pos.compare_cont Eq mx mx) with (mx ?= mx)%positive;
    by rewrite Z.compare_refl, Pos.compare_refl.
Qed.

Lemma SFcompare_total x y :
  x ≠ S754_nan → y ≠ S754_nan → SFltb x y = false → SFleb y x = true.
Proof.
  unfold SFltb, SFleb.
  destruct x as [sx|sx| |sx mx ex], y as [sy|sy| |sy my ey];
    simpl; try destruct sx; try destruct sy; try done; intros _ _;
    change (PosDef.Pos.compare_cont Eq mx my) with (mx ?= my)%positive;
    change (PosDef.Pos.compare_cont Eq my mx) with (my ?= mx)%positive;
    rewrite (Z.compare_antisym ex ey), (Pos.compare_antisym mx my);
    destruct (ex ?= ey)%Z; simpl; try done; by destruct (mx ?= my)%positive.
Qed.

Lemma ltb_false_leb (p q : float) :
  PrimFloat.is_nan p = false → PrimFloat.is_nan q = false →
  (p <? q)%float = false → (q <=? p)%float = true.
Proof.
  intros Hp%not_nan_spec Hq%not_nan_spec. rewrite ltb_spec, leb_spec.
  by apply SFcompare_total.
Qed.

End double_le.

(** * Sequences of calls *)

Section running_maximum.
Import UnionFind UnionFindFacts.
Implicit Types (sp : SitePercolation).

Lemma activation_after_compose configuracion (p q : float) (act : list bool) :
  (p <=? q)%float = true →
  activation_after configuracion q (activation_after configuracion p act)
    = activation_after configuracion q act.
Proof.
  intros Hpq. apply list_eq. intros j. rewrite !activation_after_lookup.
  destruct (act !! j) as [a|]; simpl; [|done]. f_equal.
  destruct (configuracion !! j) as [w|]; simpl; [|by rewrite !orb_false_r].
  destruct a; simpl; [done|].
  destruct (w <=? p)%float eqn:Hw; simpl; [|done].
  symmetry. by apply (leb_trans w p q).
Qed.

(** After a sequence of calls whose thresholds are numbers, in any order:
    [current_p] is the largest of its initial value and the thresholds; if
    every threshold was below the initial [current_p] nothing was activated;
    otherwise the activation flags are those that one call at the final
    [current_p] gives. *)
Lemma run_steps_maximum sp aristas configuracion ps Smax :
  engine_wf sp → edges_ok (numNodos sp) aristas →
  numNodos sp ≤ length configuracion →
  PrimFloat.is_nan (current_p sp) = false →
  Forall (λ p, PrimFloat.is_nan p = false) ps →
  ∃ sp' Smax',
    run_steps sp aristas configuracion ps Smax = Some (sp', Smax') ∧
    engine_wf sp' ∧
    (current_p sp <=? current_p sp')%float = true ∧
    (∀ p, p ∈ ps → (p <=? current_p sp')%float = true) ∧
    (current_p sp' = current_p sp ∨ current_p sp' ∈ ps) ∧
    (Forall (λ p, (p <? current_p sp)%float = true) ps →
       current_p sp' = current_p sp ∧ nodoActivo sp' = nodoActivo sp) ∧
    (Exists (λ p, (p <? current_p sp)%float = false) ps →
       nodoActivo sp'
         = activation_after configuracion (current_p sp') (nodoActivo sp)).
Proof.
  intros Hwf Hok Hconf Hcur Hps. revert sp Smax Hwf Hok Hconf Hcur.
  induction Hps as [|p ps Hp _ IH]; intros sp Smax Hwf Hok Hconf Hcur; cbn [run_steps].
  { exists sp, Smax. split; [done|]. split; [done|]. split; [by apply leb_refl|].
    split; [by intros p ?%elem_of_nil|]. split; [by left|].
    split; [done|]. by intros ?%Exists_nil. }
  destruct (step_any sp aristas configuracion p Smax Hwf Hok Hconf)
    as (o & Hcall & Hwfo & HNo & _).
  rewrite Hcall.
  destruct (p <? current_p sp)%float eqn:Hlt.
  - rewrite (step_error sp aristas configuracion p Smax Hlt) in Hcall.
    injection Hcall as <-. simpl in *.
    destruct (IH sp Smax) as (sp' & Smax' & Hrun & Hwf' & Hle' & Hall & Hin & Hnone & Hsome);
      [done..|].
    exists sp', Smax'. split; [done|]. split; [done|]. split; [done|]. split.
    { intros q [->|Hq]%elem_of_cons; [|by apply Hall].
      apply (leb_trans _ (current_p sp)); [by apply ltb_leb | done]. }
    split. { destruct Hin as [-> | Hin]; [by left | right; by right]. }
    split.
    + intros [_ Hrest]%Forall_cons. by apply Hnone.
    + intros [Hhd | Htl]%Exists_cons; [congruence | by apply Hsome].
  - destruct (step_spec sp aristas configuracion p Smax Hwf Hok Hconf Hlt)
      as (o' & Hcall' & _ & Hpost).
    rewrite Hcall in Hcall'. injection Hcall' as <-.
    destruct Hpost as (_ & Hcp & _ & _ & _ & Hact & _).
    destruct (IH (so_engine o) (so_Smax o))
      as (sp' & Smax' & Hrun & Hwf' & Hle' & Hall & Hin & Hnone & Hsome);
      [done | by rewrite HNo | by rewrite HNo | by rewrite Hcp |].
    rewrite Hcp in Hle', Hin, Hnone, Hsome.
    exists sp', Smax'. split; [done|]. split; [done|].
    split. { apply (leb_trans _ p); [by apply ltb_false_leb | done]. }
    split. { intros q [->|Hq]%elem_of_cons; [done | by apply Hall]. }
    split. { destruct Hin as [-> | Hin]; right; [left | by right]. }
    split.
    + intros [Hhd _]%Forall_cons. congruence.
    + intros _.
      destruct (decide (Exists (λ q, (q <? p)%float = false) ps)) as [Hex | Hno].
      * rewrite (Hsome Hex), Hact. by apply activation_after_compose.
      * destruct Hnone as [-> ->]; [|by rewrite Hact].
        apply Forall_forall. intros q Hq. apply not_false_iff_true. intros Hq'.
        apply Hno, Exists_exists. by exists q.
Qed.

(** X2. [current_p] is the running maximum of the thresholds.  A call of
    the incremental step never lowers it: the new [current_p] is the old
    one (refused call) or [p], and it is not below the old one; the call
    leaves [numNodos], the two terminals and [p_c] as they were.  And after
    any sequence of calls whose thresholds are numbers, given in any order,
    on an engine in range: every call returns, [current_p] is at least its
    initial value and every threshold passed, and is one of them; if every
    threshold was below the initial [current_p] no flag has changed;
    otherwise the activation flags are those that a single call at the
    final [current_p] gives. *)
Theorem X2_threshold_is_the_running_maximum
    (sp : SitePercolation) (aristas : list Edge) (configuracion : list float) :
  (∀ p Smax o,
     generate_single_percolation sp aristas configuracion p Smax = Some o →
     (current_p (so_engine o) <? current_p sp)%float = false ∧
     (current_p (so_engine o) = current_p sp ∨ current_p (so_engine o) = p) ∧
     numNodos (so_engine o) = numNodos sp ∧
     superTop (so_engine o) = superTop sp ∧
     superBottom (so_engine o) = superBottom sp ∧
     p_c (so_engine o) = p_c sp) ∧
  (engine_wf sp → edges_ok (numNodos sp) aristas →
   numNodos sp ≤ length configuracion →
   PrimFloat.is_nan (current_p sp) = false →
   ∀ ps Smax, Forall (λ p, PrimFloat.is_nan p = false) ps →
     ∃ sp' Smax',
       run_steps sp aristas configuracion ps Smax = Some (sp', Smax') ∧
       (current_p sp <=? current_p sp')%float = true ∧
       (∀ p, p ∈ ps → (p <=? current_p sp')%float = true) ∧
       (current_p sp' = current_p sp ∨ current_p sp' ∈ ps) ∧
       (Forall (λ p, (p <? current_p sp)%float = true) ps →
          current_p sp' = current_p sp ∧ nodoActivo sp' = nodoActivo sp) ∧
       (Exists (λ p, (p <? current_p sp)%float = false) ps →
          nodoActivo sp'
            = activation_after configuracion (current_p sp') (nodoActivo sp))).
Proof.
  split.
  - intros p Smax o. unfold generate_single_percolation.
    destruct (p <? current_p sp)%float eqn:Hp.
    { intros [= <-]. simpl. split; [apply ltb_irrefl|]. split; [by left | done]. }
    destruct (for_each (activate_node _ _) _ _) as [act|]; [|done].
    destruct (for_each (connect_edge act) _ _) as [[[u aux] Smax']|]; [|done].
    intros [= <-]. simpl. split; [done|]. split; [by right | done].
  - intros Hwf Hok Hconf Hcur ps Smax Hps.
    destruct (run_steps_maximum sp aristas configuracion ps Smax Hwf Hok Hconf Hcur Hps)
      as (sp' & Smax' & Hrun & _ & Hrest).
    by exists sp', Smax'.
Qed.

(** The scenario called at 0.5, 0.2, 0.9 and 0.3 in this order: the call at
    0.2 and the call at 0.3 are refused, and [current_p] ends at 0.9. *)
Lemma X2_witness :
  ∃ sp' Smax',
    run_steps (SitePercolation_new 4) [(0, 1); (0, 2); (1, 3); (2, 3)]
      [0.1; 0.9; 0.2; 0.8]%float [0.5; 0.2; 0.9; 0.3]%float 1 = Some (sp', Smax') ∧
    (0.9 <=? current_p sp')%float = true.
Proof.
  destruct (X2_threshold_is_the_running_maximum (SitePercolation_new 4)
              [(0, 1); (0, 2); (1, 3); (2, 3)] [0.1; 0.9; 0.2; 0.8]%float)
    as [_ Hseq].
  destruct (Hseq (new_engine_wf 4) scenario_edges_ok) with
    (ps := [0.5; 0.2; 0.9; 0.3]%float) (Smax := 1%Z)
    as (sp' & Smax' & Hrun & _ & Hall & _).
  { simpl. lia. }
  { reflexivity. }
  { repeat constructor. }
  exists sp', Smax'. split; [exact Hrun|]. apply Hall.
  apply elem_of_cons. right. apply elem_of_cons. right. apply elem_of_cons. left.
  reflexivity.
Defined.

End running_maximum.

(** * Sweeps on fresh engines, and degenerate steps *)

Section sweep_edges.
Import UnionFind UnionFindFacts.
Implicit Types (sp : SitePercolation) (s : sweep_state).

(** What one iteration of the sweep leaves in the engine, in terms of the
    call of the incremental step it makes. *)
Lemma sweep_body_engine aristas configuracion step visualization s s' :
  engine_wf (sw_engine s) → edges_ok (numNodos (sw_engine s)) aristas →
  numNodos (sw_engine s) ≤ length configuracion →
  sweep_body aristas configuracion step visualization s = Some s' →
  ∃ o,
    generate_single_percolation (sw_engine s) aristas configuracion (sw_p s) (sw_Smax s)
      = Some o ∧
    engine_wf (so_engine o) ∧ engine_wf (sw_engine s') ∧
    numNodos (sw_engine s') = numNodos (sw_engine s) ∧
    current_p (sw_engine s') = current_p (so_engine o) ∧
    nodoActivo (sw_engine s') = nodoActivo (so_engine o) ∧
    partition_of (uf (sw_engine s')) = partition_of (uf (so_engine o)) ∧
    partition_of (uf_aux (sw_engine s')) = partition_of (uf_aux (so_engine o)) ∧
    superTop (sw_engine s') = superTop (sw_engine s) ∧
    superBottom (sw_engine s') = superBottom (sw_engine s) ∧
    sw_p s' = (sw_p s + step)%float ∧
    sw_Smax s' = so_Smax o ∧
    sw_cerr s' = sw_cerr s ++ so_cerr o ∧
    resultados s' = resultados s ++
      [(sw_p s, so_ret o, so_Smax o,
        (double_of_int (so_Smax o)
         / double_of_int (Z.of_nat (numNodos (sw_engine s))))%float)].
Proof.
  intros Hwf Hok Hconf Hbody.
  destruct (step_any (sw_engine s) aristas configuracion (sw_p s) (sw_Smax s)
              Hwf Hok Hconf) as (o & Hcall & Hwf1 & HN & Ht & Hb & _).
  unfold sweep_body in Hbody. rewrite Hcall in Hbody.
  set (r := (sw_p s, so_ret o, so_Smax o,
             (double_of_int (so_Smax o)
              / double_of_int (Z.of_nat (numNodos (so_engine o))))%float) : record) in *.
  destruct (write_files_spec visualization s (so_engine o) r Hwf1) as (Hwf2 & Hset2 & Hpart2).
  pose proof (write_files_engine visualization s (so_engine o) r)
    as (Hx1 & HN1 & Hc1 & Ha1 & Ht1 & Hb1 & _).
  destruct (write_files visualization s (so_engine o) r) as [[sp1 report] clusters].
  simpl in Hwf2, Hset2, Hpart2, Hx1, HN1, Hc1, Ha1, Ht1, Hb1.
  destruct (check_percolation_spec s sp1 (sw_p s) Hwf2)
    as (Hwf3 & Huf3 & HN3 & Ha3 & Hc3 & Ht3 & Hb3 & Hx3 & _).
  destruct (check_percolation s sp1 (sw_p s)) as [[sp2 flag] cout]. simpl in *.
  injection Hbody as <-. simpl. exists o.
  split; [done|]. split; [done|]. split; [done|]. split; [congruence|].
  split; [congruence|]. split; [congruence|]. split; [by rewrite Huf3|].
  split; [by rewrite Hx3, Hx1|]. split; [congruence|]. split; [congruence|].
  do 3 (split; [done|]). unfold r. by rewrite HN.
Qed.

(** X12. A sweep with a positive step on an engine whose threshold is not
    above zero (a fresh engine has 0.0) never triggers the ordering error:
    every number of iterations is defined, nothing is sent to [cerr], and
    after [m >= 1] iterations [current_p] is the threshold of the last
    iteration. *)
Theorem X12_fresh_sweep_is_never_refused
    (sp : SitePercolation) (aristas : list Edge) (configuracion : list float)
    (step : float) (visualization : bool) (m : nat) :
  engine_wf sp → edges_ok (numNodos sp) aristas →
  numNodos sp ≤ length configuracion →
  (0 <? current_p sp)%float = false →
  (0 <? step)%float = true →
  ∃ sm, sweep_iterations m aristas configuracion step visualization
          (sweep_init sp visualization) = Some sm ∧
        sw_cerr sm = [] ∧
        (1 ≤ m → current_p (sw_engine sm) = threshold step (m - 1)).
Proof.
  intros Hwf Hok Hconf Hcur Hstep.
  destruct (sweep_init_wf sp visualization Hwf) as [Hwf0 HN0].
  assert (∃ sm, sweep_iterations m aristas configuracion step visualization
                  (sweep_init sp visualization) = Some sm ∧
                sw_cerr sm = [] ∧ sw_p sm = threshold step m ∧
                (sw_p sm <? current_p (sw_engine sm))%float = false ∧
                (1 ≤ m → current_p (sw_engine sm) = threshold step (m - 1)))
    as (sm & Hm & Herr & _ & _ & Hlast); [|by exists sm].
  induction m as [|m IH].
  { eexists. split; [done|]. split; [done|]. split; [done|]. split; [done | lia]. }
  destruct IH as (sk & Hk & Herr & Hp & Hpass & _).
  destruct (sweep_iterations_inv m aristas configuracion step visualization
              (sweep_init sp visualization)) as (sk' & Hk' & Hwfk & HNk & _);
    [done | by rewrite HN0 | by rewrite HN0 |].
  rewrite Hk in Hk'. injection Hk' as <-.
  destruct (sweep_body_spec aristas configuracion step visualization sk)
    as (s' & o' & Hbody & _); [done | by rewrite HNk, HN0 | by rewrite HNk, HN0 |].
  destruct (sweep_body_engine aristas configuracion step visualization sk s')
    as (o & Hcall & _ & _ & _ & Hcur' & _ & _ & _ & _ & _ & Hp' & _ & Herr' & _);
    [done | by rewrite HNk, HN0 | by rewrite HNk, HN0 | done |].
  destruct (step_spec (sw_engine sk) aristas configuracion (sw_p sk) (sw_Smax sk))
    as (o2 & Hcall2 & _ & Hpost); [done | by rewrite HNk, HN0 | by rewrite HNk, HN0 | done |].
  rewrite Hcall in Hcall2. injection Hcall2 as <-.
  destruct Hpost as (_ & Hcp & _ & _ & _ & _ & _ & _ & _ & _ & Hnoerr).
  exists s'. rewrite sweep_iterations_succ, Hk. split; [done|].
  split; [by rewrite Herr', Herr, Hnoerr|].
  split; [by rewrite Hp', Hp|].
  split.
  - rewrite Hcur', Hcp, Hp', Hp.
    destruct (add_step_order (threshold step m) step) as [_ [Hlt | ->]];
      [by apply threshold_nonneg | done | by apply ltb_asym | apply ltb_irrefl].
  - intros _. rewrite Hcur', Hcp, Hp. f_equal. lia.
Qed.

(** The scenario swept with step 0.5 for three iterations. *)
Lemma X12_witness :
  ∃ sm, sweep_iterations 3 [(0, 1); (0, 2); (1, 3); (2, 3)] [0.1; 0.9; 0.2; 0.8]%float
          0.5%float false (sweep_init (SitePercolation_new 4) false) = Some sm ∧
        sw_cerr sm = [].
Proof.
  destruct (X12_fresh_sweep_is_never_refused (SitePercolation_new 4)
              [(0, 1); (0, 2); (1, 3); (2, 3)] [0.1; 0.9; 0.2; 0.8]%float
              0.5%float false 3 (new_engine_wf 4) scenario_edges_ok)
    as (sm & Hm & Herr & _).
  { simpl. lia. }
  { reflexivity. }
  { reflexivity. }
  exists sm. split; [exact Hm | exact Herr].
Defined.

(** With a step that is zero or negative the loop variable never leaves
    the interval. *)
Lemma sweep_loop_nonpositive_step fuel aristas configuracion step visualization s :
  engine_wf (sw_engine s) → edges_ok (numNodos (sw_engine s)) aristas →
  numNodos (sw_engine s) ≤ length configuracion →
  nonpositive (Prim2SF step) → nonpositive (Prim2SF (sw_p s)) →
  sweep_loop fuel aristas configuracion step visualization s = OutOfFuel.
Proof.
  intros Hwf Hok Hconf Hstep. revert s Hwf Hok Hconf.
  induction fuel as [|fuel IH]; intros s Hwf Hok Hconf Hp; simpl; [done|].
  rewrite (nonpositive_in_range (sw_p s) Hp).
  destruct (sweep_body_spec aristas configuracion step visualization s Hwf Hok Hconf)
    as (t & o & -> & _ & Hwft & HNt & Hpt & _).
  apply IH; [done | by rewrite HNt | by rewrite HNt |].
  rewrite Hpt. by apply nonpositive_add.
Qed.

(** X14. A sweep with a step that is zero, negative or minus infinity
    never returns: the loop variable stays at or below zero, so the loop
    condition [p <= 1.0 + 1e-10] never fails, whatever the number of
    iterations allowed. *)
Theorem X14_nonpositive_step_never_returns
    (sp : SitePercolation) (aristas : list Edge) (configuracion : list float)
    (step : float) (visualization : bool) (fuel : nat) :
  engine_wf sp → edges_ok (numNodos sp) aristas →
  numNodos sp ≤ length configuracion →
  (step <=? 0)%float = true →
  generate_full_percolation fuel sp aristas configuracion step visualization = OutOfFuel.
Proof.
  intros Hwf Hok Hconf Hstep. unfold generate_full_percolation.
  destruct (sweep_init_wf sp visualization Hwf) as [Hwf0 HN0].
  apply sweep_loop_nonpositive_step;
    [done | by rewrite HN0 | by rewrite HN0 | by apply nonpositive_leb_zero | done].
Qed.

(** The scenario with step -0.25 and ten iterations allowed. *)
Lemma X14_witness :
  generate_full_percolation 10 (SitePercolation_new 4)
    [(0, 1); (0, 2); (1, 3); (2, 3)] [0.1; 0.9; 0.2; 0.8]%float (-0.25)%float false
  = OutOfFuel.
Proof.
  apply (X14_nonpositive_step_never_returns (SitePercolation_new 4)
           [(0, 1); (0, 2); (1, 3); (2, 3)] [0.1; 0.9; 0.2; 0.8]%float
           (-0.25)%float false 10 (new_engine_wf 4) scenario_edges_ok).
  - simpl. lia.
  - reflexivity.
Defined.

(** X15. A sweep with a step that fails [step <= 1.0 + 1e-10] (a step
    above the bound, plus infinity, or NaN) returns after one iteration with
    exactly one record, the one of the incremental step at [p = 0.0]. *)
Theorem X15_oversized_step_gives_one_record
    (sp : SitePercolation) (aristas : list Edge) (configuracion : list float)
    (step : float) (visualization : bool) (fuel : nat) :
  engine_wf sp → edges_ok (numNodos sp) aristas →
  numNodos sp ≤ length configuracion →
  (step <=? p_max)%float = false →
  2 ≤ fuel →
  ∃ s' o,
    generate_full_percolation fuel sp aristas configuracion step visualization
      = Returns s' ∧
    generate_single_percolation (initialize_supernodes sp) aristas configuracion 0 1
      = Some o ∧
    resultados s' =
      [(0%float, so_ret o, so_Smax o,
        (double_of_int (so_Smax o) / double_of_int (Z.of_nat (numNodos sp)))%float)].
Proof.
  intros Hwf Hok Hconf Hstep Hfuel. unfold generate_full_percolation.
  destruct (sweep_init_wf sp visualization Hwf) as [Hwf0 HN0].
  destruct (sweep_body_spec aristas configuracion step visualization
              (sweep_init sp visualization))
    as (s' & o & Hbody & Hcall & _ & _ & Hp & _ & Hres & _);
    [done | by rewrite HN0 | by rewrite HN0 |].
  exists s', o. split; [|split; [exact Hcall | exact Hres]].
  apply (sweep_loop_enough 1); [by simpl; rewrite Hbody | | | lia].
  - rewrite Hp. by apply zero_add_out_of_range.
  - intros k sk Hk. assert (k = 0) as -> by lia. by intros [= <-].
Qed.

(** The scenario with step 2.0. *)
Lemma X15_witness :
  ∃ s', generate_full_percolation 2 (SitePercolation_new 4)
          [(0, 1); (0, 2); (1, 3); (2, 3)] [0.1; 0.9; 0.2; 0.8]%float 2%float false
        = Returns s' ∧ length (resultados s') = 1.
Proof.
  destruct (X15_oversized_step_gives_one_record (SitePercolation_new 4)
              [(0, 1); (0, 2); (1, 3); (2, 3)] [0.1; 0.9; 0.2; 0.8]%float
              2%float false 2 (new_engine_wf 4) scenario_edges_ok)
    as (s' & o & Hret & _ & Hres).
  { simpl. lia. }
  { reflexivity. }
  { lia. }
  exists s'. split; [exact Hret|]. rewrite Hres. reflexivity.
Defined.

End sweep_edges.

(** * Clusters as connected components *)

Section closure.
Import UnionFind UnionFindFacts.
Implicit Types (R s : list nat) (x y a b : nat).

Lemma rtsc_closure (G H : relation nat) x y :
  (∀ u v, G u v → rtsc H u v) → rtsc G x y → rtsc H x y.
Proof.
  intros Hsub Hxy. induction Hxy as [x | x y z Hstep _ IH]; [done|].
  etrans; [|exact IH]. destruct Hstep as [Hg | Hg].
  - by apply Hsub.
  - symmetry. by apply Hsub.
Qed.

(** [unite a b] joins the components of [a] and [b] and nothing else. *)
Lemma merge_reps_rel R s a b x y :
  valid_reps R s → a < length R → b < length R →
  rep_at (merge_reps R s a b).1 x = rep_at (merge_reps R s a b).1 y ↔
  rep_at R x = rep_at R y ∨
  (rep_at R x = rep_at R a ∧ rep_at R y = rep_at R b) ∨
  (rep_at R x = rep_at R b ∧ rep_at R y = rep_at R a).
Proof.
  intros (Hlen & Hrange & Hidem) Ha Hb. unfold merge_reps.
  pose proof (Hrange a Ha) as Hra. pose proof (Hrange b Hb) as Hrb.
  assert (∀ z c, c < length R → rep_at R z = c → z < length R) as Hin.
  { intros z c Hc Hz. destruct (decide (z < length R)); [done|].
    rewrite (rep_at_ge R z) in Hz by lia. lia. }
  assert (∀ c d, c < length R → c ≠ d →
            (rep_at (relabel c d R) x = rep_at (relabel c d R) y ↔
             rep_at R x = rep_at R y ∨ (rep_at R x = c ∧ rep_at R y = d) ∨
             (rep_at R x = d ∧ rep_at R y = c))) as Hrel.
  { intros c d Hc Hne. rewrite !rep_at_relabel.
    destruct (decide (rep_at R x = c ∧ x < length R)) as [[Hx Hxl]|Hx],
             (decide (rep_at R y = c ∧ y < length R)) as [[Hy Hyl]|Hy].
    - split; [intros _; left; congruence | done].
    - split.
      + intros Hd. right. left. done.
      + intros [Hxy | [[_ Hd] | [Hd _]]]; [|done|congruence].
        destruct Hy. split; [congruence|]. apply (Hin y c Hc). congruence.
    - split.
      + intros Hd. right. right. done.
      + intros [Hxy | [[_ Hd] | [Hd _]]]; [|congruence|done].
        destruct Hx. split; [congruence|]. apply (Hin x c Hc). congruence.
    - split; [by left|].
      intros [Hxy | [[Hc' _] | [_ Hc']]]; [done| |].
      + destruct Hx. split; [done|]. by apply (Hin x c Hc).
      + destruct Hy. split; [done|]. by apply (Hin y c Hc). }
  case_decide as Heq; simpl.
  { split; [by left|]. intros [Hxy | [[Hx Hy] | [Hx Hy]]]; congruence. }
  case_decide; simpl; rewrite Hrel by done; [done|].
  split; (intros [Hxy | [Hxy | Hxy]]; [by left | right; by right | right; by left]).
Qed.

Lemma merge_pair_valid R s (e : nat * nat) :
  valid_reps R s → e.1 < length R → e.2 < length R →
  valid_reps (merge_pair (R, s) e).1 (merge_pair (R, s) e).2 ∧
  length (merge_pair (R, s) e).1 = length R.
Proof.
  intros Hv H1 H2. unfold merge_pair. simpl.
  split; [by apply merge_reps_valid | apply merge_reps_length].
Qed.

(** A sequence of [unite] calls yields the equivalence generated by the
    components it started from and the pairs united. *)
Lemma merge_all_rel (pairs : list (nat * nat)) R s x y :
  valid_reps R s →
  Forall (λ e, e.1 < length R ∧ e.2 < length R) pairs →
  rep_at (foldl merge_pair (R, s) pairs).1 x = rep_at (foldl merge_pair (R, s) pairs).1 y ↔
  rtsc (λ u v, rep_at R u = rep_at R v ∨ (u, v) ∈ pairs) x y.
Proof.
  intros Hv Hok. revert R s Hv Hok x y.
  induction pairs as [|e pairs IH]; intros R s Hv Hok x y; cbn [foldl].
  - simpl. split.
    + intros Hxy. apply rtsc_lr. by left.
    + intros Hxy. induction Hxy as [x | x y z Hstep _ IHz]; [done|].
      rewrite <- IHz. destruct Hstep as [[Hg|Hg%elem_of_nil] | [Hg|Hg%elem_of_nil]]; done.
  - apply Forall_cons in Hok as [[He1 He2] Hok].
    destruct (merge_pair_valid R s e Hv He1 He2) as [Hv1 Hl1].
    assert (∀ u v,
              rep_at (merge_pair (R, s) e).1 u = rep_at (merge_pair (R, s) e).1 v ↔
              rep_at R u = rep_at R v ∨
              (rep_at R u = rep_at R e.1 ∧ rep_at R v = rep_at R e.2) ∨
              (rep_at R u = rep_at R e.2 ∧ rep_at R v = rep_at R e.1)) as Hrel.
    { intros u v. by apply merge_reps_rel. }
    destruct (merge_pair (R, s) e) as [R1 s1] eqn:Hm. simpl in Hv1, Hl1, Hrel.
    rewrite IH by (done || by rewrite Hl1). split; apply rtsc_closure.
    + intros u v [Huv | Hin]; [|apply rtsc_lr; right; by right].
      apply Hrel in Huv as [Huv | [[Hu Hv'] | [Hu Hv']]].
      * apply rtsc_lr. by left.
      * trans e.1; [apply rtsc_lr; by left|].
        trans e.2; [apply rtsc_lr; right; apply elem_of_cons; left; by destruct e|].
        apply rtsc_lr. by left.
      * trans e.2; [apply rtsc_lr; by left|].
        trans e.1; [apply rtsc_rl; right; apply elem_of_cons; left; by destruct e|].
        apply rtsc_lr. by left.
    + intros u v [Huv | [Heq|Hin]%elem_of_cons].
      * apply rtsc_lr. left. apply Hrel. by left.
      * subst e. apply rtsc_lr. left. apply Hrel. right. by left.
      * apply rtsc_lr. by right.
Qed.

Lemma connect_aux_abs_filter act aristas (st : list nat * list nat) :
  foldl (connect_aux_abs act) st aristas
  = foldl merge_pair st (filter (λ e, both_active act e = true) aristas).
Proof.
  revert st. induction aristas as [|e aristas IH]; intros st; cbn [foldl]; [done|].
  unfold connect_aux_abs at 2.
  destruct (both_active act e) eqn:He.
  - rewrite filter_cons_True by done. cbn [foldl]. apply IH.
  - rewrite filter_cons_False by congruence. apply IH.
Qed.

Lemma active_edge_filter act aristas u v :
  (u, v) ∈ filter (λ e, both_active act e = true) aristas ↔ active_edge act aristas u v.
Proof.
  rewrite list_elem_of_filter. unfold both_active, active_edge. simpl.
  rewrite bool_decide_eq_true. naive_solver.
Qed.

(** The connection loop yields the equivalence generated by the components
    it started from and the edges with both endpoints active. *)
Lemma connect_loop_rel act aristas R s x y :
  valid_reps R s → edges_ok (length R) aristas →
  rep_at (foldl (connect_aux_abs act) (R, s) aristas).1 x
    = rep_at (foldl (connect_aux_abs act) (R, s) aristas).1 y ↔
  rtsc (λ u v, rep_at R u = rep_at R v ∨ active_edge act aristas u v) x y.
Proof.
  intros Hv Hok. rewrite connect_aux_abs_filter, merge_all_rel; [|done|].
  - split; apply rtsc_closure; intros u v [Huv | Hin]; apply rtsc_lr;
      (by left) || (right; by apply active_edge_filter).
  - apply Forall_forall. intros e [_ He]%list_elem_of_filter.
    unfold edges_ok in Hok. rewrite Forall_forall in Hok. by apply Hok.
Qed.

End closure.

Section clusters.
Import UnionFind UnionFindFacts.
Implicit Types (sp : SitePercolation) (act : list bool).

Lemma active_edge_mono act act' aristas u v :
  (∀ i, act !! i = Some true → act' !! i = Some true) →
  active_edge act aristas u v → active_edge act' aristas u v.
Proof. intros Hmono (Hin & Hu & Hv). split; [done|]. split; by apply Hmono. Qed.

Lemma activation_after_mono configuracion p act i :
  act !! i = Some true → activation_after configuracion p act !! i = Some true.
Proof. intros Hi. by rewrite activation_after_lookup, Hi. Qed.

Lemma clusters_exact_same aristas sp sp' :
  reps (uf sp') = reps (uf sp) → nodoActivo sp' = nodoActivo sp →
  clusters_exact aristas sp → clusters_exact aristas sp'.
Proof.
  intros HR Hact Hex x y. unfold same_cluster. rewrite HR, Hact. apply Hex.
Qed.

Lemma new_clusters_exact n aristas : clusters_exact aristas (SitePercolation_new n).
Proof.
  intros x y. unfold same_cluster, connected. simpl. rewrite new_reps.
  assert (∀ z, rep_at (seq 0 n) z = z) as Hid.
  { intros z. unfold rep_at. destruct (decide (z < n)).
    - by rewrite lookup_seq_lt.
    - by rewrite lookup_seq_ge by lia. }
  rewrite !Hid. split; [by intros ->|].
  intros Hxy. induction Hxy as [x | x y z Hstep _ IH]; [done|].
  assert (∀ a b, ¬ active_edge (replicate n false) aristas a b) as Hno.
  { intros a b (_ & Ha & _). apply lookup_replicate in Ha as [? _]. done. }
  destruct Hstep as [H | H]; by apply Hno in H.
Qed.

Lemma step_clusters_exact sp aristas configuracion p Smax o :
  engine_wf sp → edges_ok (numNodos sp) aristas →
  numNodos sp ≤ length configuracion →
  clusters_exact aristas sp →
  generate_single_percolation sp aristas configuracion p Smax = Some o →
  clusters_exact aristas (so_engine o).
Proof.
  intros Hwf Hok Hconf Hex Hcall.
  destruct (p <? current_p sp)%float eqn:Hp.
  { rewrite (step_error sp aristas configuracion p Smax Hp) in Hcall.
    by injection Hcall as <-. }
  destruct (step_spec sp aristas configuracion p Smax Hwf Hok Hconf Hp)
    as (o' & Hcall' & Hwf' & Hpost).
  rewrite Hcall in Hcall'. injection Hcall' as <-.
  destruct Hpost as (_ & _ & _ & _ & _ & Hact & Hpart & _).
  destruct Hwf as (Hu & _ & Hl & _).
  intros x y. unfold same_cluster, connected. rewrite Hact.
  assert (reps (uf (so_engine o)) =
          (foldl (connect_aux_abs (activation_after configuracion p (nodoActivo sp)))
                 (reps (uf sp), sizes (uf sp)) aristas).1) as ->.
  { rewrite (connect_aux_abs_proj _ aristas _ _ Smax). unfold partition_of in Hpart.
    by rewrite <- Hpart. }
  rewrite connect_loop_rel; [| by apply wf_valid_reps | by rewrite reps_length, Hl].
  split; apply rtsc_closure.
  - intros u v [Huv | Hedge]; [|by apply rtsc_lr].
    apply (Hex u v) in Huv. revert Huv. apply rtsc_closure.
    intros a b Hab. apply rtsc_lr. revert Hab. apply active_edge_mono.
    intros i. apply activation_after_mono.
  - intros u v Hedge. apply rtsc_lr. by right.
Qed.

Lemma sweep_clusters_exact m aristas configuracion step visualization s sm :
  engine_wf (sw_engine s) → edges_ok (numNodos (sw_engine s)) aristas →
  numNodos (sw_engine s) ≤ length configuracion →
  clusters_exact aristas (sw_engine s) →
  sweep_iterations m aristas configuracion step visualization s = Some sm →
  clusters_exact aristas (sw_engine sm).
Proof.
  intros Hwf Hok Hconf Hex. revert sm. induction m as [|m IH]; intros sm Hm.
  { simpl in Hm. by injection Hm as <-. }
  rewrite sweep_iterations_succ in Hm.
  destruct (sweep_iterations_inv m aristas configuracion step visualization s Hwf Hok Hconf)
    as (sk & Hk & Hwfk & HNk & _).
  rewrite Hk in Hm. specialize (IH sk Hk).
  destruct (sweep_body_engine aristas configuracion step visualization sk sm)
    as (o & Hcall & _ & _ & _ & _ & Hact & Hpart & _);
    [done | by rewrite HNk | by rewrite HNk | done |].
  injection Hpart as HR _.
  apply (clusters_exact_same aristas (so_engine o)); [done | done |].
  apply (step_clusters_exact (sw_engine sk) aristas configuracion (sw_p sk) (sw_Smax sk));
    [done | by rewrite HNk | by rewrite HNk | done | done].
Qed.

(** X6. The clusters are the connected components of the active graph.
    The property "two nodes have the same representative in the primary
    structure exactly when a chain of edges with both endpoints active
    joins them" holds on a fresh engine, is kept by every call of the
    incremental step with the same edge list (accepted or refused), and so
    holds after any number of iterations of a sweep on a fresh engine. *)
Theorem X6_clusters_are_active_connectivity
    (n : nat) (aristas : list Edge) (configuracion : list float) :
  edges_ok n aristas → n ≤ length configuracion →
  clusters_exact aristas (SitePercolation_new n) ∧
  (∀ sp p Smax o,
     engine_wf sp → numNodos sp = n → clusters_exact aristas sp →
     generate_single_percolation sp aristas configuracion p Smax = Some o →
     clusters_exact aristas (so_engine o)) ∧
  (∀ step visualization m sm,
     sweep_iterations m aristas configuracion step visualization
       (sweep_init (SitePercolation_new n) visualization) = Some sm →
     clusters_exact aristas (sw_engine sm)).
Proof.
  intros Hok Hconf. split; [apply new_clusters_exact|]. split.
  - intros sp p Smax o Hwf HN Hex Hcall.
    apply (step_clusters_exact sp aristas configuracion p Smax);
      [done | by rewrite HN | by rewrite HN | done | done].
  - intros step visualization m sm Hm.
    apply (sweep_clusters_exact m aristas configuracion step visualization
             (sweep_init (SitePercolation_new n) visualization));
      [apply initialize_supernodes_wf, new_engine_wf | done | done | | done].
    apply (clusters_exact_same aristas (SitePercolation_new n)); [done | done |].
    apply new_clusters_exact.
Qed.

(** The fresh 4-node engine of the scenario. *)
Lemma X6_witness :
  clusters_exact [(0, 1); (0, 2); (1, 3); (2, 3)] (SitePercolation_new 4).
Proof.
  assert (4 ≤ length [0.1; 0.9; 0.2; 0.8]%float) as Hlen by (simpl; lia).
  exact (proj1 (X6_clusters_are_active_connectivity 4
                  [(0, 1); (0, 2); (1, 3); (2, 3)] [0.1; 0.9; 0.2; 0.8]%float
                  scenario_edges_ok Hlen)).
Defined.

End clusters.

(** * Percolation as a spanning cluster *)

Section spanning.
Import UnionFind UnionFindFacts.
Implicit Types (sp : SitePercolation) (act : list bool).

Lemma unite_all_abs (u : UnionFind.t) (l : list (nat * nat)) :
  wf u → Forall (λ e, e.1 < length (parent u) ∧ e.2 < length (parent u)) l →
  partition_of (foldl (λ ua e, unite ua e.1 e.2) u l)
    = foldl merge_pair (partition_of u) l.
Proof.
  intros Hwf Hl. revert u Hwf Hl.
  induction l as [|e l IH]; intros u Hwf Hl; cbn [foldl]; [done|].
  apply Forall_cons in Hl as [[He1 He2] Hl].
  rewrite IH; [| by apply unite_wf | by rewrite unite_length].
  f_equal. unfold partition_of, merge_pair. simpl. by apply unite_abs.
Qed.

Lemma supernode_links_ok sp :
  engine_wf sp →
  Forall (λ e, e.1 < length (parent (uf_aux sp)) ∧ e.2 < length (parent (uf_aux sp)))
         (supernode_links sp).
Proof.
  intros (Hu & Haux & Hlu & Hla & Hact & Htop & Hbot).
  apply Forall_forall. intros [a b] (i & Hi & Hab)%supernode_links_spec.
  pose proof (Nat.sqrt_le_lin (numNodos sp)). unfold grid_size in *.
  destruct Hab as [Hab|Hab]; injection Hab as -> ->; simpl; lia.
Qed.

Lemma connected_range act aristas x y :
  connected act aristas x y → x = y ∨ (x < length act ∧ y < length act).
Proof.
  intros Hxy. induction Hxy as [x | x y z Hstep _ IH]; [by left|].
  right. assert (x < length act ∧ y < length act) as [Hx Hy].
  { destruct Hstep as [(_ & Hu & Hv) | (_ & Hu & Hv)];
      apply lookup_lt_Some in Hu, Hv; done. }
  destruct IH as [<- | [_ Hz]]; done.
Qed.

(** The top terminal and the bottom terminal are wired together exactly
    when a node of the top row is connected to a node of the bottom row. *)
Lemma wired_spans sp act aristas :
  engine_wf sp → length act = numNodos sp →
  rtsc (wired sp act aristas) (superTop sp) (superBottom sp) ↔
  spans act aristas (numNodos sp).
Proof.
  intros (_ & _ & _ & _ & _ & Htop & Hbot) Hlen. rewrite Htop, Hbot.
  set (N := numNodos sp) in *. set (side := grid_size N).
  assert (side ≤ N) as Hside by apply Nat.sqrt_le_lin.
  set (Q := connected act aristas).
  assert (∀ x y, Q x y → x = y ∨ (x < N ∧ y < N)) as Hrange.
  { intros x y Hxy. rewrite <- Hlen. apply (connected_range act aristas x y Hxy). }
  assert (∀ u v, (u, v) ∈ supernode_links sp ↔
            ∃ i, i < side ∧ ((u, v) = (N, i) ∨ (u, v) = (N + 1, N - side + i))) as Hlinks.
  { intros u v. rewrite supernode_links_spec, Htop, Hbot. done. }
  split.
  - set (tg := λ x, x = N ∨ ∃ i, i < side ∧ Q x i).
    set (bg := λ x, x = N + 1 ∨ ∃ j, j < side ∧ Q x (N - side + j)).
    set (I := λ x y, spans act aristas N ∨ Q x y ∨ (tg x ∧ tg y) ∨ (bg x ∧ bg y)).
    assert (∀ x y, Q x y → tg y → tg x) as Htg.
    { intros x y Hxy [-> | (i & Hi & Hyi)].
      - left. destruct (Hrange _ _ Hxy) as [? | [_ ?]]; [done | lia].
      - right. exists i. split; [done|]. by trans y. }
    assert (∀ x y, Q x y → bg y → bg x) as Hbg.
    { intros x y Hxy [-> | (j & Hj & Hyj)].
      - left. destruct (Hrange _ _ Hxy) as [? | [_ ?]]; [done | lia].
      - right. exists j. split; [done|]. by trans y. }
    assert (∀ y, tg y → bg y → spans act aristas N) as Hboth.
    { intros y [-> | (i & Hi & Hyi)] [Hb | (j & Hj & Hyj)].
      - lia.
      - destruct (Hrange _ _ Hyj) as [? | [? _]]; lia.
      - subst y. destruct (Hrange _ _ Hyi) as [? | [? _]]; lia.
      - exists i, j. split; [done|]. split; [done|]. trans y; [by symmetry | done]. }
    assert (∀ x y, I x y → I y x) as Isym.
    { intros x y [Hs | [Hq | [[? ?] | [? ?]]]].
      - by left.
      - right. left. by symmetry.
      - right. right. left. done.
      - right. right. right. done. }
    assert (∀ x y z, I x y → I y z → I x z) as Itrans.
    { intros x y z [Hs | [Hq | [[Hx Hy] | [Hx Hy]]]] Hyz; [by left | | |];
        destruct Hyz as [Hs | [Hq' | [[Hy' Hz] | [Hy' Hz]]]]; try (by left).
      - right. left. by trans y.
      - right. right. left. split; [by apply (Htg x y) | done].
      - right. right. right. split; [by apply (Hbg x y) | done].
      - right. right. left. split; [done|]. apply (Htg z y); [by symmetry | done].
      - right. right. left. done.
      - left. by apply (Hboth y).
      - right. right. right. split; [done|]. apply (Hbg z y); [by symmetry | done].
      - left. by apply (Hboth y).
      - right. right. right. done. }
    assert (∀ u v, wired sp act aristas u v → I u v) as Igen.
    { intros u v [Hl | He].
      - apply Hlinks in Hl as (i & Hi & [Huv | Huv]); injection Huv as -> ->.
        + right. right. left. split; [by left|]. right. exists i. split; [done|].
          unfold Q, connected. done.
        + right. right. right. split; [by left|]. right. exists i. split; [done|].
          unfold Q, connected. done.
      - right. left. by apply rtsc_lr. }
    assert (∀ x y, rtsc (wired sp act aristas) x y → I x y) as Iall.
    { intros x y Hxy. induction Hxy as [x | x y z Hstep _ IH].
      - right. left. unfold Q, connected. done.
      - apply (Itrans x y z); [|done].
        destruct Hstep as [H | H]; [by apply Igen | by apply Isym, Igen]. }
    intros Hw. destruct (Iall _ _ Hw) as [Hs | [Hq | [[_ Hb] | [Ht _]]]]; [done | | |].
    + destruct (Hrange _ _ Hq) as [? | [? _]]; lia.
    + destruct Hb as [? | (i & Hi & Hq)]; [lia|].
      destruct (Hrange _ _ Hq) as [? | [? _]]; lia.
    + destruct Ht as [? | (j & Hj & Hq)]; [lia|].
      destruct (Hrange _ _ Hq) as [? | [? _]]; lia.
  - intros (i & j & Hi & Hj & Hq).
    trans i. { apply rtsc_lr. left. apply Hlinks. exists i. split; [done | by left]. }
    trans (N - side + j).
    { revert Hq. apply rtsc_closure. intros u v He. apply rtsc_lr. by right. }
    apply rtsc_rl. left. apply Hlinks. exists j. split; [done | by right].
Qed.

Lemma aux_exact_same aristas sp sp' :
  reps (uf_aux sp') = reps (uf_aux sp) → nodoActivo sp' = nodoActivo sp →
  numNodos sp' = numNodos sp → superTop sp' = superTop sp →
  superBottom sp' = superBottom sp →
  aux_exact aristas sp → aux_exact aristas sp'.
Proof.
  intros HR Hact HN Ht Hb Hex x y. unfold wired, supernode_links.
  rewrite HR, Hact, HN, Ht, Hb. apply Hex.
Qed.

Lemma initialize_supernodes_aux_exact n aristas :
  aux_exact aristas (initialize_supernodes (SitePercolation_new n)).
Proof.
  intros x y.
  pose proof (new_engine_wf n) as Hwf.
  pose proof (unite_all_abs (uf_aux (SitePercolation_new n))
                (supernode_links (SitePercolation_new n))) as Habs.
  assert (reps (uf_aux (initialize_supernodes (SitePercolation_new n)))
          = (foldl merge_pair (partition_of (uf_aux (SitePercolation_new n)))
                   (supernode_links (SitePercolation_new n))).1) as ->.
  { rewrite <- Habs; [done | apply new_wf | by apply supernode_links_ok]. }
  change (uf_aux (SitePercolation_new n)) with (new (n + 2)).
  unfold partition_of.
  rewrite merge_all_rel;
    [| apply wf_valid_reps, new_wf
     | rewrite reps_length; by apply (supernode_links_ok (SitePercolation_new n))].
  rewrite new_reps.
  assert (∀ z, rep_at (seq 0 (n + 2)) z = z) as Hid.
  { intros z. unfold rep_at. destruct (decide (z < n + 2)).
    - by rewrite lookup_seq_lt.
    - by rewrite lookup_seq_ge by lia. }
  split; apply rtsc_closure.
  - intros u v [Huv | Hin].
    + rewrite !Hid in Huv. by subst v.
    + apply rtsc_lr. by left.
  - intros u v [Hin | (_ & Ha & _)].
    + apply rtsc_lr. by right.
    + simpl in Ha. apply lookup_replicate in Ha as [? _]. done.
Qed.

Lemma step_aux_exact sp aristas configuracion p Smax o :
  engine_wf sp → edges_ok (numNodos sp) aristas →
  numNodos sp ≤ length configuracion →
  aux_exact aristas sp →
  generate_single_percolation sp aristas configuracion p Smax = Some o →
  aux_exact aristas (so_engine o).
Proof.
  intros Hwf Hok Hconf Hex Hcall.
  destruct (p <? current_p sp)%float eqn:Hp.
  { rewrite (step_error sp aristas configuracion p Smax Hp) in Hcall.
    by injection Hcall as <-. }
  destruct (step_spec sp aristas configuracion p Smax Hwf Hok Hconf Hp)
    as (o' & Hcall' & Hwf' & Hpost).
  rewrite Hcall in Hcall'. injection Hcall' as <-.
  destruct Hpost as (HN & _ & Ht & Hb & _ & Hact & _ & _ & Hpart & _).
  destruct Hwf as (_ & Hx & _ & Hlx & _).
  intros x y. unfold wired, supernode_links. rewrite Hact, HN, Ht, Hb.
  fold (supernode_links sp).
  assert (reps (uf_aux (so_engine o)) =
          (foldl (connect_aux_abs (activation_after configuracion p (nodoActivo sp)))
                 (reps (uf_aux sp), sizes (uf_aux sp)) aristas).1) as ->.
  { unfold partition_of in Hpart. by rewrite <- Hpart. }
  rewrite connect_loop_rel; [| by apply wf_valid_reps |].
  2:{ rewrite reps_length, Hlx. eapply Forall_impl; [exact Hok|]. simpl. intros e. lia. }
  split; apply rtsc_closure.
  - intros u v [Huv | Hedge]; [|apply rtsc_lr; by right].
    apply (Hex u v) in Huv. revert Huv. apply rtsc_closure.
    intros a b [Hl | Hab]; apply rtsc_lr; [by left | right].
    revert Hab. apply active_edge_mono. intros i. apply activation_after_mono.
  - intros u v [Hl | Hedge].
    + apply (rtsc_closure (wired sp (nodoActivo sp) aristas)).
      * intros a b Hab. apply rtsc_lr. left. by apply Hex, rtsc_lr.
      * apply rtsc_lr. by left.
    + apply rtsc_lr. by right.
Qed.

Lemma percolates_spans aristas sp :
  engine_wf sp → aux_exact aristas sp →
  percolates sp = true ↔ spans (nodoActivo sp) aristas (numNodos sp).
Proof.
  intros Hwf Hex. pose proof Hwf as (_ & Hx & _ & _ & Hact & _).
  rewrite percolates_spec, bool_decide_eq_true by done.
  rewrite (Hex _ _). by apply wired_spans.
Qed.

Lemma sweep_aux_exact m aristas configuracion step visualization s sm :
  engine_wf (sw_engine s) → edges_ok (numNodos (sw_engine s)) aristas →
  numNodos (sw_engine s) ≤ length configuracion →
  aux_exact aristas (sw_engine s) →
  sweep_iterations m aristas configuracion step visualization s = Some sm →
  aux_exact aristas (sw_engine sm).
Proof.
  intros Hwf Hok Hconf Hex. revert sm. induction m as [|m IH]; intros sm Hm.
  { simpl in Hm. by injection Hm as <-. }
  rewrite sweep_iterations_succ in Hm.
  destruct (sweep_iterations_inv m aristas configuracion step visualization s Hwf Hok Hconf)
    as (sk & Hk & Hwfk & HNk & _).
  rewrite Hk in Hm. specialize (IH sk Hk).
  destruct (sweep_body_engine aristas configuracion step visualization sk sm)
    as (o & Hcall & _ & _ & HN' & _ & Hact & _ & Hpart & Ht' & Hb' & _);
    [done | by rewrite HNk | by rewrite HNk | done |].
  injection Hpart as HR _.
  destruct (step_any (sw_engine sk) aristas configuracion (sw_p sk) (sw_Smax sk))
    as (o2 & Hcall2 & _ & HNo & Hto & Hbo & _);
    [done | by rewrite HNk | by rewrite HNk |].
  rewrite Hcall in Hcall2. injection Hcall2 as <-.
  apply (aux_exact_same aristas (so_engine o)); [done | done | congruence.. |].
  apply (step_aux_exact (sw_engine sk) aristas configuracion (sw_p sk) (sw_Smax sk));
    [done | by rewrite HNk | by rewrite HNk | done | done].
Qed.

(** X8. [has_percolation] detects a spanning cluster.  The property "two
    elements of the auxiliary structure share a representative exactly when
    supernode links and active edges join them" holds after
    [initialize_supernodes] on a fresh engine and is kept by every call of
    the incremental step; under it, and so after any number of iterations
    of a sweep on a fresh engine, [has_percolation] answers true exactly
    when some node of the top row is connected to some node of the bottom
    row through edges with both endpoints active. *)
Theorem X8_percolation_is_a_spanning_cluster
    (n : nat) (aristas : list Edge) (configuracion : list float) :
  edges_ok n aristas → n ≤ length configuracion →
  aux_exact aristas (initialize_supernodes (SitePercolation_new n)) ∧
  (∀ sp p Smax o,
     engine_wf sp → numNodos sp = n → aux_exact aristas sp →
     generate_single_percolation sp aristas configuracion p Smax = Some o →
     aux_exact aristas (so_engine o)) ∧
  (∀ sp, engine_wf sp → numNodos sp = n → aux_exact aristas sp →
     ((has_percolation sp).2 = true ↔ spans (nodoActivo sp) aristas n)) ∧
  (∀ step visualization m sm,
     sweep_iterations m aristas configuracion step visualization
       (sweep_init (SitePercolation_new n) visualization) = Some sm →
     ((has_percolation (sw_engine sm)).2 = true ↔
      spans (nodoActivo (sw_engine sm)) aristas n)).
Proof.
  intros Hok Hconf. split; [apply initialize_supernodes_aux_exact|]. split; [|split].
  - intros sp p Smax o Hwf HN Hex Hcall.
    apply (step_aux_exact sp aristas configuracion p Smax);
      [done | by rewrite HN | by rewrite HN | done | done].
  - intros sp Hwf HN Hex. rewrite <- HN. by apply percolates_spans.
  - intros step visualization m sm Hm.
    pose proof (initialize_supernodes_wf _ (new_engine_wf n)) as Hwf0.
    destruct (sweep_iterations_inv m aristas configuracion step visualization
                (sweep_init (SitePercolation_new n) visualization))
      as (sm' & Hm' & Hwfm & HNm & _); [done | done | done |].
    rewrite Hm in Hm'. injection Hm' as <-.
    change n with (numNodos (sw_engine (sweep_init (SitePercolation_new n) visualization))).
    rewrite <- HNm. apply percolates_spans; [done|].
    apply (sweep_aux_exact m aristas configuracion step visualization
             (sweep_init (SitePercolation_new n) visualization));
      [done | done | done | | done].
    apply initialize_supernodes_aux_exact.
Qed.

(** The 4-node engine of the scenario after [initialize_supernodes]. *)
Lemma X8_witness :
  aux_exact [(0, 1); (0, 2); (1, 3); (2, 3)]
    (initialize_supernodes (SitePercolation_new 4)).
Proof.
  assert (4 ≤ length [0.1; 0.9; 0.2; 0.8]%float) as Hlen by (simpl; lia).
  exact (proj1 (X8_percolation_is_a_spanning_cluster 4
                  [(0, 1); (0, 2); (1, 3); (2, 3)] [0.1; 0.9; 0.2; 0.8]%float
                  scenario_edges_ok Hlen)).
Defined.

End spanning.

Section terminals.
Import UnionFind UnionFindFacts.
Implicit Types (sp : SitePercolation) (act : list bool).

Lemma initialize_supernodes_keeps sp :
  engine_wf sp →
  (percolates sp = true ∨ numNodos sp = 1) →
  percolates (initialize_supernodes sp) = true.
Proof.
  intros Hwf Hcase. pose proof Hwf as (_ & Hx & _ & _ & _ & Htop & Hbot).
  pose proof (initialize_supernodes_wf sp Hwf) as (_ & Hx' & _).
  destruct (unite_all_spec (uf_aux sp) (supernode_links sp) Hx
              (supernode_links_ok sp Hwf)) as (_ & _ & Hkeep & Hjoin).
  rewrite (percolates_spec (initialize_supernodes sp) Hx'). apply bool_decide_eq_true.
  change (uf_aux (initialize_supernodes sp))
    with (foldl (λ ua l, unite ua l.1 l.2) (uf_aux sp) (supernode_links sp)).
  change (superTop (initialize_supernodes sp)) with (superTop sp).
  change (superBottom (initialize_supernodes sp)) with (superBottom sp).
  destruct Hcase as [Hperc | HN].
  - rewrite percolates_spec in Hperc by done. apply bool_decide_eq_true in Hperc.
    by apply Hkeep.
  - trans (rep_at (reps (foldl (λ ua l, unite ua l.1 l.2) (uf_aux sp)
                           (supernode_links sp))) 0).
    + apply (Hjoin (superTop sp, 0)). apply supernode_links_spec.
      exists 0. rewrite HN. split; [vm_compute; lia | by left].
    + symmetry. apply (Hjoin (superBottom sp, 0)). apply supernode_links_spec.
      exists 0. rewrite HN. split; [vm_compute; lia | right; reflexivity].
Qed.

(** X11. A sweep on an engine whose terminals are connected once
    [initialize_supernodes] has run reports [p_c = 0.0]: the first iteration
    raises the flag and writes the threshold 0.0, and later iterations keep
    both.  The terminals are connected then, in particular, when
    [has_percolation] answers true on the engine before the sweep, and on the
    one-node lattice, whose only node is in the top row and in the bottom
    row, whatever its weight. *)
Theorem X11_connected_terminals_give_p_c_zero
    (sp : SitePercolation) (aristas : list Edge) (configuracion : list float)
    (step : float) (visualization : bool) (m : nat) :
  engine_wf sp → edges_ok (numNodos sp) aristas →
  numNodos sp ≤ length configuracion →
  ((has_percolation sp).2 = true ∨ numNodos sp = 1 →
   (has_percolation (initialize_supernodes sp)).2 = true) ∧
  ((has_percolation (initialize_supernodes sp)).2 = true →
   1 ≤ m →
   ∃ sm, sweep_iterations m aristas configuracion step visualization
           (sweep_init sp visualization) = Some sm ∧
         sw_percolation sm = true ∧
         p_c (sw_engine sm) = Some 0%float).
Proof.
  intros Hwf Hok Hconf. split; [by apply initialize_supernodes_keeps|].
  intros Hperc0 Hm.
  destruct (sweep_init_wf sp visualization Hwf) as [Hwf0 HN0].
  destruct (sweep_body_spec aristas configuracion step visualization
              (sweep_init sp visualization))
    as (s1 & o & Hbody & _ & Hwf1 & HN1 & _ & _ & _ & Hkeep & _ & Hdown);
    [done | by rewrite HN0 | by rewrite HN0 |].
  destruct (Hdown eq_refl) as [Hflag Hpc].
  rewrite (Hkeep Hperc0) in Hflag, Hpc.
  destruct (sweep_iterations_inv (m - 1) aristas configuracion step visualization s1)
    as (sm & Hsm & _ & _ & _ & _ & _ & Hup);
    [done | by rewrite HN1, HN0 | by rewrite HN1, HN0 |].
  destruct (Hup Hflag) as [Hflagm Hpcm].
  exists sm. replace m with (1 + (m - 1)) by lia.
  rewrite sweep_iterations_add. simpl. rewrite Hbody.
  split; [done|]. split; [done | by rewrite Hpcm, Hpc].
Qed.

(** The one-node lattice with weight 0.9: [p_c] is 0.0 after one iteration. *)
Lemma X11_witness :
  ∃ sm, sweep_iterations 1 [] [0.9]%float 0.5%float false
          (sweep_init (SitePercolation_new 1) false) = Some sm ∧
        p_c (sw_engine sm) = Some 0%float.
Proof.
  destruct (X11_connected_terminals_give_p_c_zero (SitePercolation_new 1)
              [] [0.9]%float 0.5%float false 1 (new_engine_wf 1))
    as (_ & Hzero).
  { apply Forall_nil_2. }
  { simpl. lia. }
  destruct Hzero as (sm & Hm & _ & Hpc).
  { vm_compute. reflexivity. }
  { lia. }
  exists sm. split; [exact Hm | exact Hpc].
Defined.

Lemma connected_active act aristas x y :
  connected act aristas x y → x ≠ y →
  act !! x = Some true ∧ act !! y = Some true.
Proof.
  intros Hxy. induction Hxy as [x | x y z Hstep _ IH]; [done|]. intros Hne.
  assert (act !! x = Some true ∧ act !! y = Some true) as [Hx Hy].
  { by destruct Hstep as [(_ & Hu & Hv) | (_ & Hu & Hv)]. }
  split; [done|]. destruct (decide (y = z)) as [<-|Hyz]; [done|]. by apply IH.
Qed.

Lemma rows_disjoint n i j :
  2 ≤ n → i < grid_size n → j < grid_size n → i ≠ n - grid_size n + j.
Proof.
  unfold grid_size. intros Hn Hi Hj.
  pose proof (Nat.sqrt_spec n ltac:(lia)) as [Hlo _]. nia.
Qed.

(** X9. On a lattice of at least two nodes the sweep reports percolation
    only when a node of the top row and a node of the bottom row are both
    active. *)
Theorem X9_percolation_needs_active_boundary_nodes
    (n : nat) (aristas : list Edge) (configuracion : list float)
    (step : float) (visualization : bool) (m : nat) (sm : sweep_state) :
  2 ≤ n → edges_ok n aristas → n ≤ length configuracion →
  sweep_iterations m aristas configuracion step visualization
    (sweep_init (SitePercolation_new n) visualization) = Some sm →
  (has_percolation (sw_engine sm)).2 = true →
  ∃ i j, i < grid_size n ∧ j < grid_size n ∧
         nodoActivo (sw_engine sm) !! i = Some true ∧
         nodoActivo (sw_engine sm) !! (n - grid_size n + j) = Some true.
Proof.
  intros Hn Hok Hconf Hm Hperc.
  pose proof (initialize_supernodes_wf _ (new_engine_wf n)) as Hwf0.
  destruct (sweep_iterations_inv m aristas configuracion step visualization
              (sweep_init (SitePercolation_new n) visualization))
    as (sm' & Hm' & Hwfm & HNm & _); [done | done | done |].
  rewrite Hm in Hm'. injection Hm' as <-.
  assert (aux_exact aristas (sw_engine sm)) as Hex.
  { apply (sweep_aux_exact m aristas configuracion step visualization
             (sweep_init (SitePercolation_new n) visualization));
      [done | done | done | | done].
    apply initialize_supernodes_aux_exact. }
  apply (percolates_spans aristas (sw_engine sm) Hwfm Hex) in Hperc.
  rewrite HNm in Hperc. simpl in Hperc.
  destruct Hperc as (i & j & Hi & Hj & Hq). exists i, j.
  split; [done|]. split; [done|].
  apply (connected_active _ aristas); [done | by apply rows_disjoint].
Qed.

(** The scenario swept with step 0.5: after the iteration at 1.0 it percolates. *)
Lemma X9_witness :
  ∃ i j, i < grid_size 4 ∧ j < grid_size 4 ∧
    ∃ sm, sweep_iterations 3 [(0, 1); (0, 2); (1, 3); (2, 3)] [0.1; 0.9; 0.2; 0.8]%float
            0.5%float false (sweep_init (SitePercolation_new 4) false) = Some sm ∧
          nodoActivo (sw_engine sm) !! i = Some true ∧
          nodoActivo (sw_engine sm) !! (4 - grid_size 4 + j) = Some true.
Proof.
  destruct (sweep_iterations 3 [(0, 1); (0, 2); (1, 3); (2, 3)] [0.1; 0.9; 0.2; 0.8]%float
              0.5%float false (sweep_init (SitePercolation_new 4) false)) as [sm|] eqn:Hm;
    [|vm_compute in Hm; discriminate].
  destruct (X9_percolation_needs_active_boundary_nodes 4
              [(0, 1); (0, 2); (1, 3); (2, 3)] [0.1; 0.9; 0.2; 0.8]%float
              0.5%float false 3 sm) as (i & j & Hi & Hj & Ha & Hb).
  - lia.
  - exact scenario_edges_ok.
  - simpl. lia.
  - exact Hm.
  - vm_compute in Hm. injection Hm as <-. vm_compute. reflexivity.
  - exists i, j. split; [exact Hi|]. split; [exact Hj|]. exists sm. split; [reflexivity|].
    split; [exact Ha | exact Hb].
Defined.

Lemma new_terminals_apart n : terminals_apart (SitePercolation_new n).
Proof.
  intros x. simpl. rewrite new_reps.
  assert (∀ z, rep_at (seq 0 (n + 2)) z = z) as Hid.
  { intros z. unfold rep_at. destruct (decide (z < n + 2)).
    - by rewrite lookup_seq_lt.
    - by rewrite lookup_seq_ge by lia. }
  by rewrite !Hid.
Qed.

Lemma terminals_apart_no_percolation sp :
  engine_wf sp → terminals_apart sp → percolates sp = false.
Proof.
  intros (_ & Hx & _ & _ & _ & Htop & Hbot) Hap.
  rewrite percolates_spec by done. apply bool_decide_eq_false.
  intros Heq. symmetry in Heq. apply Hap in Heq. lia.
Qed.

Lemma step_terminals_apart sp aristas configuracion p Smax o :
  engine_wf sp → edges_ok (numNodos sp) aristas →
  numNodos sp ≤ length configuracion →
  terminals_apart sp →
  generate_single_percolation sp aristas configuracion p Smax = Some o →
  terminals_apart (so_engine o).
Proof.
  intros Hwf Hok Hconf Hap Hcall.
  destruct (p <? current_p sp)%float eqn:Hp.
  { rewrite (step_error sp aristas configuracion p Smax Hp) in Hcall.
    by injection Hcall as <-. }
  destruct (step_spec sp aristas configuracion p Smax Hwf Hok Hconf Hp)
    as (o' & Hcall' & Hwf' & Hpost).
  rewrite Hcall in Hcall'. injection Hcall' as <-.
  destruct Hpost as (HN & _ & Ht & Hb & _ & Hact & _ & _ & Hpart & _).
  destruct Hwf as (_ & Hx & _ & Hlx & Hla & Htop & _).
  intros x. rewrite Ht.
  assert (reps (uf_aux (so_engine o)) =
          (foldl (connect_aux_abs (activation_after configuracion p (nodoActivo sp)))
                 (reps (uf_aux sp), sizes (uf_aux sp)) aristas).1) as ->.
  { unfold partition_of in Hpart. by rewrite <- Hpart. }
  rewrite connect_loop_rel; [| by apply wf_valid_reps |].
  2:{ rewrite reps_length, Hlx. eapply Forall_impl; [exact Hok|]. simpl. intros e. lia. }
  assert (∀ a b, active_edge (activation_after configuracion p (nodoActivo sp))
                   aristas a b → a ≠ superTop sp ∧ b ≠ superTop sp) as Hedge.
  { intros a b (_ & Ha & Hb'). apply lookup_lt_Some in Ha, Hb'.
    rewrite activation_after_length in Ha, Hb'. lia. }
  intros Hxt. symmetry in Hxt. revert Hxt.
  match goal with |- rtsc ?G _ _ → _ =>
    assert (∀ a b, rtsc G a b → a = superTop sp → b = superTop sp) as Hgen
  end.
  { intros a b Hab. induction Hab as [t | t y z Hstep _ IH]; [done|]. intros ->.
    apply IH. destruct Hstep as [[Hr | He] | [Hr | He]].
    - symmetry in Hr. by apply Hap in Hr.
    - by apply Hedge in He as [? _].
    - by apply Hap in Hr.
    - by apply Hedge in He as [_ ?]. }
  intros Hxt. by apply (Hgen _ _ Hxt).
Qed.

(** X10. Without [initialize_supernodes] there is no percolation.  On a
    fresh engine the top terminal is alone in its component of the
    auxiliary structure; every call of the incremental step keeps it alone;
    and while it is alone [has_percolation] answers false.  Only the sweep
    calls [initialize_supernodes]. *)
Theorem X10_no_percolation_without_supernodes
    (n : nat) (aristas : list Edge) (configuracion : list float) :
  edges_ok n aristas → n ≤ length configuracion →
  terminals_apart (SitePercolation_new n) ∧
  (∀ sp p Smax o,
     engine_wf sp → numNodos sp = n → terminals_apart sp →
     generate_single_percolation sp aristas configuracion p Smax = Some o →
     terminals_apart (so_engine o)) ∧
  (∀ sp, engine_wf sp → terminals_apart sp → (has_percolation sp).2 = false).
Proof.
  intros Hok Hconf. split; [apply new_terminals_apart|]. split.
  - intros sp p Smax o Hwf HN Hap Hcall.
    apply (step_terminals_apart sp aristas configuracion p Smax);
      [done | by rewrite HN | by rewrite HN | done | done].
  - intros sp Hwf Hap. by apply terminals_apart_no_percolation.
Qed.

(** The fresh 4-node engine of the scenario. *)
Lemma X10_witness : terminals_apart (SitePercolation_new 4).
Proof.
  assert (4 ≤ length [0.1; 0.9; 0.2; 0.8]%float) as Hlen by (simpl; lia).
  exact (proj1 (X10_no_percolation_without_supernodes 4
                  [(0, 1); (0, 2); (1, 3); (2, 3)] [0.1; 0.9; 0.2; 0.8]%float
                  scenario_edges_ok Hlen)).
Defined.

End terminals.

(** * Cluster sizes *)

Section counting_elements.
Import UnionFind UnionFindFacts.

Lemma count_split {A} (P Q1 Q2 : A → Prop)
    `{!∀ x, Decision (P x)} `{!∀ x, Decision (Q1 x)} `{!∀ x, Decision (Q2 x)}
    (l : list A) :
  (∀ x, x ∈ l → (P x ↔ Q1 x ∨ Q2 x)) → (∀ x, x ∈ l → Q1 x → Q2 x → False) →
  length (filter P l) = length (filter Q1 l) + length (filter Q2 l).
Proof.
  induction l as [|x l IH]; intros HP Hdisj; [done|].
  rewrite !filter_cons.
  assert (x ∈ x :: l) as Hx by left.
  specialize (HP x Hx) as HPx. specialize (Hdisj x Hx) as Hdx.
  assert (length (filter P l) = length (filter Q1 l) + length (filter Q2 l)) as IH'.
  { apply IH.
    - intros z Hz. apply HP. by right.
    - intros z Hz. apply Hdisj. by right. }
  destruct (decide (P x)), (decide (Q1 x)), (decide (Q2 x)); simpl; tauto || lia.
Qed.

Lemma count_ext {A} (P Q : A → Prop)
    `{!∀ x, Decision (P x)} `{!∀ x, Decision (Q x)} (l : list A) :
  (∀ x, x ∈ l → (P x ↔ Q x)) → length (filter P l) = length (filter Q l).
Proof.
  induction l as [|x l IH]; intros HP; [done|].
  rewrite !filter_cons.
  assert (x ∈ x :: l) as Hx by left. specialize (HP x Hx) as HPx.
  assert (length (filter P l) = length (filter Q l)) as IH'
    by (apply IH; intros z Hz; apply HP; by right).
  destruct (decide (P x)), (decide (Q x)); simpl; tauto || lia.
Qed.

Lemma count_none {A} (P : A → Prop) `{!∀ x, Decision (P x)} (l : list A) :
  (∀ x, x ∈ l → ¬ P x) → length (filter P l) = 0.
Proof.
  induction l as [|x l IH]; intros HP; [done|].
  rewrite filter_cons, decide_False by (apply HP; left).
  apply IH. intros z Hz. apply HP. by right.
Qed.

End counting_elements.

Section sizes.
Import UnionFind UnionFindFacts.
Implicit Types (R s : list nat) (x y a b c d : nat).

Lemma count_self n x : x < n → length (filter (λ y, y = x) (seq 0 n)) = 1.
Proof.
  induction n as [|n IH]; intros Hx; [lia|].
  rewrite seq_S, filter_app, length_app. simpl. rewrite filter_cons, filter_nil.
  destruct (decide (x = n)) as [->|Hne].
  - rewrite decide_True by done. simpl.
    rewrite count_none; [done|]. intros z Hz%elem_of_seq. lia.
  - rewrite decide_False by done. simpl. rewrite IH by lia. done.
Qed.

Lemma relabel_sizes_exact R s c d v :
  valid_reps R s → sizes_exact R s →
  rep_at R c = c → rep_at R d = d → c ≠ d → c < length R → d < length R →
  v = size_at s c + size_at s d →
  sizes_exact (relabel c d R) (<[d := v]> s).
Proof.
  intros (Hlen & Hrange & Hidem) Hex Hc Hd Hne Hcl Hdl Hv x.
  unfold count_rep, relabel. rewrite !length_fmap. fold (relabel c d R). intros Hx.
  assert (∀ y, y ∈ seq 0 (length R) →
            rep_at (relabel c d R) y = (if decide (rep_at R y = c) then d else rep_at R y))
    as Hrep.
  { intros y Hy%elem_of_seq. rewrite rep_at_relabel.
    destruct (decide (rep_at R y = c)).
    - rewrite decide_True; [done | split; [done | lia]].
    - rewrite decide_False; [done | by intros [? _]]. }
  assert (x ∈ seq 0 (length R)) as Hxin by (apply elem_of_seq; lia).
  rewrite (Hrep x Hxin), size_at_insert.
  assert (size_at s c = count_rep R c ∧ size_at s d = count_rep R d) as [Hsc Hsd].
  { split; [rewrite <- Hc at 1 2 | rewrite <- Hd at 1 2]; by apply Hex. }
  assert (length (filter (λ y, rep_at (relabel c d R) y = d) (seq 0 (length R)))
          = v) as Hmerged.
  { rewrite Hv, Hsc, Hsd. apply count_split.
    - intros y Hy. rewrite (Hrep y Hy). case_decide; naive_solver.
    - intros y _. congruence. }
  destruct (decide (rep_at R x = c)) as [Hxc | Hxc].
  { rewrite decide_True by (split; [done | lia]). by rewrite Hmerged. }
  destruct (decide (rep_at R x = d)) as [Hxd | Hxd].
  { rewrite Hxd, decide_True by (split; [done | lia]). by rewrite Hmerged. }
  rewrite decide_False by (by intros [? _]).
  rewrite (Hex x Hx). apply count_ext.
  intros y Hy. rewrite (Hrep y Hy). case_decide; naive_solver.
Qed.

(** [unite] keeps the stored size of every component equal to the number of
    its elements. *)
Lemma merge_reps_sizes_exact R s a b :
  valid_reps R s → sizes_exact R s → a < length R → b < length R →
  sizes_exact (merge_reps R s a b).1 (merge_reps R s a b).2.
Proof.
  intros Hv Hex Ha Hb. pose proof Hv as (Hlen & Hrange & Hidem).
  unfold merge_reps. case_decide as Heq; [done|].
  case_decide; simpl; apply relabel_sizes_exact; auto; lia.
Qed.

(** [unite] never makes the component of an element smaller. *)
Lemma merge_reps_grow R s a b x :
  valid_reps R s → a < length R → b < length R →
  size_at s (rep_at R x) ≤ size_at (merge_reps R s a b).2 (rep_at (merge_reps R s a b).1 x).
Proof.
  intros (Hlen & Hrange & Hidem) Ha Hb. unfold merge_reps.
  pose proof (Hrange a Ha) as Hra. pose proof (Hrange b Hb) as Hrb.
  assert (∀ c d v, d < length s → size_at s c ≤ v → size_at s d ≤ v →
            size_at s (rep_at R x) ≤ size_at (<[d := v]> s) (rep_at (relabel c d R) x))
    as Hrel.
  { intros c d v Hd Hc Hdv. rewrite rep_at_relabel, size_at_insert.
    destruct (decide (rep_at R x = c ∧ x < length R)) as [[-> _]|_].
    - by rewrite decide_True.
    - case_decide as Hxd; [|done]. by destruct Hxd as [-> _]. }
  case_decide as Heq; simpl; [done|].
  case_decide; simpl; apply Hrel; lia.
Qed.

Lemma count_rep_le R r : count_rep R r ≤ length R.
Proof.
  unfold count_rep. etrans; [apply length_filter|]. by rewrite length_seq.
Qed.

End sizes.

Section largest_cluster_facts.
Import UnionFind UnionFindFacts.
Implicit Types (sp : SitePercolation) (act : list bool) (R s : list nat).

Lemma connect_abs_sizes act R s Smax (e : Edge) :
  valid_reps R s → e.1 < length R → e.2 < length R →
  sizes_exact R s → largest R s Smax →
  sizes_exact (connect_abs act (R, s, Smax) e).1.1 (connect_abs act (R, s, Smax) e).1.2 ∧
  largest (connect_abs act (R, s, Smax) e).1.1 (connect_abs act (R, s, Smax) e).1.2
          (connect_abs act (R, s, Smax) e).2.
Proof.
  intros Hv H1 H2 Hex [Hup (x0 & Hx0 & Hat)]. unfold connect_abs. simpl.
  destruct (both_active act e); [|by split; [|split; [|exists x0]]].
  pose proof (merge_reps_sizes_exact R s e.1 e.2 Hv Hex H1 H2) as Hex'.
  pose proof (merge_reps_length R s e.1 e.2) as Hl.
  pose proof (merge_reps_joins R s e.1 e.2 Hv H1 H2) as Hj.
  pose proof (λ x, merge_reps_size R s e.1 e.2 x Hv H1 H2) as Hsize.
  pose proof (λ x, merge_reps_grow R s e.1 e.2 x Hv H1 H2) as Hgrow.
  destruct (merge_reps R s e.1 e.2) as [R' s']; simpl in *.
  split; [done|]. unfold largest. rewrite <- Hj, Nat.max_id, Hl. split.
  - intros x Hx. specialize (Hup x Hx). destruct (Hsize x) as [-> | ->]; lia.
  - destruct (decide (Z.of_nat (size_at s' (rep_at R' e.1)) ≤ Smax)%Z) as [Hle | Hgt].
    + exists x0. split; [done|]. specialize (Hgrow x0).
      destruct (Hsize x0) as [Heq | Heq]; rewrite Heq in *; lia.
    + exists e.1. split; [done | lia].
Qed.

Lemma connect_loop_sizes act aristas R s Smax :
  valid_reps R s → edges_ok (length R) aristas →
  sizes_exact R s → largest R s Smax →
  sizes_exact (foldl (connect_abs act) (R, s, Smax) aristas).1.1
              (foldl (connect_abs act) (R, s, Smax) aristas).1.2 ∧
  largest (foldl (connect_abs act) (R, s, Smax) aristas).1.1
          (foldl (connect_abs act) (R, s, Smax) aristas).1.2
          (foldl (connect_abs act) (R, s, Smax) aristas).2.
Proof.
  intros Hv Hok. revert R s Smax Hv Hok.
  induction aristas as [|e aristas IH]; intros R s Smax Hv Hok Hex Hlg; cbn [foldl]; [done|].
  apply Forall_cons in Hok as [[He1 He2] Hok].
  destruct (connect_abs_valid act R s Smax e Hv He1 He2) as (Hv1 & Hl1 & _).
  destruct (connect_abs_sizes act R s Smax e Hv He1 He2 Hex Hlg) as [Hex1 Hlg1].
  destruct (connect_abs act (R, s, Smax) e) as [[R1 s1] Smax1]; simpl in *.
  apply IH; [done | by rewrite Hl1 | done | done].
Qed.

Lemma new_sizes_exact n :
  sizes_exact (reps (new n)) (sizes (new n)) ∧
  (1 ≤ n → largest (reps (new n)) (sizes (new n)) 1).
Proof.
  rewrite new_reps. simpl.
  assert (∀ z, rep_at (seq 0 n) z = z) as Hid.
  { intros z. unfold rep_at. destruct (decide (z < n)).
    - by rewrite lookup_seq_lt.
    - by rewrite lookup_seq_ge by lia. }
  assert (∀ x, x < n → size_at (replicate n 1) x = 1) as Hone.
  { intros x Hx. unfold size_at. by rewrite lookup_replicate_2. }
  split.
  - intros x. rewrite length_seq. intros Hx. rewrite Hid, (Hone x Hx).
    unfold count_rep. rewrite length_seq.
    rewrite (count_ext _ (λ y, y = x)); [by rewrite count_self|].
    intros y _. by rewrite Hid.
  - intros Hn. split.
    + intros x. rewrite length_seq. intros Hx. rewrite Hid, (Hone x Hx). done.
    + exists 0. rewrite length_seq, Hid, (Hone 0) by lia. split; [lia | done].
Qed.

Lemma step_sizes sp aristas configuracion p Smax o :
  engine_wf sp → edges_ok (numNodos sp) aristas →
  numNodos sp ≤ length configuracion →
  sizes_exact (reps (uf sp)) (sizes (uf sp)) →
  largest (reps (uf sp)) (sizes (uf sp)) Smax →
  generate_single_percolation sp aristas configuracion p Smax = Some o →
  sizes_exact (reps (uf (so_engine o))) (sizes (uf (so_engine o))) ∧
  largest (reps (uf (so_engine o))) (sizes (uf (so_engine o))) (so_Smax o).
Proof.
  intros Hwf Hok Hconf Hex Hlg Hcall.
  destruct (p <? current_p sp)%float eqn:Hp.
  { rewrite (step_error sp aristas configuracion p Smax Hp) in Hcall.
    by injection Hcall as <-. }
  destruct (step_spec sp aristas configuracion p Smax Hwf Hok Hconf Hp)
    as (o' & Hcall' & Hwf' & Hpost).
  rewrite Hcall in Hcall'. injection Hcall' as <-.
  destruct Hpost as (_ & _ & _ & _ & _ & _ & Hpart & _).
  destruct Hwf as (Hu & _ & Hl & _).
  destruct (connect_loop_sizes (activation_after configuracion p (nodoActivo sp))
              aristas (reps (uf sp)) (sizes (uf sp)) Smax) as [Hex' Hlg'];
    [by apply wf_valid_reps | by rewrite reps_length, Hl | done | done |].
  unfold partition_of in Hpart. rewrite <- Hpart in Hex', Hlg'. done.
Qed.

Lemma largest_cluster_of sp S :
  engine_wf sp →
  sizes_exact (reps (uf sp)) (sizes (uf sp)) →
  largest (reps (uf sp)) (sizes (uf sp)) S →
  largest_cluster sp S ∧
  ∀ x, x < numNodos sp → (get_size (uf sp) x).2 = cluster_size sp x.
Proof.
  intros (Hu & _ & Hl & _) Hex [Hup (x0 & Hx0 & Hat)].
  unfold sizes_exact in Hex.
  rewrite reps_length, Hl in *. unfold largest_cluster, cluster_size.
  split; [split|].
  - intros x Hx. rewrite <- (Hex x Hx). by apply Hup.
  - exists x0. split; [done|]. by rewrite <- (Hex x0 Hx0).
  - intros x Hx. destruct (get_size_spec (uf sp) x Hu) as (_ & _ & _ & _ & ->).
    by apply Hex.
Qed.

Lemma sweep_sizes m aristas configuracion step visualization (s sm : sweep_state) :
  engine_wf (sw_engine s) → edges_ok (numNodos (sw_engine s)) aristas →
  numNodos (sw_engine s) ≤ length configuracion →
  sizes_exact (reps (uf (sw_engine s))) (sizes (uf (sw_engine s))) →
  largest (reps (uf (sw_engine s))) (sizes (uf (sw_engine s))) (sw_Smax s) →
  sweep_iterations m aristas configuracion step visualization s = Some sm →
  sizes_exact (reps (uf (sw_engine sm))) (sizes (uf (sw_engine sm))) ∧
  largest (reps (uf (sw_engine sm))) (sizes (uf (sw_engine sm))) (sw_Smax sm).
Proof.
  intros Hwf Hok Hconf Hex Hlg. revert sm. induction m as [|m IH]; intros sm Hm.
  { simpl in Hm. by injection Hm as <-. }
  rewrite sweep_iterations_succ in Hm.
  destruct (sweep_iterations_inv m aristas configuracion step visualization s Hwf Hok Hconf)
    as (sk & Hk & Hwfk & HNk & _).
  rewrite Hk in Hm. destruct (IH sk Hk) as [Hexk Hlgk].
  destruct (sweep_body_engine aristas configuracion step visualization sk sm)
    as (o & Hcall & _ & _ & _ & _ & _ & Hpart & _ & _ & _ & _ & HS & _);
    [done | by rewrite HNk | by rewrite HNk | done |].
  injection Hpart as -> ->. rewrite HS.
  apply (step_sizes (sw_engine sk) aristas configuracion (sw_p sk) (sw_Smax sk));
    [done | by rewrite HNk | by rewrite HNk | done | done | done].
Qed.

(** X7. The largest-cluster size is exact.  After any number of
    iterations of a sweep on a fresh engine with at least one node, [Smax]
    is the number of nodes of a largest cluster of the primary structure
    (no cluster has more nodes, and one has exactly that many), it lies
    between 1 and the number of nodes, [get_size] returns for every node the
    number of nodes of its cluster, and the last record carries this
    [Smax]. *)
Theorem X7_largest_cluster_size_is_exact
    (n : nat) (aristas : list Edge) (configuracion : list float)
    (step : float) (visualization : bool) (m : nat) (sm : sweep_state) :
  1 ≤ n → edges_ok n aristas → n ≤ length configuracion →
  sweep_iterations m aristas configuracion step visualization
    (sweep_init (SitePercolation_new n) visualization) = Some sm →
  largest_cluster (sw_engine sm) (sw_Smax sm) ∧
  (1 ≤ sw_Smax sm ≤ Z.of_nat n)%Z ∧
  (∀ x, x < n → (get_size (uf (sw_engine sm)) x).2 = cluster_size (sw_engine sm) x) ∧
  (∀ r, last (resultados sm) = Some r → record_Smax r = sw_Smax sm).
Proof.
  intros Hn Hok Hconf Hm.
  pose proof (initialize_supernodes_wf _ (new_engine_wf n)) as Hwf0.
  destruct (new_sizes_exact n) as [Hex0 Hlg0].
  destruct (sweep_sizes m aristas configuracion step visualization
              (sweep_init (SitePercolation_new n) visualization) sm)
    as [Hex Hlg]; [done | done | done | done | by apply Hlg0 | done |].
  destruct (sweep_iterations_inv m aristas configuracion step visualization
              (sweep_init (SitePercolation_new n) visualization))
    as (sm' & Hm' & Hwfm & HNm & _); [done | done | done |].
  rewrite Hm in Hm'. injection Hm' as <-.
  destruct (largest_cluster_of (sw_engine sm) (sw_Smax sm) Hwfm Hex Hlg) as [Hlc Hgs].
  split; [done|]. split; [|split].
  - destruct (sweep_Smax_sorted m aristas configuracion step visualization
                (sweep_init (SitePercolation_new n) visualization) sm eq_refl Hm)
      as (Hle & _).
    split; [exact Hle|]. destruct Hlc as [_ (x & Hx & ->)]. unfold cluster_size.
    pose proof (count_rep_le (reps (uf (sw_engine sm)))
                  (rep_at (reps (uf (sw_engine sm))) x)) as Hc.
    rewrite reps_length in Hc. destruct Hwfm as (_ & _ & Hl & _).
    rewrite Hl, HNm in Hc. simpl in Hc. lia.
  - intros x Hx. apply Hgs. by rewrite HNm.
  - destruct m as [|m]. { simpl in Hm. by injection Hm as <-. }
    rewrite sweep_iterations_succ in Hm.
    destruct (sweep_iterations m _ _ _ _ _) as [sk|]; [|done].
    destruct (sweep_body_Smax _ _ _ _ _ _ Hm) as (_ & r & -> & Hr).
    intros r'. rewrite last_snoc. by intros [= <-].
Qed.

(** The scenario swept with step 0.5 for three iterations. *)
Lemma X7_witness :
  ∃ sm, sweep_iterations 3 [(0, 1); (0, 2); (1, 3); (2, 3)] [0.1; 0.9; 0.2; 0.8]%float
          0.5%float false (sweep_init (SitePercolation_new 4) false) = Some sm ∧
        largest_cluster (sw_engine sm) (sw_Smax sm).
Proof.
  eexists. split; [vm_compute; reflexivity|].
  apply (X7_largest_cluster_size_is_exact 4
           [(0, 1); (0, 2); (1, 3); (2, 3)] [0.1; 0.9; 0.2; 0.8]%float
           0.5%float false 3).
  - lia.
  - exact scenario_edges_ok.
  - simpl. lia.
  - vm_compute. reflexivity.
Defined.

End largest_cluster_facts.

(** * The files of the sweep *)

Section files.
Import UnionFind UnionFindFacts.
Implicit Types (sp : SitePercolation) (s : sweep_state).






End files.

(** * Active nodes and active edges *)

Section active_sets.
Import UnionFind UnionFindFacts.
Implicit Types (sp : SitePercolation) (s : sweep_state).

(** Along a sweep with a positive step on an engine whose threshold is not
    above zero, no call is refused, and the nodes active after an iteration
    are those that were active before the sweep and those whose weight is at
    most the threshold of that iteration. *)
Lemma sweep_activation sp aristas configuracion step visualization m :
  engine_wf sp → edges_ok (numNodos sp) aristas →
  numNodos sp ≤ length configuracion →
  (0 <? current_p sp)%float = false →
  (0 <? step)%float = true →
  ∃ sm, sweep_iterations m aristas configuracion step visualization
          (sweep_init sp visualization) = Some sm ∧
        sw_p sm = threshold step m ∧
        (sw_p sm <? current_p (sw_engine sm))%float = false ∧
        ∀ i w, configuracion !! i = Some w →
          nodoActivo (sw_engine sm) !! i =
            (λ a, a || match m with
                       | 0 => false
                       | S k => (w <=? threshold step k)%float
                       end) <$> nodoActivo sp !! i.
Proof.
  intros Hwf Hok Hconf Hcur Hstep.
  destruct (sweep_init_wf sp visualization Hwf) as [Hwf0 HN0].
  induction m as [|m IH].
  { eexists. split; [done|]. split; [done|]. split; [done|].
    intros i w _. simpl. destruct (nodoActivo sp !! i) as [a|]; simpl; [|done].
    by rewrite orb_false_r. }
  destruct IH as (sk & Hk & Hp & Hpass & Hact).
  destruct (sweep_iterations_inv m aristas configuracion step visualization
              (sweep_init sp visualization)) as (sk' & Hk' & Hwfk & HNk & _);
    [done | by rewrite HN0 | by rewrite HN0 |].
  rewrite Hk in Hk'. injection Hk' as <-.
  destruct (sweep_body_spec aristas configuracion step visualization sk)
    as (s' & o' & Hbody & _); [done | by rewrite HNk, HN0 | by rewrite HNk, HN0 |].
  destruct (sweep_body_engine aristas configuracion step visualization sk s')
    as (o & Hcall & _ & _ & _ & Hcur' & Hact' & _ & _ & _ & _ & Hp' & _);
    [done | by rewrite HNk, HN0 | by rewrite HNk, HN0 | done |].
  destruct (step_spec (sw_engine sk) aristas configuracion (sw_p sk) (sw_Smax sk))
    as (o2 & Hcall2 & _ & Hpost); [done | by rewrite HNk, HN0 | by rewrite HNk, HN0 | done |].
  rewrite Hcall in Hcall2. injection Hcall2 as <-.
  destruct Hpost as (_ & Hcp & _ & _ & _ & Hnew & _).
  exists s'. rewrite sweep_iterations_succ, Hk. split; [done|].
  split; [by rewrite Hp', Hp|]. split.
  - rewrite Hcur', Hcp, Hp', Hp.
    destruct (add_step_order (threshold step m) step) as [_ [Hlt | ->]];
      [by apply threshold_nonneg | done | by apply ltb_asym | apply ltb_irrefl].
  - intros i w Hw. rewrite Hact', Hnew, activation_after_lookup, (Hact i w Hw), Hw, Hp.
    destruct (nodoActivo sp !! i) as [a|]; simpl; [|done]. f_equal.
    destruct a; simpl; [done|]. destruct m as [|k]; [done|].
    destruct (w <=? threshold step k)%float eqn:Hle; simpl; [|done].
    symmetry. apply (leb_trans w (threshold step k)); [done | by apply threshold_mono].
Qed.

(** X13. The active nodes of a record.  In a sweep with a positive step
    on a fresh engine, after the iteration at threshold [p_k] a node is
    active exactly when its weight is [<= p_k]: earlier activations are
    subsumed because the thresholds never decrease. *)
Theorem X13_active_nodes_are_those_below_threshold
    (n : nat) (aristas : list Edge) (configuracion : list float)
    (step : float) (visualization : bool) (k : nat) :
  edges_ok n aristas → n ≤ length configuracion →
  (0 <? step)%float = true →
  ∃ sm, sweep_iterations (S k) aristas configuracion step visualization
          (sweep_init (SitePercolation_new n) visualization) = Some sm ∧
        ∀ i w, i < n → configuracion !! i = Some w →
          nodoActivo (sw_engine sm) !! i = Some (w <=? threshold step k)%float.
Proof.
  intros Hok Hconf Hstep.
  destruct (sweep_activation (SitePercolation_new n) aristas configuracion step
              visualization (S k) (new_engine_wf n) Hok Hconf eq_refl Hstep)
    as (sm & Hm & _ & _ & Hact).
  exists sm. split; [done|]. intros i w Hi Hw. rewrite (Hact i w Hw). simpl.
  by rewrite lookup_replicate_2.
Qed.

(** The scenario swept with step 0.5: after the iteration at 0.5, node 2
    (weight 0.2) is active and node 1 (weight 0.9) is not. *)
Lemma X13_witness :
  ∃ sm, sweep_iterations 2 [(0, 1); (0, 2); (1, 3); (2, 3)] [0.1; 0.9; 0.2; 0.8]%float
          0.5%float false (sweep_init (SitePercolation_new 4) false) = Some sm ∧
        nodoActivo (sw_engine sm) !! 2 = Some true ∧
        nodoActivo (sw_engine sm) !! 1 = Some false.
Proof.
  destruct (X13_active_nodes_are_those_below_threshold 4
              [(0, 1); (0, 2); (1, 3); (2, 3)] [0.1; 0.9; 0.2; 0.8]%float
              0.5%float false 1 scenario_edges_ok) as (sm & Hm & Hact).
  { simpl. lia. }
  { reflexivity. }
  exists sm. split; [exact Hm|]. split.
  - apply (Hact 2 0.2%float); [lia | reflexivity].
  - apply (Hact 1 0.9%float); [lia | reflexivity].
Defined.

(** X5. After a call of the incremental step that passes the ordering
    check, the two endpoints of every edge of the list with both endpoints
    active are in one cluster of the primary structure and in one component
    of the auxiliary structure, and [Smax] is at least the size that
    [get_size] reports for that cluster. *)
Theorem X5_active_edges_end_in_one_cluster
    (sp : SitePercolation) (aristas : list Edge) (configuracion : list float)
    (p : float) (Smax : Z) :
  engine_wf sp → edges_ok (numNodos sp) aristas →
  numNodos sp ≤ length configuracion →
  (p <? current_p sp)%float = false →
  ∃ o, generate_single_percolation sp aristas configuracion p Smax = Some o ∧
    ∀ a b, (a, b) ∈ aristas →
      nodoActivo (so_engine o) !! a = Some true →
      nodoActivo (so_engine o) !! b = Some true →
      same_cluster (so_engine o) a b ∧
      rep_at (reps (uf_aux (so_engine o))) a = rep_at (reps (uf_aux (so_engine o))) b ∧
      (Z.of_nat (get_size (uf (so_engine o)) a).2 ≤ so_Smax o)%Z.
Proof.
  intros Hwf Hok Hconf Hp.
  destruct (step_spec sp aristas configuracion p Smax Hwf Hok Hconf Hp)
    as (o & Hcall & Hwf' & Hpost).
  exists o. split; [done|]. intros a b Hin Ha Hb.
  destruct Hpost as (_ & _ & _ & _ & _ & Hact & Hpart & _ & Haux & _).
  destruct Hwf as (Hu & Hx & Hl & Hlx & _).
  rewrite Hact in Ha, Hb.
  set (act := activation_after configuracion p (nodoActivo sp)) in *.
  assert (both_active act (a, b) = true) as Hboth by (by apply bool_decide_eq_true).
  pose proof (connect_loop_settles act aristas (reps (uf sp)) (sizes (uf sp)) Smax []
                (wf_valid_reps _ Hu)) as Hset.
  rewrite reps_length, Hl in Hset. specialize (Hset Hok (Forall_nil_2 _)).
  simpl in Hset. rewrite Forall_forall in Hset.
  destruct (Hset (a, b) Hin Hboth) as [Hrep Hsz].
  unfold partition_of in Hpart. rewrite <- Hpart in Hrep, Hsz. simpl in Hrep, Hsz.
  pose proof (connect_loop_settles act aristas (reps (uf_aux sp)) (sizes (uf_aux sp)) 0 []
                (wf_valid_reps _ Hx)) as Hsetx.
  rewrite reps_length, Hlx in Hsetx.
  assert (edges_ok (numNodos sp + 2) aristas) as Hok2.
  { eapply Forall_impl; [exact Hok|]. simpl. intros e. lia. }
  specialize (Hsetx Hok2 (Forall_nil_2 _)). simpl in Hsetx.
  rewrite Forall_forall in Hsetx. destruct (Hsetx (a, b) Hin Hboth) as [Hrepx _].
  rewrite <- (connect_aux_abs_proj act aristas _ _ 0) in Hrepx.
  unfold partition_of in Haux. rewrite <- Haux in Hrepx. simpl in Hrepx.
  split; [done|]. split; [done|].
  destruct Hwf' as (Hu' & _).
  destruct (get_size_spec (uf (so_engine o)) a Hu') as (_ & _ & _ & _ & ->). done.
Qed.

(** The scenario at threshold 0.2: nodes 0 and 2 are active and joined. *)
Lemma X5_witness :
  ∃ o, generate_single_percolation (SitePercolation_new 4)
         [(0, 1); (0, 2); (1, 3); (2, 3)] [0.1; 0.9; 0.2; 0.8]%float 0.2%float 1 = Some o ∧
       same_cluster (so_engine o) 0 2.
Proof.
  destruct (X5_active_edges_end_in_one_cluster (SitePercolation_new 4)
              [(0, 1); (0, 2); (1, 3); (2, 3)] [0.1; 0.9; 0.2; 0.8]%float 0.2%float 1
              (new_engine_wf 4) scenario_edges_ok) as (o & Hcall & Hedges).
  { simpl. lia. }
  { reflexivity. }
  exists o. split; [exact Hcall|].
  assert (Some o = generate_single_percolation (SitePercolation_new 4)
         [(0, 1); (0, 2); (1, 3); (2, 3)] [0.1; 0.9; 0.2; 0.8]%float 0.2%float 1) as Ho
    by (symmetry; exact Hcall).
  vm_compute in Ho. injection Ho as Ho.
  apply (Hedges 0 2).
  - apply elem_of_cons. right. apply elem_of_cons. left. reflexivity.
  - rewrite Ho. reflexivity.
  - rewrite Ho. reflexivity.
Defined.

End active_sets.

(** * The critical threshold *)

Section critical_threshold.
Import UnionFind UnionFindFacts.
Implicit Types (sp : SitePercolation) (s : sweep_state).

Lemma sweep_open_sites n aristas configuracion step visualization k :
  edges_ok n aristas → n ≤ length configuracion →
  (0 <? step)%float = true →
  ∃ sk sk1,
    sweep_iterations k aristas configuracion step visualization
      (sweep_init (SitePercolation_new n) visualization) = Some sk ∧
    sweep_iterations (S k) aristas configuracion step visualization
      (sweep_init (SitePercolation_new n) visualization) = Some sk1 ∧
    sw_p sk = threshold step k ∧
    engine_wf (sw_engine sk1) ∧
    nodoActivo (sw_engine sk1) = open_sites configuracion (threshold step k) n ∧
    (percolates (sw_engine sk1) = true ↔
     spans (open_sites configuracion (threshold step k) n) aristas n).
Proof.
  intros Hok Hconf Hstep.
  pose proof (initialize_supernodes_wf _ (new_engine_wf n)) as Hwf0.
  destruct (sweep_activation (SitePercolation_new n) aristas configuracion step
              visualization k (new_engine_wf n) Hok Hconf eq_refl Hstep)
    as (sk & Hk & Hp & _).
  destruct (sweep_activation (SitePercolation_new n) aristas configuracion step
              visualization (S k) (new_engine_wf n) Hok Hconf eq_refl Hstep)
    as (sk1 & Hk1 & _ & _ & Hact).
  destruct (sweep_iterations_inv (S k) aristas configuracion step visualization
              (sweep_init (SitePercolation_new n) visualization))
    as (sk1' & Hk1' & Hwf1 & HN1 & _); [done | done | done |].
  rewrite Hk1 in Hk1'. injection Hk1' as <-.
  assert (nodoActivo (sw_engine sk1) = open_sites configuracion (threshold step k) n)
    as Hopen.
  { apply list_eq. intros i. unfold open_sites. rewrite list_lookup_fmap.
    destruct (decide (i < n)) as [Hi | Hi].
    - rewrite lookup_take_lt by done.
      destruct (lookup_lt_is_Some_2 configuracion i ltac:(lia)) as [w Hw].
      rewrite (Hact i w Hw), Hw. simpl. by rewrite lookup_replicate_2.
    - rewrite lookup_take_ge by lia. simpl. apply lookup_ge_None.
      destruct Hwf1 as (_ & _ & _ & _ & -> & _). rewrite HN1. simpl. lia. }
  exists sk, sk1. do 4 (split; [done|]). split; [done|].
  rewrite <- Hopen.
  assert (numNodos (sw_engine sk1) = n) as HNn by exact HN1.
  rewrite <- HNn at 1. apply percolates_spans; [done|].
  apply (sweep_aux_exact (S k) aristas configuracion step visualization
           (sweep_init (SitePercolation_new n) visualization));
    [done | done | done | | done].
  apply initialize_supernodes_aux_exact.
Qed.

(** X18. What [p_c] means.  In a sweep with a positive step on a fresh
    engine, after any number [m] of iterations: if for no threshold [p_j],
    [j < m], the nodes of weight [<= p_j] contain a spanning cluster, the
    flag is down and [p_c] is unset; and if [p_k], [k < m], is the first
    threshold for which they do, the flag is up and [p_c] is [p_k]. *)
Theorem X18_p_c_is_the_first_spanning_threshold
    (n : nat) (aristas : list Edge) (configuracion : list float)
    (step : float) (visualization : bool) (m : nat) :
  edges_ok n aristas → n ≤ length configuracion →
  (0 <? step)%float = true →
  ∃ sm, sweep_iterations m aristas configuracion step visualization
          (sweep_init (SitePercolation_new n) visualization) = Some sm ∧
        ((∀ j, j < m →
            ¬ spans (open_sites configuracion (threshold step j) n) aristas n) →
         sw_percolation sm = false ∧ p_c (sw_engine sm) = None) ∧
        (∀ k, k < m →
           spans (open_sites configuracion (threshold step k) n) aristas n →
           (∀ j, j < k →
              ¬ spans (open_sites configuracion (threshold step j) n) aristas n) →
           sw_percolation sm = true ∧ p_c (sw_engine sm) = Some (threshold step k)).
Proof.
  intros Hok Hconf Hstep.
  pose proof (initialize_supernodes_wf _ (new_engine_wf n)) as Hwf0.
  set (s0 := sweep_init (SitePercolation_new n) visualization) in *.
  assert (∀ i si, 1 ≤ i →
            sweep_iterations i aristas configuracion step visualization s0 = Some si →
            (percolates (sw_engine si) = true ↔
             spans (open_sites configuracion (threshold step (i - 1)) n) aristas n))
    as Hsem.
  { intros i si Hi Hsi.
    destruct (sweep_open_sites n aristas configuracion step visualization (i - 1)
                Hok Hconf Hstep) as (_ & si' & _ & Hsi' & _ & _ & _ & Hiff).
    replace (S (i - 1)) with i in Hsi' by lia. fold s0 in Hsi'.
    rewrite Hsi in Hsi'. by injection Hsi' as <-. }
  assert (∀ k sk, k ≤ m →
            sweep_iterations k aristas configuracion step visualization s0 = Some sk →
            (∀ j, j < k →
               ¬ spans (open_sites configuracion (threshold step j) n) aristas n) →
            sw_percolation sk = false ∧ p_c (sw_engine sk) = None) as Hdown.
  { intros k sk _ Hsk Hnone.
    destruct (sweep_flag_down k aristas configuracion step visualization s0 sk)
      as [Hflag Hpc]; [done | done | done | done | done | | done].
    intros i si Hi Hsi. apply not_true_is_false. intros Hperc.
    apply (Hsem i si) in Hperc; [|lia | done].
    apply (Hnone (i - 1)); [lia | done]. }
  destruct (sweep_iterations_inv m aristas configuracion step visualization s0)
    as (sm & Hm & _); [done | done | done |].
  exists sm. split; [done|]. split; [by apply (Hdown m sm)|].
  intros k Hk Hspan Hfirst.
  destruct (sweep_open_sites n aristas configuracion step visualization k
              Hok Hconf Hstep) as (sk & sk1 & Hsk & Hsk1 & Hp & Hwf1 & _ & Hiff).
  fold s0 in Hsk, Hsk1.
  destruct (Hdown k sk) as [Hflag Hpc]; [lia | done | done |].
  destruct (sweep_iterations_inv k aristas configuracion step visualization s0)
    as (sk' & Hsk' & Hwfk & HNk & _); [done | done | done |].
  rewrite Hsk in Hsk'. injection Hsk' as <-.
  destruct (sweep_body_spec aristas configuracion step visualization sk)
    as (s' & o & Hbody & _ & _ & HN' & _ & _ & _ & _ & _ & Hset);
    [done | by rewrite HNk | by rewrite HNk |].
  rewrite sweep_iterations_succ, Hsk, Hbody in Hsk1. injection Hsk1 as ->.
  destruct (Hset Hflag) as [Hf1 Hpc1].
  rewrite (proj2 Hiff Hspan) in Hf1, Hpc1.
  replace m with (S k + (m - S k)) in Hm by lia.
  rewrite sweep_iterations_add, sweep_iterations_succ, Hsk, Hbody in Hm.
  destruct (sweep_iterations_inv (m - S k) aristas configuracion step visualization sk1)
    as (sm' & Hm' & _ & _ & _ & _ & _ & Hfreeze);
    [done | by rewrite HN', HNk | by rewrite HN', HNk |].
  rewrite Hm in Hm'. injection Hm' as <-.
  destruct (Hfreeze Hf1) as [Hfm Hpcm]. split; [done|].
  by rewrite Hpcm, Hpc1, Hp.
Qed.

(** The scenario swept with step 0.5: thresholds 0, 0.5 and 1; at 0.5 the
    nodes 0 and 2 are active and joined by an edge. *)
Lemma X18_witness :
  ∃ sm, sweep_iterations 3 [(0, 1); (0, 2); (1, 3); (2, 3)] [0.1; 0.9; 0.2; 0.8]%float
          0.5%float false (sweep_init (SitePercolation_new 4) false) = Some sm ∧
        p_c (sw_engine sm) = Some 0.5%float.
Proof.
  destruct (X18_p_c_is_the_first_spanning_threshold 4
              [(0, 1); (0, 2); (1, 3); (2, 3)] [0.1; 0.9; 0.2; 0.8]%float
              0.5%float false 3 scenario_edges_ok) as (sm & Hm & _ & Hfirst).
  { simpl. lia. }
  { reflexivity. }
  exists sm. split; [exact Hm|].
  apply (Hfirst 1).
  - lia.
  - exists 0, 0. split; [vm_compute; lia|]. split; [vm_compute; lia|].
    apply rtsc_lr. split; [|split; reflexivity].
    apply elem_of_cons. right. apply elem_of_cons. left. reflexivity.
  - intros j Hj (i & j' & Hi & Hj' & Hc). assert (j = 0) as -> by lia.
    apply connected_active in Hc as [Hact _]; [|apply rows_disjoint; [lia | done..]].
    assert (i < 2) as Hi2 by exact Hi.
    destruct i as [|[|i]]; [discriminate Hact | discriminate Hact | lia].
Defined.

End critical_threshold.

(** * Edge lists as undirected graphs *)

Section edge_lists.
Import UnionFind UnionFindFacts.
Implicit Types (sp : SitePercolation) (act : list bool).

(** Two partitions of the same elements into the same classes have the same
    number of representatives. *)
Lemma Ncc_reps_le (R s R' s' : list nat) :
  valid_reps R s → valid_reps R' s' → length R' = length R →
  (∀ x y, rep_at R' x = rep_at R' y → rep_at R x = rep_at R y) →
  Ncc_reps R (length R) ≤ Ncc_reps R' (length R).
Proof.
  intros (_ & Hrange & Hidem) (_ & Hrange' & Hidem') Hlen Hrel. unfold Ncc_reps.
  set (roots := filter (λ i, rep_at R i = i) (seq 0 (length R))).
  assert (NoDup roots) as Hnd by apply NoDup_filter, NoDup_seq.
  assert (rep_at R' <$> roots ⊆+ filter (λ i, rep_at R' i = i) (seq 0 (length R)))
    as Hsub.
  { apply NoDup_submseteq.
    - apply NoDup_fmap_2_strong; [|done].
      intros i j [Hi _]%list_elem_of_filter [Hj _]%list_elem_of_filter Hij.
      apply Hrel in Hij. congruence.
    - intros r (i & -> & [Hi Hin]%list_elem_of_filter)%list_elem_of_fmap.
      apply list_elem_of_filter. split; [apply Hidem'|].
      apply elem_of_seq in Hin. apply elem_of_seq.
      specialize (Hrange' i). lia. }
  apply submseteq_length in Hsub. by rewrite length_fmap in Hsub.
Qed.

Lemma connect_loop_same_graph act (l l' : list Edge) (R s : list nat) x y :
  valid_reps R s → edges_ok (length R) l → edges_ok (length R) l' →
  same_graph l l' →
  rep_at (foldl (connect_aux_abs act) (R, s) l).1 x
    = rep_at (foldl (connect_aux_abs act) (R, s) l).1 y →
  rep_at (foldl (connect_aux_abs act) (R, s) l').1 x
    = rep_at (foldl (connect_aux_abs act) (R, s) l').1 y.
Proof.
  intros Hv Hok Hok' Hsame. rewrite !connect_loop_rel by done.
  apply rtsc_closure. intros u v [Huv | (Hin & Hu & Hv')].
  { apply rtsc_lr. by left. }
  destruct (proj1 (Hsame u v) (or_introl Hin)) as [Hin' | Hin'].
  - apply rtsc_lr. right. done.
  - apply rtsc_rl. right. done.
Qed.

Lemma same_graph_sym (l l' : list Edge) : same_graph l l' → same_graph l' l.
Proof. intros H a b. symmetry. apply H. Qed.

(** X19. The order, the orientation and the multiplicity of the edges do
    not matter.  Two accepted calls of the incremental step on the same
    engine, with edge lists that describe the same undirected graph, leave
    the same activation flags, put the same nodes together in clusters,
    return the same component count, and make [has_percolation] give the
    same answer. *)
Theorem X19_edge_order_and_orientation_do_not_matter
    (sp : SitePercolation) (aristas aristas' : list Edge) (configuracion : list float)
    (p : float) (Smax : Z) :
  engine_wf sp → edges_ok (numNodos sp) aristas → edges_ok (numNodos sp) aristas' →
  numNodos sp ≤ length configuracion →
  (p <? current_p sp)%float = false →
  same_graph aristas aristas' →
  ∃ o o',
    generate_single_percolation sp aristas configuracion p Smax = Some o ∧
    generate_single_percolation sp aristas' configuracion p Smax = Some o' ∧
    nodoActivo (so_engine o) = nodoActivo (so_engine o') ∧
    (∀ x y, same_cluster (so_engine o) x y ↔ same_cluster (so_engine o') x y) ∧
    so_ret o = so_ret o' ∧
    (has_percolation (so_engine o)).2 = (has_percolation (so_engine o')).2.
Proof.
  intros Hwf Hok Hok' Hconf Hp Hsame.
  destruct (step_spec sp aristas configuracion p Smax Hwf Hok Hconf Hp)
    as (o & Hcall & Hwfo & Hpost).
  destruct (step_spec sp aristas' configuracion p Smax Hwf Hok' Hconf Hp)
    as (o' & Hcall' & Hwfo' & Hpost').
  destruct Hpost as (HN & _ & Ht & Hb & _ & Hact & Hpart & _ & Haux & Hret & _).
  destruct Hpost' as (HN' & _ & Ht' & Hb' & _ & Hact' & Hpart' & _ & Haux' & Hret' & _).
  pose proof Hwf as (Hu & Hx & Hl & Hlx & _).
  set (act := activation_after configuracion p (nodoActivo sp)) in *.
  assert (reps (uf (so_engine o))
          = (foldl (connect_aux_abs act) (reps (uf sp), sizes (uf sp)) aristas).1) as HR.
  { rewrite (connect_aux_abs_proj _ aristas _ _ Smax). unfold partition_of in Hpart.
    by rewrite <- Hpart. }
  assert (reps (uf (so_engine o'))
          = (foldl (connect_aux_abs act) (reps (uf sp), sizes (uf sp)) aristas').1) as HR'.
  { rewrite (connect_aux_abs_proj _ aristas' _ _ Smax). unfold partition_of in Hpart'.
    by rewrite <- Hpart'. }
  assert (reps (uf_aux (so_engine o))
          = (foldl (connect_aux_abs act) (reps (uf_aux sp), sizes (uf_aux sp)) aristas).1)
    as HX by (unfold partition_of in Haux; by rewrite <- Haux).
  assert (reps (uf_aux (so_engine o'))
          = (foldl (connect_aux_abs act) (reps (uf_aux sp), sizes (uf_aux sp)) aristas').1)
    as HX' by (unfold partition_of in Haux'; by rewrite <- Haux').
  pose proof (wf_valid_reps _ Hu) as Hv. pose proof (wf_valid_reps _ Hx) as Hvx.
  assert (edges_ok (length (reps (uf sp))) aristas ∧
          edges_ok (length (reps (uf sp))) aristas') as [Hk Hk']
    by (by rewrite reps_length, Hl).
  assert (edges_ok (length (reps (uf_aux sp))) aristas ∧
          edges_ok (length (reps (uf_aux sp))) aristas') as [Hkx Hkx'].
  { rewrite reps_length, Hlx.
    split; [eapply Forall_impl; [exact Hok|] | eapply Forall_impl; [exact Hok'|]];
      simpl; intros e; lia. }
  assert (∀ x y, same_cluster (so_engine o) x y ↔ same_cluster (so_engine o') x y)
    as Hrel.
  { intros x y. unfold same_cluster. rewrite HR, HR'. split.
    - by apply connect_loop_same_graph.
    - apply connect_loop_same_graph; [done | done | done | by apply same_graph_sym]. }
  exists o, o'. split; [done|]. split; [done|]. split; [congruence|]. split; [done|].
  split.
  - rewrite Hret, Hret'.
    pose proof Hwfo as (Huo & _ & Hlo & _). pose proof Hwfo' as (Huo' & _ & Hlo' & _).
    assert (length (reps (uf (so_engine o))) = numNodos sp) as Hlen
      by (by rewrite reps_length, Hlo).
    assert (length (reps (uf (so_engine o'))) = numNodos sp) as Hlen'
      by (by rewrite reps_length, Hlo').
    apply Nat.le_antisymm.
    + rewrite <- Hlen at 1 2.
      apply (Ncc_reps_le _ (sizes (uf (so_engine o))) _ (sizes (uf (so_engine o'))));
        [by apply wf_valid_reps | by apply wf_valid_reps | congruence |].
      intros x y Hxy. by apply Hrel.
    + rewrite <- Hlen' at 1 2.
      apply (Ncc_reps_le _ (sizes (uf (so_engine o'))) _ (sizes (uf (so_engine o))));
        [by apply wf_valid_reps | by apply wf_valid_reps | congruence |].
      intros x y Hxy. by apply Hrel.
  - fold (percolates (so_engine o)). fold (percolates (so_engine o')).
    rewrite !percolates_spec by (apply Hwfo || apply Hwfo').
    rewrite Ht, Hb, Ht', Hb', HX, HX'. apply bool_decide_ext. split.
    + by apply connect_loop_same_graph.
    + apply connect_loop_same_graph; [done | done | done | by apply same_graph_sym].
Qed.

(** The scenario at threshold 0.85 with the edges reversed, reordered and
    one of them repeated. *)
Lemma X19_witness :
  ∃ o o',
    generate_single_percolation (SitePercolation_new 4)
      [(0, 1); (0, 2); (1, 3); (2, 3)] [0.1; 0.9; 0.2; 0.8]%float 0.85%float 1 = Some o ∧
    generate_single_percolation (SitePercolation_new 4)
      [(3, 2); (3, 1); (2, 0); (1, 0); (2, 0)] [0.1; 0.9; 0.2; 0.8]%float 0.85%float 1
      = Some o' ∧
    so_ret o = so_ret o'.
Proof.
  destruct (X19_edge_order_and_orientation_do_not_matter (SitePercolation_new 4)
              [(0, 1); (0, 2); (1, 3); (2, 3)] [(3, 2); (3, 1); (2, 0); (1, 0); (2, 0)]
              [0.1; 0.9; 0.2; 0.8]%float 0.85%float 1
              (new_engine_wf 4) scenario_edges_ok)
    as (o & o' & H1 & H2 & _ & _ & Hret & _).
  { unfold edges_ok. repeat constructor; simpl; lia. }
  { simpl. lia. }
  { reflexivity. }
  { intros a b. rewrite !elem_of_cons, !elem_of_nil. split; intros H;
      repeat (destruct H as [H | H]); try done; injection H as -> ->; tauto. }
  exists o, o'. split; [exact H1|]. split; [exact H2 | exact Hret].
Defined.

End edge_lists.

(** * Initialising the supernodes again *)

Section supernodes_again.
Import UnionFind UnionFindFacts.
Implicit Types (sp : SitePercolation).

Lemma merge_all_settled (pairs : list (nat * nat)) (R s : list nat) :
  (∀ e, e ∈ pairs → rep_at R e.1 = rep_at R e.2) →
  foldl merge_pair (R, s) pairs = (R, s).
Proof.
  induction pairs as [|e pairs IH]; intros Hset; cbn [foldl]; [done|].
  assert (merge_pair (R, s) e = (R, s)) as ->.
  { unfold merge_pair, merge_reps. simpl. rewrite decide_True; [done|].
    apply Hset. left. }
  apply IH. intros e' He'. apply Hset. by right.
Qed.

(** A first [initialize_supernodes] joins every link. *)
Lemma initialize_supernodes_joined sp :
  engine_wf sp → supernodes_joined (initialize_supernodes sp).
Proof.
  intros Hwf. pose proof Hwf as (_ & Hx & _).
  destruct (unite_all_spec (uf_aux sp) (supernode_links sp) Hx
              (supernode_links_ok sp Hwf)) as (_ & _ & _ & Hjoin).
  intros e He. by apply Hjoin.
Qed.

(** On joined links every [unite] of the loop finds equal roots. *)
Lemma initialize_supernodes_settled sp :
  engine_wf sp → supernodes_joined sp →
  partition_of (uf_aux (initialize_supernodes sp)) = partition_of (uf_aux sp) ∧
  (has_percolation (initialize_supernodes sp)).2 = (has_percolation sp).2.
Proof.
  intros Hwf Hj. pose proof (initialize_supernodes_wf sp Hwf) as Hwf1.
  assert (partition_of (uf_aux (initialize_supernodes sp)) = partition_of (uf_aux sp))
    as Hpart.
  { change (uf_aux (initialize_supernodes sp))
      with (foldl (λ ua l, unite ua l.1 l.2) (uf_aux sp) (supernode_links sp)).
    rewrite unite_all_abs; [| apply Hwf | by apply supernode_links_ok].
    by apply merge_all_settled. }
  split; [done|].
  fold (percolates (initialize_supernodes sp)). fold (percolates sp).
  injection Hpart as HR _.
  apply percolates_same_aux; [apply Hwf | apply Hwf1 | done | done | done].
Qed.

Lemma joined_same_aux sp sp' :
  reps (uf_aux sp') = reps (uf_aux sp) →
  numNodos sp' = numNodos sp → superTop sp' = superTop sp →
  superBottom sp' = superBottom sp →
  supernodes_joined sp → supernodes_joined sp'.
Proof.
  intros HR HN Ht Hb Hj e He. rewrite HR. apply Hj.
  unfold supernode_links in *. by rewrite <- HN, <- Ht, <- Hb.
Qed.

Lemma step_joined sp aristas configuracion p Smax o :
  engine_wf sp → edges_ok (numNodos sp) aristas →
  numNodos sp ≤ length configuracion →
  generate_single_percolation sp aristas configuracion p Smax = Some o →
  supernodes_joined sp → supernodes_joined (so_engine o).
Proof.
  intros Hwf Hok Hconf Hcall Hj.
  destruct (step_any sp aristas configuracion p Smax Hwf Hok Hconf)
    as (o' & Hcall' & _ & HN & Ht & Hb & _ & Hkeep).
  rewrite Hcall in Hcall'. injection Hcall' as <-.
  intros e He. apply Hkeep, Hj.
  unfold supernode_links in *. by rewrite <- HN, <- Ht, <- Hb.
Qed.

Lemma has_percolation_joined sp :
  engine_wf sp → supernodes_joined sp → supernodes_joined (has_percolation sp).1.
Proof.
  intros Hwf Hj. pose proof Hwf as (_ & Hx & _).
  destruct (has_percolation_spec sp Hx) as (_ & Hset & _ & _ & Hpart).
  injection Hpart as HR _.
  apply (joined_same_aux sp); [done | by rewrite Hset.. | done].
Qed.

Lemma sweep_body_joined aristas configuracion step visualization (s s' : sweep_state) :
  engine_wf (sw_engine s) → edges_ok (numNodos (sw_engine s)) aristas →
  numNodos (sw_engine s) ≤ length configuracion →
  sweep_body aristas configuracion step visualization s = Some s' →
  supernodes_joined (sw_engine s) → supernodes_joined (sw_engine s').
Proof.
  intros Hwf Hok Hconf Hbody Hj.
  destruct (sweep_body_engine aristas configuracion step visualization s s'
              Hwf Hok Hconf Hbody)
    as (o & Hcall & _ & _ & HN & _ & _ & _ & Haux & Ht & Hb & _).
  pose proof (step_joined _ _ _ _ _ _ Hwf Hok Hconf Hcall Hj) as Hjo.
  destruct (step_any (sw_engine s) aristas configuracion (sw_p s) (sw_Smax s)
              Hwf Hok Hconf) as (o' & Hcall' & _ & HNo & Hto & Hbo & _).
  rewrite Hcall in Hcall'. injection Hcall' as <-.
  injection Haux as HR _.
  apply (joined_same_aux (so_engine o)); [done | congruence.. | done].
Qed.

Lemma sweep_joined m aristas configuracion step visualization sp (sm : sweep_state) :
  engine_wf sp → edges_ok (numNodos sp) aristas →
  numNodos sp ≤ length configuracion →
  sweep_iterations m aristas configuracion step visualization
    (sweep_init sp visualization) = Some sm →
  engine_wf (sw_engine sm) ∧ supernodes_joined (sw_engine sm).
Proof.
  intros Hwf Hok Hconf.
  destruct (sweep_init_wf sp visualization Hwf) as [Hwf0 HN0].
  revert sm. induction m as [|m IH]; intros sm Hm.
  { simpl in Hm. injection Hm as <-. split; [done|].
    by apply initialize_supernodes_joined. }
  rewrite sweep_iterations_succ in Hm.
  destruct (sweep_iterations_inv m aristas configuracion step visualization
              (sweep_init sp visualization))
    as (sk & Hk & Hwfk & HNk & _); [done | by rewrite HN0 | by rewrite HN0 |].
  rewrite Hk in Hm. destruct (IH sk Hk) as [_ Hjk].
  destruct (sweep_body_spec aristas configuracion step visualization sk)
    as (s' & o & Hbody & _ & Hwf' & _);
    [done | by rewrite HNk, HN0 | by rewrite HNk, HN0 |].
  rewrite Hbody in Hm. injection Hm as <-. split; [done|].
  apply (sweep_body_joined aristas configuracion step visualization sk);
    [done | by rewrite HNk, HN0 | by rewrite HNk, HN0 | done | done].
Qed.

(** X20. [initialize_supernodes] on an engine whose supernode links are
    already joined changes nothing that can be observed: the auxiliary
    structure keeps its partition (representatives and sizes), the primary
    structure, the activation flags, [current_p] and [p_c] are not touched,
    and [has_percolation] gives the same answer.  The links are joined by a
    first [initialize_supernodes], so that calling it twice in a row is
    calling it once; and they stay joined through [has_percolation], through
    every call of [generate_single_percolation] and through every iteration
    of a sweep.  So the [initialize_supernodes] that opens a second sweep, on
    the engine that a first sweep has left after any number of iterations,
    keeps the auxiliary partition, the primary structure and the activation
    flags of that engine, and the answer of [has_percolation]. *)
Theorem X20_initialize_supernodes_again (sp : SitePercolation) :
  engine_wf sp →
  supernodes_joined (initialize_supernodes sp) ∧
  (partition_of (uf_aux (initialize_supernodes (initialize_supernodes sp)))
     = partition_of (uf_aux (initialize_supernodes sp)) ∧
   uf (initialize_supernodes (initialize_supernodes sp)) = uf sp ∧
   nodoActivo (initialize_supernodes (initialize_supernodes sp)) = nodoActivo sp ∧
   (has_percolation (initialize_supernodes (initialize_supernodes sp))).2
     = (has_percolation (initialize_supernodes sp)).2) ∧
  (supernodes_joined sp →
     partition_of (uf_aux (initialize_supernodes sp)) = partition_of (uf_aux sp) ∧
     uf (initialize_supernodes sp) = uf sp ∧
     nodoActivo (initialize_supernodes sp) = nodoActivo sp ∧
     current_p (initialize_supernodes sp) = current_p sp ∧
     p_c (initialize_supernodes sp) = p_c sp ∧
     (has_percolation (initialize_supernodes sp)).2 = (has_percolation sp).2) ∧
  (supernodes_joined sp →
     supernodes_joined (has_percolation sp).1 ∧
     ∀ aristas configuracion p Smax o,
       edges_ok (numNodos sp) aristas → numNodos sp ≤ length configuracion →
       generate_single_percolation sp aristas configuracion p Smax = Some o →
       supernodes_joined (so_engine o)) ∧
  (∀ aristas configuracion step visualization m (sm : sweep_state),
     edges_ok (numNodos sp) aristas → numNodos sp ≤ length configuracion →
     sweep_iterations m aristas configuracion step visualization
       (sweep_init sp visualization) = Some sm →
     supernodes_joined (sw_engine sm) ∧
     partition_of (uf_aux (initialize_supernodes (sw_engine sm)))
       = partition_of (uf_aux (sw_engine sm)) ∧
     (has_percolation (initialize_supernodes (sw_engine sm))).2
       = (has_percolation (sw_engine sm)).2) ∧
  (∀ aristas configuracion step visualization fuel (s : sweep_state),
     edges_ok (numNodos sp) aristas → numNodos sp ≤ length configuracion →
     generate_full_percolation fuel sp aristas configuracion step visualization
       = Returns s →
     ∀ visualization',
       partition_of (uf_aux (sw_engine (sweep_init (sw_engine s) visualization')))
         = partition_of (uf_aux (sw_engine s)) ∧
       uf (sw_engine (sweep_init (sw_engine s) visualization')) = uf (sw_engine s) ∧
       nodoActivo (sw_engine (sweep_init (sw_engine s) visualization'))
         = nodoActivo (sw_engine s) ∧
       (has_percolation (sw_engine (sweep_init (sw_engine s) visualization'))).2
         = (has_percolation (sw_engine s)).2).
Proof.
  intros Hwf. split; [by apply initialize_supernodes_joined|].
  split.
  { destruct (initialize_supernodes_settled (initialize_supernodes sp))
      as [Hp Hh];
      [by apply initialize_supernodes_wf | by apply initialize_supernodes_joined |].
    split; [done|]. do 2 (split; [done|]). done. }
  split.
  { intros Hj. destruct (initialize_supernodes_settled sp Hwf Hj) as [Hp Hh].
    split; [done|]. do 4 (split; [done|]). done. }
  split.
  { intros Hj. split; [by apply has_percolation_joined|].
    intros aristas configuracion p Smax o Hok Hconf Hcall.
    by apply (step_joined sp aristas configuracion p Smax o). }
  assert (∀ aristas configuracion step visualization m (sm : sweep_state),
     edges_ok (numNodos sp) aristas → numNodos sp ≤ length configuracion →
     sweep_iterations m aristas configuracion step visualization
       (sweep_init sp visualization) = Some sm →
     supernodes_joined (sw_engine sm) ∧
     partition_of (uf_aux (initialize_supernodes (sw_engine sm)))
       = partition_of (uf_aux (sw_engine sm)) ∧
     (has_percolation (initialize_supernodes (sw_engine sm))).2
       = (has_percolation (sw_engine sm)).2) as Hsweep.
  { intros aristas configuracion step visualization m sm Hok Hconf Hm.
    destruct (sweep_joined m aristas configuracion step visualization sp sm
                Hwf Hok Hconf Hm) as [Hwfm Hjm].
    split; [done|]. by apply initialize_supernodes_settled. }
  split; [exact Hsweep|].
  intros aristas configuracion step visualization fuel s Hok Hconf Hret visualization'.
  apply sweep_loop_returns in Hret as (n & _ & Hn & _).
  destruct (Hsweep aristas configuracion step visualization n s Hok Hconf Hn)
    as (_ & Hp & Hh).
  split; [exact Hp|]. split; [done|]. split; [done | exact Hh].
Qed.

(** The scenario swept once with [step = 0.5]: a second sweep starts from
    the auxiliary partition the first one left. *)
Lemma X20_witness :
  ∃ s, generate_full_percolation 20 (SitePercolation_new 4)
         [(0, 1); (0, 2); (1, 3); (2, 3)] [0.1; 0.9; 0.2; 0.8]%float 0.5%float false
       = Returns s ∧
       partition_of (uf_aux (sw_engine (sweep_init (sw_engine s) false)))
       = partition_of (uf_aux (sw_engine s)).
Proof.
  eexists. split; [vm_compute; reflexivity|].
  destruct (X20_initialize_supernodes_again (SitePercolation_new 4) (new_engine_wf 4))
    as (_ & _ & _ & _ & _ & Hsecond).
  assert (numNodos (SitePercolation_new 4) ≤ length [0.1; 0.9; 0.2; 0.8]%float) as Hlen
    by (simpl; lia).
  refine (proj1 (Hsecond _ _ 0.5%float false 20 _ scenario_edges_ok Hlen _ false)).
  vm_compute. reflexivity.
Defined.

End supernodes_again.
